(** * CSS audit and class-rename toolkit: a shallow embedding

  The development follows two scripts of the repository,
  [css_audit.py] (rule extraction, risk classification, duplicate
  detection) and [rename_css_classes.py] (reference extraction and the
  interactive rewrite engine).

  Python [str] values are modelled as [string]; a character is a code
  point below 256.  Python sets are modelled by the list of their
  elements in iteration order, dictionaries by association lists in
  insertion order. *)

From Stdlib Require Import String Ascii List Bool Arith ZArith Lia Permutation Sorted.
Import ListNotations.
Open Scope list_scope.
Open Scope string_scope.
Open Scope nat_scope.

(** ** Python string primitives *)

Module PyStr.

(** [str.isspace] on one character, for code points below 256. *)
Definition isspace (c : ascii) : bool :=
  let n := nat_of_ascii c in
  ((9 <=? n) && (n <=? 13)) || ((28 <=? n) && (n <=? 32))
  || (n =? 133) || (n =? 160).

(** [str.isalnum() or c == '_'], the word characters of [\w] and [\b]. *)
Definition isword (c : ascii) : bool :=
  let n := nat_of_ascii c in
  ((48 <=? n) && (n <=? 57)) || ((65 <=? n) && (n <=? 90))
  || ((97 <=? n) && (n <=? 122)) || (n =? 95)
  || (n =? 170) || (n =? 178) || (n =? 179) || (n =? 181) || (n =? 185)
  || (n =? 186) || ((188 <=? n) && (n <=? 190))
  || ((192 <=? n) && (n <=? 214)) || ((216 <=? n) && (n <=? 246))
  || ((248 <=? n) && (n <=? 255)).

Fixpoint lstrip (s : string) : string :=
  match s with
  | EmptyString => EmptyString
  | String c r => if isspace c then lstrip r else s
  end.

Fixpoint rstrip (s : string) : string :=
  match s with
  | EmptyString => EmptyString
  | String c r =>
      match rstrip r with
      | EmptyString => if isspace c then EmptyString else String c EmptyString
      | r' => String c r'
      end
  end.

(** [s.strip()] *)
Definition strip (s : string) : string := rstrip (lstrip s).

(** [s.split(sep)[0]]: the text before the first [sep], or all of [s]. *)
Fixpoint split_head (sep : ascii) (s : string) : string :=
  match s with
  | EmptyString => EmptyString
  | String c r => if Ascii.eqb c sep then EmptyString
                  else String c (split_head sep r)
  end.

(** [s.startswith(p)] *)
Definition startswith (s p : string) : bool := prefix p s.

(** [s[:n]] and [s[n:]] for [0 <= n]; both clamp at the end of [s]. *)
Fixpoint take (n : nat) (s : string) : string :=
  match n, s with
  | S n', String c r => String c (take n' r)
  | _, _ => EmptyString
  end.

Fixpoint drop (n : nat) (s : string) : string :=
  match n, s with
  | S n', String _ r => drop n' r
  | _, _ => s
  end.

(** [s[a:b]] for [0 <= a], [0 <= b]. *)
Definition slice (a b : nat) (s : string) : string := take (b - a) (drop a s).

Fixpoint count_char (c : ascii) (s : string) : nat :=
  match s with
  | EmptyString => 0
  | String a r => (if Ascii.eqb a c then 1 else 0) + count_char c r
  end.

(** [s.rfind(c) + 1]: the offset after the last [c] of [s], [0] without one. *)
Fixpoint after_last (c : ascii) (s : string) : nat :=
  match s with
  | EmptyString => 0
  | String a r =>
      match after_last c r with
      | 0 => if Ascii.eqb a c then 1 else 0
      | S n => S (S n)
      end
  end.

(** [s.find(c)], with [len(s)] instead of [-1]. *)
Fixpoint find_or_len (c : ascii) (s : string) : nat :=
  match s with
  | EmptyString => 0
  | String a r => if Ascii.eqb a c then 0 else S (find_or_len c r)
  end.

(** [''.join(l)] *)
Definition join (l : list string) : string := fold_right append EmptyString l.

Definition mem (x : string) (l : list string) : bool := existsb (String.eqb x) l.

(** [set.add] and [set.update]; a set lists its elements once each. *)
Definition set_add (x : string) (s : list string) : list string :=
  if mem x s then s else (s ++ [x])%list.

Definition set_update (s t : list string) : list string :=
  fold_left (fun acc x => set_add x acc) t s.

Fixpoint insert_sorted (x : string) (l : list string) : list string :=
  match l with
  | [] => [x]
  | y :: l' => if String.leb x y then x :: l else y :: insert_sorted x l'
  end.

(** [sorted(l)], by code points. *)
Definition sorted (l : list string) : list string :=
  fold_right insert_sorted [] l.

End PyStr.

(** ** Risk classifier ([css_audit.py]) *)

Module Risk.

Definition HIGH_RISK_PROPS : list string :=
  [ "display"; "position"; "float"; "flex"; "flex-direction"; "flex-wrap";
    "flex-flow"; "flex-grow"; "flex-shrink"; "flex-basis"; "grid"; "grid-template";
    "grid-template-columns"; "grid-template-rows"; "grid-column"; "grid-row";
    "width"; "height"; "min-width"; "min-height"; "max-width"; "max-height";
    "overflow"; "overflow-x"; "overflow-y"; "margin"; "padding" ].

Definition MED_RISK_PROPS : list string :=
  [ "margin-top"; "margin-right"; "margin-bottom"; "margin-left";
    "padding-top"; "padding-right"; "padding-bottom"; "padding-left";
    "margin-inline"; "margin-block"; "padding-inline"; "padding-block" ].

Inductive risk := HIGH | MEDIUM | LOW.

(** [any(prop.startswith(p+'-') for p in props)] *)
Definition dash_variant (props : list string) (prop : string) : bool :=
  existsb (fun p => PyStr.startswith prop (p ++ "-")) props.

(** [prop in props or any(prop.startswith(p+'-') for p in props)] *)
Definition tier_test (props : list string) (prop : string) : bool :=
  PyStr.mem prop props || dash_variant props prop.

(** [decl.split(':')[0].strip()] *)
Definition prop_of (decl : string) : string :=
  PyStr.strip (PyStr.split_head ":" decl).

(** [classify_risk(declarations)]; the argument lists the set's elements
    in the order the [for] loop visits them. *)
Fixpoint classify_risk (declarations : list string) : risk :=
  match declarations with
  | [] => LOW
  | decl :: rest =>
      let prop := prop_of decl in
      if tier_test HIGH_RISK_PROPS prop then HIGH
      else if tier_test MED_RISK_PROPS prop then MEDIUM
      else classify_risk rest
  end.

End Risk.

(** ** A backtracking matcher for the regular expressions of the scripts

  The scripts use Python's [re] with greedy quantifiers, capturing
  groups and [\b].  Every quantified atom in their patterns is a single
  character class, so [Star] and [Plus] range over classes; alternation
  tries its left branch first and an optional group is tried before it is
  skipped, which is the order in which [re] explores a pattern. *)

Module Regex.

Inductive citem :=
| CChar (c : ascii)
| CRange (lo hi : ascii)
| CSpace.                              (* \s inside a class *)

Record cclass := { negated : bool; items : list citem }.

Definition citem_matches (a : ascii) (i : citem) : bool :=
  match i with
  | CChar c => Ascii.eqb a c
  | CRange lo hi =>
      (nat_of_ascii lo <=? nat_of_ascii a) && (nat_of_ascii a <=? nat_of_ascii hi)
  | CSpace => PyStr.isspace a
  end.

Definition cclass_matches (cl : cclass) (a : ascii) : bool :=
  xorb (negated cl) (existsb (citem_matches a) (items cl)).

Inductive re :=
| Lit (s : string)                     (* literal text *)
| Cls (cl : cclass)                    (* [...] *)
| Star (cl : cclass)                   (* [...]* *)
| Plus (cl : cclass)                   (* [...]+ *)
| Seq (r1 r2 : re)
| Alt (r1 r2 : re)                     (* r1|r2 *)
| Opt (r : re)                         (* (?:r)? *)
| Group (n : nat) (r : re)             (* the n-th capturing group *)
| WordB.                               (* \b *)

(** Position in the subject: offset, the character before it, the text
    from it on. *)
Record cursor := { pos : nat; prev : option ascii; rest : string }.

(** Spans of the groups closed so far (latest first) and [lastindex];
    [0] stands for Python's [None]. *)
Record mstate := { caps : list (nat * (nat * nat)); lastindex : nat }.

Definition mstate0 : mstate := {| caps := []; lastindex := 0 |}.

Definition close_group (n s e : nat) (st : mstate) : mstate :=
  {| caps := (n, (s, e)) :: caps st; lastindex := n |}.

Fixpoint lookup_group (n : nat) (l : list (nat * (nat * nat))) : option (nat * nat) :=
  match l with
  | [] => None
  | (m, sp) :: l' => if m =? n then Some sp else lookup_group n l'
  end.

Definition step (c : cursor) : option (ascii * cursor) :=
  match rest c with
  | EmptyString => None
  | String a t => Some (a, {| pos := S (pos c); prev := Some a; rest := t |})
  end.

Fixpoint eat (s : string) (c : cursor) : option cursor :=
  match s with
  | EmptyString => Some c
  | String x s' =>
      match step c with
      | Some (a, c') => if Ascii.eqb a x then eat s' c' else None
      | None => None
      end
  end.

Definition is_word_opt (o : option ascii) : bool :=
  match o with Some a => PyStr.isword a | None => false end.

Definition next_char (c : cursor) : option ascii :=
  match rest c with EmptyString => None | String a _ => Some a end.

Definition at_boundary (c : cursor) : bool :=
  negb (Bool.eqb (is_word_opt (prev c)) (is_word_opt (next_char c))).

Definition orelse {A} (x y : option A) : option A :=
  match x with Some _ => x | None => y end.

(** Greedy repetition of a class: the longest run is tried first. *)
Fixpoint star {A} (cl : cclass) (p : nat) (pv : option ascii) (s : string)
         (k : cursor -> option A) : option A :=
  let here := {| pos := p; prev := pv; rest := s |} in
  match s with
  | String a t =>
      if cclass_matches cl a
      then orelse (star cl (S p) (Some a) t k) (k here)
      else k here
  | EmptyString => k here
  end.

Fixpoint run {A} (r : re) (c : cursor) (st : mstate)
         (k : cursor -> mstate -> option A) : option A :=
  match r with
  | Lit s => match eat s c with Some c' => k c' st | None => None end
  | Cls cl =>
      match step c with
      | Some (a, c') => if cclass_matches cl a then k c' st else None
      | None => None
      end
  | Star cl => star cl (pos c) (prev c) (rest c) (fun c' => k c' st)
  | Plus cl =>
      match step c with
      | Some (a, c') =>
          if cclass_matches cl a
          then star cl (pos c') (prev c') (rest c') (fun c'' => k c'' st)
          else None
      | None => None
      end
  | Seq r1 r2 => run r1 c st (fun c' st' => run r2 c' st' k)
  | Alt r1 r2 => orelse (run r1 c st k) (run r2 c st k)
  | Opt r1 => orelse (run r1 c st k) (k c st)
  | Group n r1 =>
      run r1 c st (fun c' st' => k c' (close_group n (pos c) (pos c') st'))
  | WordB => if at_boundary c then k c st else None
  end.

(** A match object: [start()], [end()], the group spans, [lastindex]. *)
Record rmatch := { m_start : nat; m_end : nat; m_state : mstate }.

Definition match_at (r : re) (c : cursor) : option rmatch :=
  run r c mstate0
      (fun c' st => Some {| m_start := pos c; m_end := pos c'; m_state := st |}).

(** [pattern.finditer(content)]: leftmost matches, the scan resuming at
    the end of each match.  [resume] is the offset before which no match
    may start.  (After an empty match the scan moves one character on;
    no pattern of the scripts matches the empty string.) *)
Fixpoint scan (r : re) (p : nat) (pv : option ascii) (s : string)
         (resume : nat) : list rmatch :=
  let here := if p <? resume then None
              else match_at r {| pos := p; prev := pv; rest := s |} in
  let resume' := match here with
                 | Some m => Nat.max (m_end m) (S p)
                 | None => resume
                 end in
  let found := match here with Some m => [m] | None => [] end in
  match s with
  | EmptyString => found
  | String a t => (found ++ scan r (S p) (Some a) t resume')%list
  end.

Definition finditer (r : re) (content : string) : list rmatch :=
  scan r 0 None content 0.

(** [match.group(n)] as text. *)
Definition group_text (content : string) (m : rmatch) (n : nat) : option string :=
  match lookup_group n (caps (m_state m)) with
  | Some (s, e) => Some (PyStr.slice s e content)
  | None => None
  end.

(** Sequence of several expressions. *)
Fixpoint seq (l : list re) : re :=
  match l with
  | [] => Lit EmptyString
  | [r] => r
  | r :: l' => Seq r (seq l')
  end.

(** Alternation of literal words, left to right. *)
Fixpoint words (l : list string) : re :=
  match l with
  | [] => Lit EmptyString
  | [w] => Lit w
  | w :: l' => Alt (Lit w) (words l')
  end.

End Regex.

(** ** Reference extraction ([rename_css_classes.py]) *)

Module Rename.
Import Regex.

Definition squote : ascii := "039"%char.
Definition dquote : ascii := "034"%char.
Definition backtick : ascii := "096"%char.

(** The classes of the patterns: either quote; anything but a quote; a
    quote or a backtick; a quote, white space or a closing parenthesis;
    white space. *)
Definition quote : cclass := {| negated := false; items := [CChar squote; CChar dquote] |}.
Definition not_quote : cclass := {| negated := true; items := [CChar squote; CChar dquote] |}.
Definition quote_or_tick : cclass :=
  {| negated := false; items := [CChar squote; CChar dquote; CChar backtick] |}.
Definition selector_end : cclass :=
  {| negated := false; items := [CChar squote; CChar dquote; CSpace; CChar ")"] |}.
Definition space : cclass := {| negated := false; items := [CSpace] |}.

(** The shared middle of the attribute patterns: an optional run of
    non-quote characters ending in white space, a word boundary, the
    class name as capturing group [g], a word boundary, and an optional
    run of white space followed by non-quote characters.
    [re.escape(class_name)] matches the name literally. *)
Definition word_in_value (g : nat) (class_name : string) : re :=
  seq [ Opt (Seq (Star not_quote) (Plus space));
        WordB; Group g (Lit class_name); WordB;
        Opt (Seq (Plus space) (Star not_quote)) ].

Inductive match_type :=
| JSX_attribute | JSX_expression | classList_method | querySelector
| getElementsByClassName | class_assignment | matches_method
| className_property | class_selector_string.

Definition patterns (class_name : string) : list (re * match_type) :=
  [ (seq [ Group 1 (words ["class"; "className"]); Star space; Lit "="; Star space;
           Cls quote; word_in_value 2 class_name; Cls quote ],
     JSX_attribute);
    (seq [ Group 1 (words ["class"; "className"]); Star space; Lit "="; Star space;
           Lit "{"; Star space; Cls quote_or_tick;
           word_in_value 2 class_name; Cls quote_or_tick ],
     JSX_expression);
    (seq [ Lit "classList."; Group 1 (words ["add"; "remove"; "toggle"; "contains"; "replace"]);
           Lit "("; Star space; Cls quote; word_in_value 2 class_name; Cls quote ],
     classList_method);
    (seq [ Lit "querySelector"; Opt (Lit "All"); Lit "("; Star space; Cls quote;
           Lit "."; Group 1 (Lit class_name); Cls selector_end ],
     querySelector);
    (seq [ Lit "getElementsByClassName("; Star space; Cls quote;
           Group 1 (Lit class_name); Cls quote ],
     getElementsByClassName);
    (seq [ words ["className"; "cssClass"; "klass"; "cls"]; Star space; Lit "=";
           Star space; Cls quote; word_in_value 1 class_name; Cls quote ],
     class_assignment);
    (seq [ words ["matchesSelector"; "matches"; "closest"]; Lit "("; Star space;
           Cls quote; Lit "."; Group 1 (Lit class_name); Cls selector_end ],
     matches_method);
    (seq [ Lit ".className"; Star space; Lit "="; Star space; Cls quote;
           word_in_value 1 class_name; Cls quote ],
     className_property);
    (seq [ Cls quote; Lit "."; Group 1 (Lit class_name); Cls quote ],
     class_selector_string) ].

(** A located reference: [(start, end, match_type, context)]. *)
Record reference := {
  class_start : nat; class_end : nat; kind : match_type; context : string }.

(** Body of the inner [for match in pattern.finditer(content)] loop.
    Every pattern closes a capturing group on every way through it, so
    [lastindex] is set and the group it selects has a span: the [None]
    branch and the final [else] are never taken (lemma
    [every_match_is_a_reference]). *)
Definition reference_of (content : string) (mt : match_type) (m : rmatch)
  : list reference :=
  let li := lastindex (m_state m) in
  let class_name_group := if 2 <=? li then 2 else 1 in
  if class_name_group <=? li then
    match lookup_group class_name_group (caps (m_state m)) with
    | Some (s, e) =>
        [ {| class_start := s; class_end := e; kind := mt;
             context := PyStr.slice (m_start m) (m_end m) content |} ]
    | None => []
    end
  else [].

Definition find_class_references (content class_name : string) : list reference :=
  flat_map (fun '(pattern, mt) =>
              flat_map (reference_of content mt) (finditer pattern content))
           (patterns class_name).

End Rename.
(** ** The rewrite engine ([rename_css_classes.py])

  The script reads keys from the terminal, reads and writes files and
  prints.  The state it acts on is a [world]: the keys the operator will
  press, the files on disk, and the trace of what the run did so far.

  The disk is that of a POSIX system.  It holds each file once, under
  the path as [pathlib] spells it: relative to the working directory,
  with single slashes and no dot component.  Symbolic links and a second
  name for a file are outside the model. *)

Module Engine.
Import Regex Rename.

(** What a path holds: text as it is stored, line ends included, or
    bytes that are not UTF-8. *)
Inductive file := Text (content : string) | Undecodable.

(** The disk: each path once, in directory-walk order. *)
Definition disk := list (string * file).

Fixpoint lookup (p : string) (d : disk) : option file :=
  match d with
  | [] => None
  | (q, f) :: d' => if String.eqb q p then Some f else lookup p d'
  end.

Fixpoint store (p : string) (f : file) (d : disk) : disk :=
  match d with
  | [] => [(p, f)]
  | (q, g) :: d' => if String.eqb q p then (p, f) :: d' else (q, g) :: store p f d'
  end.

Inductive event :=
| Read (path : string)                          (* path.read_text *)
| Skipping (path : string)                      (* the decode-failure message *)
| Shown (path : string) (line_num : nat) (mt : match_type) (highlight_line : string)
| Asked (old_class new_class : string)          (* the question of a prompt *)
| Echo (key : ascii)                            (* the accepted key, echoed *)
| Copied (src dst : string)                     (* copy2 *)
| Written (path : string)                       (* path.write_text *)
| Wrote (path : string)                         (* the final report line *)
| Stderr (msg : string).                        (* the message of sys.exit *)

Record world := { keys : list ascii; files : disk; out : list event }.

Inductive result (A : Type) :=
| Ok (a : A) (w : world)
| Hang                       (* waits for a key that never comes *)
| Raise (exn : string).      (* an uncaught exception *)
Arguments Ok {A} a w.
Arguments Hang {A}.
Arguments Raise {A} exn.

Definition M (A : Type) := world -> result A.

Definition ret {A} (a : A) : M A := fun w => Ok a w.

Definition bind {A B} (c : M A) (k : A -> M B) : M B :=
  fun w => match c w with
           | Ok a w' => k a w'
           | Hang => Hang
           | Raise e => Raise e
           end.

Notation "x <- c ;; k" := (bind c (fun x => k))
  (at level 61, c at next level, right associativity).
Notation "c ;;; k" := (bind c (fun _ => k))
  (at level 61, right associativity).

Definition emit (e : event) : M unit :=
  fun w => Ok tt {| keys := keys w; files := files w; out := (out w ++ [e])%list |}.

(** The namespace that [p.parse_args(argv)] returns; [map] holds the
    object decoded from the JSON file when [--map] is given.  The parser
    is the library's: which namespaces a command line gives is not
    modelled, and [load_mapping] and [main] are followed from a
    namespace on. *)
Record arguments := {
  roots : list string;
  map : option (list (string * string));
  pairs : list string;
  dry_run : bool;
  all_yes : bool;
  no_backup : bool }.

(** *** [load_mapping] *)

(** [mapping[old] = new] *)
Fixpoint dict_set (k v : string) (d : list (string * string)) : list (string * string) :=
  match d with
  | [] => [(k, v)]
  | (k', v') :: d' =>
      if String.eqb k' k then (k, v) :: d' else (k', v') :: dict_set k v d'
  end.

(** [pair.split(":", 1)], when it yields two parts. *)
Fixpoint split_pair (s : string) : option (string * string) :=
  match s with
  | EmptyString => None
  | String c r =>
      if Ascii.eqb c ":" then Some (EmptyString, r)
      else match split_pair r with
           | Some (old, new) => Some (String c old, new)
           | None => None
           end
  end.

(** The [for pair in args.pairs] loop; [inl] is [sys.exit] with a message. *)
Fixpoint add_pairs (ps : list string) (mapping : list (string * string))
  : string + list (string * string) :=
  match ps with
  | [] => inr mapping
  | p :: ps' =>
      match split_pair p with
      | None => inl ("Invalid mapping pair '" ++ p ++ "' (should be OLD:NEW)")
      | Some (old, new) => add_pairs ps' (dict_set old new mapping)
      end
  end.

Definition is_comment_key (k : string) : bool := PyStr.startswith k "/*".

(** The mapping once the JSON object is read and the pairs are added,
    before the emptiness check. *)
Definition supplied (args : arguments) : string + list (string * string) :=
  add_pairs (pairs args) (match map args with Some m => m | None => [] end).

Definition load_mapping (args : arguments) : string + list (string * string) :=
  match supplied args with
  | inl msg => inl msg
  | inr [] => inl "No mappings supplied.  Use --map or OLD:NEW pairs."
  | inr mapping => inr (filter (fun '(k, _) => negb (is_comment_key k)) mapping)
  end.

(** *** [prompt] *)

Definition lower (c : ascii) : ascii :=
  let n := nat_of_ascii c in
  if ((65 <=? n) && (n <=? 90)) || ((192 <=? n) && (n <=? 214))
     || ((216 <=? n) && (n <=? 222))
  then ascii_of_nat (n + 32) else c.

Definition is_answer (k : ascii) : bool :=
  Ascii.eqb k "y" || Ascii.eqb k "n" || Ascii.eqb k "s" || Ascii.eqb k "a".

(** The [while True] loop around [getch]: keys are read until one of
    y, n, s, a comes; with no such key left the loop never ends. *)
Fixpoint await_key (ks : list ascii) : option (ascii * list ascii) :=
  match ks with
  | [] => None
  | k :: ks' => if is_answer (lower k) then Some (lower k, ks') else await_key ks'
  end.

Definition prompt (old_class new_class : string) : M ascii :=
  fun w =>
    match await_key (keys w) with
    | Some (key, ks) =>
        Ok key {| keys := ks; files := files w;
                  out := (out w ++ [Asked old_class new_class; Echo key])%list |}
    | None => Hang
    end.

(** *** [process_file] *)

Definition newline : ascii := "010"%char.

Definition ANSI_YELLOW : string := String "027" "[33m".
Definition ANSI_RESET : string := String "027" "[0m".

Definition highlight (content : string) (r : reference) : nat * string :=
  let line_num := PyStr.count_char newline (PyStr.take (class_start r) content) + 1 in
  let line_start := PyStr.after_last newline (PyStr.take (class_start r) content) in
  let line_end := class_start r + PyStr.find_or_len newline (PyStr.drop (class_start r) content) in
  let line := PyStr.slice line_start line_end content in
  let highlight_pos := class_start r - line_start in
  let width := class_end r - class_start r in
  (line_num,
   PyStr.take highlight_pos line ++ ANSI_YELLOW
     ++ PyStr.slice highlight_pos (highlight_pos + width) line ++ ANSI_RESET
     ++ PyStr.drop (highlight_pos + width) line).

Definition change := (nat * nat * string)%type.

(** The variables of the loops of [process_file]. *)
Record loop_state := {
  global_yes : bool;
  all_changes : list change;
  changed : bool }.

(** How an iteration ends: on to the next one, or [return changed]. *)
Inductive flow :=
| Next (st : loop_state)
| Return (value : bool).

Definition choose (args : arguments) (st : loop_state) (old_class new_class : string)
  : M ascii :=
  if all_yes args || global_yes st then ret "y"%char
  else if dry_run args then ret "n"%char
  else prompt old_class new_class.

(** One iteration of the loop over the references of a class. *)
Definition visit (path content : string) (args : arguments)
           (old_class new_class : string) (r : reference) (st : loop_state) : M flow :=
  let '(line_num, highlight_line) := highlight content r in
  emit (Shown path line_num (kind r) highlight_line) ;;;
  choice <- choose args st old_class new_class ;;
  let gy := if Ascii.eqb choice "a" then true else global_yes st in
  let choice := if Ascii.eqb choice "a" then "y"%char else choice in
  if Ascii.eqb choice "s" then ret (Return (changed st))
  else if Ascii.eqb choice "y" then
    ret (Next {| global_yes := gy;
                 all_changes := (all_changes st
                                 ++ [(class_start r, class_end r, new_class)])%list;
                 changed := true |})
  else ret (Next {| global_yes := gy; all_changes := all_changes st;
                    changed := changed st |}).

Fixpoint each_reference (path content : string) (args : arguments)
         (old_class new_class : string) (refs : list reference) (st : loop_state)
  : M flow :=
  match refs with
  | [] => ret (Next st)
  | r :: refs' =>
      fl <- visit path content args old_class new_class r st ;;
      match fl with
      | Next st' => each_reference path content args old_class new_class refs' st'
      | Return v => ret (Return v)
      end
  end.

Fixpoint each_class (path content : string) (args : arguments)
         (mapping : list (string * string)) (st : loop_state) : M flow :=
  match mapping with
  | [] => ret (Next st)
  | (old_class, new_class) :: mapping' =>
      fl <- each_reference path content args old_class new_class
              (find_class_references content old_class) st ;;
      match fl with
      | Next st' => each_class path content args mapping' st'
      | Return v => ret (Return v)
      end
  end.

(** Tuple order on [(start, end, replacement)]. *)
Definition change_ltb (a b : change) : bool :=
  let '(s1, e1, r1) := a in
  let '(s2, e2, r2) := b in
  (s1 <? s2) || ((s1 =? s2) && ((e1 <? e2) || ((e1 =? e2) && String.ltb r1 r2))).

Fixpoint insert_desc (x : change) (l : list change) : list change :=
  match l with
  | [] => [x]
  | y :: l' => if change_ltb x y then y :: insert_desc x l' else x :: l
  end.

(** [all_changes.sort(reverse=True)] *)
Definition sort_reverse (l : list change) : list change :=
  fold_right insert_desc [] l.

(** [content = content[:start] + replacement + content[end:]] for each change. *)
Fixpoint apply_changes (l : list change) (content : string) : string :=
  match l with
  | [] => content
  | (s, e, replacement) :: l' =>
      apply_changes l' (PyStr.take s content ++ replacement ++ PyStr.drop e content)
  end.

Definition carriage_return : ascii := "013"%char.

(** Reading in text mode: a carriage return with a line feed after it,
    and a carriage return alone, both become one line feed. *)
Fixpoint universal_newlines (s : string) : string :=
  match s with
  | EmptyString => EmptyString
  | String c r =>
      if Ascii.eqb c carriage_return then
        match r with
        | String c' r' =>
            if Ascii.eqb c' newline then String newline (universal_newlines r')
            else String newline (universal_newlines r)
        | EmptyString => String newline EmptyString
        end
      else String c (universal_newlines r)
  end.

(** What [read_text] makes of a file. *)
Definition decoded (f : file) : file :=
  match f with
  | Text content => Text (universal_newlines content)
  | Undecodable => Undecodable
  end.

(** [path.read_text(encoding=utf-8)] *)
Definition read_text (path : string) : M file :=
  fun w => match lookup path (files w) with
           | Some f => Ok (decoded f) {| keys := keys w; files := files w;
                                         out := (out w ++ [Read path])%list |}
           | None => Raise "FileNotFoundError"
           end.

Definition copy2 (src dst : string) : M unit :=
  fun w => match lookup src (files w) with
           | Some f => Ok tt {| keys := keys w; files := store dst f (files w);
                                out := (out w ++ [Copied src dst])%list |}
           | None => Raise "FileNotFoundError"
           end.

(** [path.write_text(content, encoding=utf-8)]; on a POSIX system a
    line feed is written as it is. *)
Definition write_text (path content : string) : M unit :=
  fun w => Ok tt {| keys := keys w; files := store path (Text content) (files w);
                    out := (out w ++ [Written path])%list |}.

Definition process_file (path : string) (mapping : list (string * string))
           (args : arguments) (global_yes : bool) : M bool :=
  f <- read_text path ;;
  match f with
  | Undecodable => emit (Skipping path) ;;; ret false
  | Text content =>
      fl <- each_class path content args mapping
              {| global_yes := global_yes; all_changes := []; changed := false |} ;;
      match fl with
      | Return v => ret v
      | Next st =>
          (if changed st && negb (dry_run args) then
             (if no_backup args then ret tt else copy2 path (path ++ ".bak")) ;;;
             write_text path (apply_changes (sort_reverse (all_changes st)) content) ;;;
             emit (Wrote path)
           else ret tt) ;;;
          ret (changed st)
      end
  end.

(** *** [main] *)

Definition JS_FILE_GLOB : list string := ["*.js"; "*.jsx"; "*.ts"; "*.tsx"].

Definition is_file (p : string) (d : disk) : bool :=
  match lookup p d with Some _ => true | None => false end.

Fixpoint ends_with (s suffix : string) : bool :=
  String.eqb s suffix
  || match s with
     | EmptyString => false
     | String _ r => ends_with r suffix
     end.

(** The final component of a path. *)
Definition name_of (p : string) : string :=
  PyStr.drop (PyStr.after_last "/" p) p.

(** [s.split(sep)] *)
Fixpoint split_on (sep : ascii) (s : string) : list string :=
  match s with
  | EmptyString => [EmptyString]
  | String c r =>
      if Ascii.eqb c sep then EmptyString :: split_on sep r
      else match split_on sep r with
           | piece :: pieces => String c piece :: pieces
           | [] => [String c EmptyString]
           end
  end.

Fixpoint lstrip_slashes (s : string) : string :=
  match s with
  | String "/" r => lstrip_slashes r
  | _ => s
  end.

(** The root of a POSIX path: exactly two leading slashes are kept, any
    other number of them is one. *)
Definition splitroot (s : string) : string * string :=
  let rel := lstrip_slashes s in
  match String.length s - String.length rel with
  | 0 => (EmptyString, rel)
  | 2 => ("//", rel)
  | _ => ("/", rel)
  end.

(** The components that [pathlib] keeps: not empty and not a dot. *)
Definition parts (rel : string) : list string :=
  filter (fun x => negb (String.eqb x EmptyString) && negb (String.eqb x "."))
         (split_on "/" rel).

Fixpoint join_with (sep : string) (l : list string) : string :=
  match l with
  | [] => EmptyString
  | [x] => x
  | x :: l' => x ++ sep ++ join_with sep l'
  end.

(** [str(pathlib.Path(s))] *)
Definition Path (s : string) : string :=
  let '(root, rel) := splitroot s in
  match root, parts rel with
  | EmptyString, [] => "."
  | _, ps => root ++ join_with "/" ps
  end.

(** The name of a directory entry. *)
Definition is_name (x : string) : bool :=
  negb (String.eqb x EmptyString) && negb (String.eqb x ".")
  && negb (String.eqb x "..").

(** What the paths below a directory start with. *)
Definition prefix_of (root : string) : string :=
  if String.eqb root "." then EmptyString
  else if ends_with root "/" then root
  else root ++ "/".

(** The path is [root] followed by names of entries, one or more. *)
Definition below (root p : string) : bool :=
  PyStr.startswith p (prefix_of root)
  && forallb is_name (split_on "/" (PyStr.drop (String.length (prefix_of root)) p)).

(** A glob of the form [*suffix], matched against a file name. *)
Definition glob_match (g name : string) : bool :=
  match g with
  | String "*" suffix => ends_with name suffix
  | _ => String.eqb g name
  end.

(** [path_root.rglob(g)]: the paths below [path_root] whose name matches
    [g], each spelled as [path_root] and the names that lead to it.  The
    walk meets the files in the order of the disk.  A root with a
    component of two dots names no directory of this disk. *)
Definition rglob (path_root g : string) (d : disk) : list string :=
  List.map fst
    (filter (fun '(p, _) => below path_root p && glob_match g (name_of p)) d).

(** [files] for one root, with [path_root = pathlib.Path(root)]. *)
Definition files_of (root : string) (d : disk) : list string :=
  let path_root := Path root in
  if is_file path_root d then [path_root]
  else flat_map (fun g => rglob path_root g d) JS_FILE_GLOB.

(** The [for file_path in files] loop; the third argument is [any_changes]. *)
Fixpoint each_file (paths : list string) (mapping : list (string * string))
         (args : arguments) (global_yes any_changes : bool) : M bool :=
  match paths with
  | [] => ret any_changes
  | file_path :: paths' =>
      any <- (fun w =>
                if is_file file_path (files w) then
                  (c <- process_file file_path mapping args global_yes ;;
                   ret (if c then true else any_changes)) w
                else ret any_changes w) ;;
      each_file paths' mapping args global_yes any
  end.

Fixpoint each_root (rs : list string) (mapping : list (string * string))
         (args : arguments) (global_yes any_changes : bool) : M bool :=
  match rs with
  | [] => ret any_changes
  | root :: rs' =>
      any <- (fun w => each_file (files_of root (files w)) mapping args
                         global_yes any_changes w) ;;
      each_root rs' mapping args global_yes any
  end.

(** [main] from the namespace on, lines 230 to 244; the value is the
    exit status of the process. *)
Definition main (args : arguments) : M nat :=
  match load_mapping args with
  | inl msg => emit (Stderr msg) ;;; ret 1
  | inr mapping =>
      any_changes <- each_root (roots args) mapping args false false ;;
      if dry_run args && any_changes then ret 1 else ret 0
  end.

End Engine.
(** ** Rule extraction and duplicate detection ([css_audit.py])

  [cssutils] hands the script a parsed style sheet.  A declaration set is
  a mutable Python [set]: several class records may hold the same set
  object, so the sets live in a heap and a record holds a location. *)

Module Audit.
Import Regex.

Inductive style_item :=
| Property (name value : string)
| CSSComment.

Inductive rule :=
| STYLE_RULE (selectorList : list string) (style : list style_item)
| OTHER_RULE.                           (* an at-rule: media, import, ... *)

Definition letter_lower : citem := CRange "a" "z".
Definition letter_upper : citem := CRange "A" "Z".
Definition digit : citem := CRange "0" "9".

(** The classes [a-zA-Z0-9_-] and [a-zA-Z-]. *)
Definition name_char : cclass :=
  {| negated := false;
     items := [letter_lower; letter_upper; digit; CChar "_"; CChar "-"] |}.
Definition pseudo_char : cclass :=
  {| negated := false; items := [letter_lower; letter_upper; CChar "-"] |}.

(** A dot, the class name as group 1, and an optional pseudo-class or
    pseudo-element suffix: one or two colons and a name. *)
Definition class_token : re :=
  seq [ Lit "."; Group 1 (Plus name_char);
        Opt (seq [Lit ":"; Opt (Lit ":"); Plus pseudo_char]) ].

(** [re.findall(class_token, selector_text)]: the text of group 1 of
    every match. *)
Definition class_matches (selector_text : string) : list string :=
  flat_map (fun m => match group_text selector_text m 1 with
                     | Some s => [s]
                     | None => []
                     end)
           (finditer class_token selector_text).

Definition loc := nat.
Definition heap := list (list string).

Definition deref (l : loc) (h : heap) : list string := nth l h [].

(** [set()] filled with [s]: a new object. *)
Definition alloc (s : list string) (h : heap) : loc * heap :=
  (length h, (h ++ [s])%list).

(** [h[l].update(t)] *)
Fixpoint heap_update (l : loc) (t : list string) (h : heap) : heap :=
  match h, l with
  | [], _ => []
  | s :: h', 0 => PyStr.set_update s t :: h'
  | s :: h', S l' => s :: heap_update l' t h'
  end.

(** The record of a class; [declarations] is a reference. *)
Record data := {
  declarations : loc;
  files : list string;
  count : nat;
  selectors : list string }.

Definition class_map := list (string * data).

Fixpoint get (class_name : string) (cm : class_map) : option data :=
  match cm with
  | [] => None
  | (n, d) :: cm' => if String.eqb n class_name then Some d else get class_name cm'
  end.

Fixpoint put (class_name : string) (d : data) (cm : class_map) : class_map :=
  match cm with
  | [] => [(class_name, d)]
  | (n, d') :: cm' =>
      if String.eqb n class_name then (n, d) :: cm' else (n, d') :: put class_name d cm'
  end.

(** The set built by the [for prop in rule.style] loop. *)
Definition serialize (style : list style_item) : list string :=
  fold_left (fun s it => match it with
                         | Property name value => PyStr.set_add (name ++ ": " ++ value) s
                         | CSSComment => s
                         end)
            style [].

(** Body of [for class_name in class_matches]. *)
Definition record_class (source_file selector_text : string) (decls : loc)
           (st : heap * class_map) (class_name : string) : heap * class_map :=
  let '(h, cm) := st in
  match get class_name cm with
  | None =>
      (h, put class_name
            {| declarations := decls; files := [source_file]; count := 0;
               selectors := [selector_text] |} cm)
  | Some d =>
      (heap_update (declarations d) (deref decls h) h,
       put class_name
         {| declarations := declarations d;
            files := PyStr.set_add source_file (files d);
            count := count d;
            selectors := PyStr.set_add selector_text (selectors d) |} cm)
  end.

(** Body of [for selector in rule.selectorList]. *)
Definition visit_selector (source_file : string) (style : list style_item)
           (st : heap * class_map) (selector_text : string) : heap * class_map :=
  match class_matches selector_text with
  | [] => st
  | names =>
      let '(decls, h) := alloc (serialize style) (fst st) in
      fold_left (record_class source_file selector_text decls) names (h, snd st)
  end.

(** Body of [for rule in stylesheet]. *)
Definition visit_rule (source_file : string) (st : heap * class_map) (r : rule)
  : heap * class_map :=
  match r with
  | STYLE_RULE selectorList style =>
      fold_left (visit_selector source_file style) selectorList st
  | OTHER_RULE => st
  end.

(** [os.path.basename] *)
Definition basename (p : string) : string :=
  PyStr.drop (PyStr.after_last "/" p) p.

(** [extract_classes_from_css]; [None] is a style sheet that fails to
    parse, for which the function returns the empty map. *)
Definition extract_classes_from_css (css_file : string) (stylesheet : option (list rule))
           (h : heap) : heap * class_map :=
  match stylesheet with
  | Some rules => fold_left (visit_rule (basename css_file)) rules (h, [])
  | None => (h, [])
  end.

(** Body of [for class_name, data in file_class_map.items()] in [main]. *)
Definition merge_class (st : heap * class_map) (e : string * data) : heap * class_map :=
  let '(h, cm) := st in
  let '(class_name, d) := e in
  match get class_name cm with
  | Some d0 =>
      (heap_update (declarations d0) (deref (declarations d) h) h,
       put class_name
         {| declarations := declarations d0;
            files := PyStr.set_update (files d0) (files d);
            count := count d0;
            selectors := PyStr.set_update (selectors d0) (selectors d) |} cm)
  | None => (h, put class_name d cm)
  end.

(** The [for css_file in args.css] loop of [main]. *)
Definition collect (css : list (string * option (list rule))) : heap * class_map :=
  fold_left (fun st '(css_file, stylesheet) =>
               let '(h, file_class_map) :=
                 extract_classes_from_css css_file stylesheet (fst st) in
               fold_left merge_class file_class_map (h, snd st))
            css ([], []).

(** The declaration set of a class once every file is processed. *)
Definition declarations_of (st : heap * class_map) (class_name : string)
  : option (list string) :=
  match get class_name (snd st) with
  | Some d => Some (deref (declarations d) (fst st))
  | None => None
  end.

(** *** Duplicate detection

    [md5] stands for [hashlib.md5(s.encode()).hexdigest()]. *)

Section Duplicates.
Variable md5 : string -> string.

Definition hash_declarations (declarations : list string) : string :=
  md5 (PyStr.join (PyStr.sorted declarations)).

(** [hash_to_classes[hash_value].append(class_name)] *)
Fixpoint append_to (hash_value class_name : string) (d : list (string * list string))
  : list (string * list string) :=
  match d with
  | [] => [(hash_value, [class_name])]
  | (k, l) :: d' =>
      if String.eqb k hash_value then (k, (l ++ [class_name])%list) :: d'
      else (k, l) :: append_to hash_value class_name d'
  end.

(** [find_duplicate_rules]; of a record only [data['declarations']] is
    read, so the map pairs a class name with its declarations. *)
Definition find_duplicate_rules (class_map : list (string * list string))
  : list (string * list string) :=
  let hash_to_classes :=
    fold_left (fun acc '(class_name, declarations) =>
                 append_to (hash_declarations declarations) class_name acc)
              class_map [] in
  filter (fun '(_, classes) => 1 <? length classes) hash_to_classes.

(** Two classes are reported in one duplicate group. *)
Definition same_group (class_map : list (string * list string)) (a b : string) : bool :=
  existsb (fun '(_, classes) => PyStr.mem a classes && PyStr.mem b classes)
          (find_duplicate_rules class_map).
End Duplicates.

End Audit.
(** ** Concrete inputs used by the examples *)

Module Fixtures.
Import Regex Rename Engine.

(** A text between double quotes. *)
Definition quoted (s : string) : string :=
  String dquote (s ++ String dquote EmptyString).

(** A text as the report highlights it. *)
Definition marked (s : string) : string := ANSI_YELLOW ++ s ++ ANSI_RESET.

(** [--map] with the single entry btn: button. *)
Definition args_with (roots : list string) (dry_run all_yes no_backup : bool)
  : arguments :=
  {| roots := roots; map := Some [("btn", "button")]; pairs := [];
     dry_run := dry_run; all_yes := all_yes; no_backup := no_backup |}.

Definition args_all_yes : arguments := args_with ["a.js"] false true true.
Definition args_interactive : arguments := args_with ["src"] false false true.
Definition args_dry_run : arguments := args_with ["src"] true false true.
Definition args_real_run : arguments := args_with ["src"] false true true.

(** A mapping file that holds nothing but a comment entry. *)
Definition args_comment_only : arguments :=
  {| roots := ["src"]; map := Some [("/* buttons */", "phase 1")]; pairs := [];
     dry_run := false; all_yes := false; no_backup := false |}.

(** Neither a mapping file nor a pair. *)
Definition args_no_mapping : arguments :=
  {| roots := ["src"]; map := None; pairs := [];
     dry_run := false; all_yes := false; no_backup := false |}.

(** One call that adds the class btn. *)
Definition add_btn (target : string) : string :=
  target ++ ".classList.add(" ++ quoted "btn" ++ ");".

Definition add_button (target : string) : string :=
  target ++ ".classList.add(" ++ quoted "button" ++ ");".

Definition add_marked (target : string) : string :=
  target ++ ".classList.add(" ++ quoted (marked "btn") ++ ");".

Definition three_calls : string := add_btn "a" ++ add_btn "b" ++ add_btn "c".

Definition one_file : disk := [("src/a.js", Text (add_btn "a"))].

Definition two_files : disk :=
  [("src/a.js", Text (add_btn "a")); ("src/b.js", Text (add_btn "b"))].

Definition start (ks : list ascii) (d : disk) : world :=
  {| keys := ks; files := d; out := [] |}.

End Fixtures.
(** ** Vocabulary for the statements about the engine *)

Module Spec.
Import Regex Rename Engine.

(** The numbers of the capturing groups of an expression. *)
Fixpoint group_numbers (r : re) : list nat :=
  match r with
  | Seq r1 r2 | Alt r1 r2 => (group_numbers r1 ++ group_numbers r2)%list
  | Opt r1 => group_numbers r1
  | Group n r1 => n :: group_numbers r1
  | _ => []
  end.

(** Every way through the expression closes a capturing group. *)
Fixpoint closes (r : re) : bool :=
  match r with
  | Seq r1 r2 => closes r1 || closes r2
  | Alt r1 r2 => closes r1 && closes r2
  | Group _ _ => true
  | _ => false
  end.

(** [lastindex] is at most 2 and, when set, names a recorded group. *)
Definition sound (st : mstate) : Prop :=
  lastindex st <= 2
  /\ (lastindex st <> 0 -> lookup_group (lastindex st) (caps st) <> None).

(** No skip-file answer among the events. *)
Definition no_skip (evs : list event) : Prop := ~ In (Echo "s") evs.

(** No question among the events. *)
Definition no_prompt (evs : list event) : Prop :=
  forall old_class new_class, ~ In (Asked old_class new_class) evs.

(** What the loops of [process_file] may do to the world: the disk is
    left alone and the trace grows by [evs]; an iteration that goes on
    has seen no skip-file answer; and when the decision is automatic no
    key is read and no question is asked. *)
Record loop_effect (args : arguments) (st : loop_state) (w : world)
       (fl : flow) (w' : world) (evs : list event) : Prop := {
  le_files : files w' = files w;
  le_out : out w' = (out w ++ evs)%list;
  le_next : forall st', fl = Next st' -> no_skip evs;
  le_auto : all_yes args || global_yes st || dry_run args = true ->
            keys w' = keys w /\ no_prompt evs;
  le_yes : forall st', fl = Next st' -> global_yes st = true ->
           global_yes st' = true;
  le_declined : all_yes args = false -> global_yes st = false ->
                dry_run args = true -> fl = Next st }.

(** The keys to come give the answers [ans] in turn, invalid keys being
    passed over, and leave the keys that are returned. *)
Fixpoint answered (ks : list ascii) (ans : list ascii) : option (list ascii) :=
  match ans with
  | [] => Some ks
  | a :: ans' =>
      match await_key ks with
      | Some (k, ks') => if Ascii.eqb k a then answered ks' ans' else None
      | None => None
      end
  end.


(** Some answer accepted an occurrence. *)
Definition accepted (ans : list ascii) : bool := existsb (Ascii.eqb "y") ans.


(** An event of reading: a file read, or the notice that one is skipped. *)
Definition reading (e : event) : Prop :=
  match e with
  | Read _ | Skipping _ => True
  | _ => False
  end.

Definition no_mappings : string :=
  "No mappings supplied.  Use --map or OLD:NEW pairs.".

(** The order of [sorted] on strings. *)
Definition leq (a b : string) : Prop := String.leb a b = true.

(** The classes filed under a hash, none when the hash is not a key. *)
Fixpoint bucket (k : string) (d : list (string * list string)) : list string :=
  match d with
  | [] => []
  | (k', l) :: d' => if String.eqb k' k then l else bucket k d'
  end.

(** The map from hashes to class names that the first loop builds. *)
Definition hash_to_classes (md5 : string -> string)
           (class_map acc : list (string * list string)) :=
  fold_left (fun acc '(class_name, declarations) =>
               Audit.append_to (Audit.hash_declarations md5 declarations) class_name acc)
            class_map acc.

Definition hashed_to (md5 : string -> string) (k : string)
           (class_map : list (string * list string))
  : list string :=
  List.map fst
    (filter (fun '(_, declarations) =>
               String.eqb (Audit.hash_declarations md5 declarations) k) class_map).

End Spec.

(** ** Vocabulary for the further properties *)

Module Laws.
Import Regex Rename Engine Spec.

(** A declaration whose property is in the HIGH tier. *)
Definition high_risk (decl : string) : bool :=
  Risk.tier_test Risk.HIGH_RISK_PROPS (Risk.prop_of decl).

(** [mapping.get(k)] *)
Fixpoint assoc (k : string) (d : list (string * string)) : option string :=
  match d with
  | [] => None
  | (k', v) :: d' => if String.eqb k' k then Some v else assoc k d'
  end.

(** A string without the character [c]. *)
Fixpoint lacks (c : ascii) (s : string) : Prop :=
  match s with
  | EmptyString => True
  | String a r => a <> c /\ lacks c r
  end.

(** The text of the invalid-pair message. *)
Definition invalid_pair (p : string) : string :=
  "Invalid mapping pair '" ++ p ++ "' (should be OLD:NEW)".

(** The cursor stands at offset [pos c] of [content]. *)
Definition at_offset (content : string) (c : cursor) : Prop :=
  exists pre, content = pre ++ rest c /\ String.length pre = pos c.

(** Every character of [s] is in the class. *)
Fixpoint all_in (cl : cclass) (s : string) : Prop :=
  match s with
  | EmptyString => True
  | String a r => cclass_matches cl a = true /\ all_in cl r
  end.

(** Group [g], wherever the expression has it, encloses the literal [name]. *)
Fixpoint names_group (g : nat) (name : string) (r : re) : Prop :=
  match r with
  | Seq r1 r2 | Alt r1 r2 => names_group g name r1 /\ names_group g name r2
  | Opt r1 => names_group g name r1
  | Group n r1 => (n = g -> r1 = Lit name) /\ names_group g name r1
  | _ => True
  end.

(** The capturing groups stand in sequence: none inside an alternative,
    an optional part or another group. *)
Fixpoint steady (r : re) : Prop :=
  match r with
  | Seq r1 r2 => steady r1 /\ steady r2
  | Alt r1 r2 => group_numbers r1 = [] /\ group_numbers r2 = []
  | Opt r1 | Group _ r1 => group_numbers r1 = []
  | _ => True
  end.

(** [lastindex] after a match of a steady expression entered with [i]. *)
Fixpoint li_after (r : re) (i : nat) : nat :=
  match r with
  | Seq r1 r2 => li_after r2 (li_after r1 i)
  | Group n _ => n
  | _ => i
  end.

(** Every recorded span of group [g] holds [name]. *)
Definition named_spans (content : string) (g : nat) (name : string) (st : mstate)
  : Prop :=
  forall s e, In (g, (s, e)) (caps st) ->
              PyStr.slice s e content = name
              /\ e = s + String.length name
              /\ e <= String.length content.

End Laws.

(** ** Vocabulary for the properties of rule extraction *)

Module AuditLaws.
Import Audit.

Definition state := (heap * class_map)%type.

(** The record of the class holds the declaration. *)
Definition knows (st : state) (class_name decl : string) : Prop :=
  exists d, get class_name (snd st) = Some d
            /\ In decl (deref (declarations d) (fst st)).

(** The record of the class names the file, and the selector. *)
Definition knows_file (st : state) (class_name file : string) : Prop :=
  exists d, get class_name (snd st) = Some d /\ In file (files d).

Definition knows_selector (st : state) (class_name sel : string) : Prop :=
  exists d, get class_name (snd st) = Some d /\ In sel (selectors d).

(** Every record refers to a set that exists. *)
Definition valid (st : state) : Prop :=
  forall n d, In (n, d) (snd st) -> declarations d < length (fst st).

(** Nothing is lost from [st] to [st']: sets, records and what the
    records list only grow, and a record keeps its set. *)
Definition grows (st st' : state) : Prop :=
  length (fst st) <= length (fst st')
  /\ (forall l x, In x (deref l (fst st)) -> In x (deref l (fst st')))
  /\ (forall n d, get n (snd st) = Some d ->
                  exists d', get n (snd st') = Some d'
                             /\ declarations d' = declarations d
                             /\ incl (files d) (files d')
                             /\ incl (selectors d) (selectors d')).

(** What a rule makes known about the classes of its selectors. *)
Definition rule_known (source_file : string) (r : rule) (st : state) : Prop :=
  match r with
  | STYLE_RULE selectorList style =>
      forall sel n, In sel selectorList -> In n (class_matches sel) ->
                    (forall x, In x (serialize style) -> knows st n x)
                    /\ knows_file st n source_file
                    /\ knows_selector st n sel
  | OTHER_RULE => True
  end.

(** What a file makes known: all that its style rules do. *)
Definition file_known (f : string * option (list rule)) (st : state) : Prop :=
  match snd f with
  | Some rules => forall r, In r rules -> rule_known (basename (fst f)) r st
  | None => True
  end.

(** One turn of the loop over the CSS files in [main]. *)
Definition collect_file (st : state) (f : string * option (list rule)) : state :=
  let '(css_file, stylesheet) := f in
  let '(h, file_class_map) := extract_classes_from_css css_file stylesheet (fst st) in
  fold_left merge_class file_class_map (h, snd st).

End AuditLaws.

(** ** Vocabulary for the properties of the splice *)

Module SpliceLaws.
Import Rename Engine.

Definition start_of (c : change) : nat := fst (fst c).

(** The content from offset [from] on, with each change of the ascending
    list [l] made in its place. *)
Fixpoint rebuild (from : nat) (l : list change) (content : string) : string :=
  match l with
  | [] => PyStr.drop from content
  | (s, e, replacement) :: l' =>
      PyStr.slice from s content ++ replacement ++ rebuild e l' content
  end.

(** The spans of [l] are not empty, follow one another from offset [from]
    on without overlap, and end within [len]. *)
Fixpoint ascending (from : nat) (l : list change) (len : nat) : Prop :=
  match l with
  | [] => from <= len
  | (s, e, _) :: l' => from <= s /\ s < e /\ ascending e l' len
  end.

(** Strictly falling start offsets. *)
Definition falling (l : list change) : Prop :=
  StronglySorted (fun a b => start_of b < start_of a) l.

(** The decision is never left to the operator. *)
Definition automatic (args : arguments) : Prop :=
  all_yes args || dry_run args = true.

(** The edit that accepting a reference queues. *)
Definition edit_of (new_class : string) (r : reference) : change :=
  (class_start r, class_end r, new_class).

(** All the edits of a file when every occurrence is accepted, in the
    order of the mapping, the patterns and the matches. *)
Definition queued (content : string) (mapping : list (string * string)) : list change :=
  flat_map (fun '(old_class, new_class) =>
              List.map (edit_of new_class) (find_class_references content old_class))
           mapping.

(** A path that [main] may process for the given roots: a root itself as
    [pathlib] spells it, or a path below it whose name matches one of the
    globs. *)
Definition target (rs : list string) (q : string) : Prop :=
  exists root, In root rs
               /\ (q = Path root
                   \/ (below (Path root) q = true
                       /\ exists g, In g JS_FILE_GLOB /\ glob_match g (name_of q) = true)).

(** A path spelled in the one way the disk knows: relative to the working
    directory, each component the name of an entry. *)
Definition canonical (p : string) : bool :=
  negb (PyStr.startswith p "/") && forallb is_name (split_on "/" p).

(** A root that names the working directory or a canonical path. *)
Definition plain_root (root : string) : Prop :=
  Path root = "." \/ canonical (Path root) = true.

(** A text with line ends of two characters, carriage return and line
    feed, around one call that adds the class btn. *)
Definition dos_text : string :=
  "x" ++ String carriage_return (String newline
    (Fixtures.add_btn "el" ++ String carriage_return (String newline "y"))).

End SpliceLaws.

(** ** Component attribution ([css_audit.py]) *)

Module Component.

(** [s.lower()] *)
Fixpoint str_lower (s : string) : string :=
  match s with
  | EmptyString => EmptyString
  | String c r => String (Engine.lower c) (str_lower r)
  end.

(** The title case of one character.  Of the code points below 256 only
    two have a title case at or above 256, the letters 255 and 181; they
    are left as they are.  Class names are tokens of letters, digits,
    underscores and hyphens and hold neither. *)
Definition title (c : ascii) : string :=
  let n := nat_of_ascii c in
  if ((97 <=? n) && (n <=? 122)) || ((224 <=? n) && (n <=? 246))
     || ((248 <=? n) && (n <=? 254))
  then String (ascii_of_nat (n - 32)) EmptyString
  else if n =? 223 then "Ss"
  else String c EmptyString.

(** [s.capitalize()] *)
Definition capitalize (s : string) : string :=
  match s with
  | EmptyString => EmptyString
  | String c r => title c ++ str_lower r
  end.

(** [sub in s] *)
Fixpoint contains (sub s : string) : bool :=
  prefix sub s
  || match s with
     | EmptyString => false
     | String _ r => contains sub r
     end.

(** [s.replace('-', ' ')] *)
Fixpoint dashes_to_spaces (s : string) : string :=
  match s with
  | EmptyString => EmptyString
  | String c r => String (if Ascii.eqb c "-" then " "%char else c) (dashes_to_spaces r)
  end.

(** [s.split()]: the maximal runs of characters that are not white space.
    [word] is the run being read, in reverse. *)
Fixpoint split_from (word : list ascii) (s : string) : list string :=
  let flush rest := match word with
                    | [] => rest
                    | _ => string_of_list_ascii (rev word) :: rest
                    end in
  match s with
  | EmptyString => flush []
  | String c r =>
      if PyStr.isspace c then flush (split_from [] r)
      else split_from (c :: word) r
  end.

Definition split (s : string) : list string := split_from [] s.

Definition COMPONENT_MAP : list (string * string) :=
  [
    ("modal", "Modal"); ("simple-modal", "SimpleModal");
    ("form-modal", "FormModal"); ("app-modal", "AppModal");
    ("wide-modal", "WideModal"); ("narrow-modal", "NarrowModal");
    ("error-modal", "ErrorModal"); ("message-modal", "MessageModal");
    ("account-modal", "AccountModal"); ("accounts-modal", "AccountsModal");
    ("project-modal", "ProjectModal"); ("projects-modal", "ProjectsModal");
    ("user-modal", "UserModal"); ("users-modal", "UsersModal");
    ("login-modal", "LoginModal"); ("register-modal", "RegisterModal");
    ("text-prompt-modal", "TextPromptModal"); ("yesno-modal", "YesNoModal");
    ("jobs-modal", "JobsModal"); ("documents-modal", "DocumentsModal");
    ("history-modal", "HistoryModal"); ("document-item-history-modal", "DocumentItemHistoryModal");
    ("password-reset-modal", "PasswordResetModal"); ("corpus-filter-modal", "CorpusFilterModal");
    ("choose-content-modal", "ChooseContentForAIModal"); ("import-wizard-modal", "QuestionImportModal");
    ("duplicate-permissions-modal", "DuplicatePermissionsModal"); ("add-corpus-permission-modal", "AddCorpusPermissionModal");
    ("add-docchain-permission-modal", "AddDocchainPermissionModal"); ("btn", "Button");
    ("btn-primary", "PrimaryButton"); ("btn-secondary", "SecondaryButton");
    ("btn-danger", "DangerButton"); ("btn-negative", "NegativeButton");
    ("btn-back", "BackButton"); ("btn-cancel", "CancelButton");
    ("btn-sm", "SmallButton"); ("btn-label", "ButtonLabel");
    ("button-group", "ButtonGroup"); ("toggle-button", "ToggleButton");
    ("toggle-button-group", "ToggleButtonGroup"); ("form-group", "FormGroup");
    ("doc-input", "DocInput"); ("async-form", "AsyncForm");
    ("filter-select", "FilterSelect"); ("checkbox-container", "CheckboxContainer");
    ("checkbox-item", "CheckboxItem"); ("checkbox-grid", "CheckboxGrid");
    ("mapping-field-select", "MappingFieldSelect"); ("mapping-field-label", "MappingFieldLabel");
    ("mapping-field-group", "MappingFieldGroup"); ("modal-header", "ModalHeader");
    ("modal-content", "ModalContent"); ("modal-footer", "ModalFooter");
    ("modal-close", "ModalClose"); ("modal-overlay", "ModalOverlay");
    ("overlay", "Overlay"); ("status-indicator", "StatusIndicator");
    ("status-container", "StatusContainer"); ("status-icon", "StatusIcon");
    ("loading-indicator", "LoadingIndicator"); ("loading-placeholder", "LoadingPlaceholder");
    ("error-placeholder", "ErrorPlaceholder"); ("progress-bar", "ProgressBar");
    ("progress-container", "ProgressContainer"); ("progress-stats", "ProgressStats");
    ("manual-loading-overlay", "ManualLoadingOverlay"); ("fas", "FontAwesomeIcon");
    ("fa-spinner", "LoadingSpinner"); ("fa-spin", "SpinAnimation");
    ("info-icon", "InfoIcon"); ("warning-icon", "WarningIcon");
    ("success-icon", "SuccessIcon"); ("dropdown", "Dropdown");
    ("dropdown-header", "DropdownHeader"); ("dropdown-content", "DropdownContent");
    ("dropdown-footer", "DropdownFooter"); ("jobs-dropdown", "JobsDropdown");
    ("notifications-dropdown", "NotificationsDropdown"); ("stage-form", "StageForm");
    ("stage-form-rfp-question-import", "StageFormRfpQuestionImport"); ("stage-form-rfp-answer-questions", "StageFormRfpAnswerQuestions");
    ("stage-form-rfp-initial-review", "StageFormAnalysisLMInitialReview"); ("stage-title", "StageTitle");
    ("stage-description", "StageDescription"); ("stage-number", "StageNumber");
    ("stage-separator", "StageSeparator"); ("questions-grid", "QuestionsGrid");
    ("ag-overlay-loading-center", "AgGridLoadingOverlay"); ("ag-overlay-no-rows-center", "AgGridNoRowsOverlay");
    ("topic-tabs", "TopicTabs"); ("tab-loading-indicator", "TabLoadingIndicator");
    ("worksheet-tabs-container", "WorksheetTabsContainer"); ("control-pane", "ControlPane");
    ("filter-pane", "FilterPane"); ("sub-pane", "SubPane");
    ("doc-container", "DocumentContainer"); ("doc-stage-breadcrumb", "DocumentStageBreadcrumb");
    ("doc-stage-content-wrapper", "DocumentStageContentWrapper"); ("doc-title", "DocumentTitle");
    ("doc-header", "DocumentHeader"); ("doc-footer", "DocumentFooter");
    ("doc-main-content", "DocumentMainContent"); ("breadcrumb-label", "BreadcrumbLabel");
    ("import-step", "ImportStep"); ("import-step-select-file", "ImportStepSelectFile");
    ("import-step-map-columns", "ImportStepMapColumns"); ("import-step-preview", "ImportStepPreview");
    ("import-step-results", "ImportStepResults"); ("import-step-confirm", "ImportStepConfirm");
    ("import-grid-container", "ImportGridContainer"); ("import-wizard-content", "ImportWizardContent");
    ("import-status-container", "ImportStatusContainer"); ("import-progress-section", "ImportProgressSection");
    ("import-note", "ImportNote"); ("drag-drop-area", "DragDropArea");
    ("mapping-container", "MappingContainer"); ("mapping-section", "MappingSection");
    ("mapping-instructions", "MappingInstructions"); ("mapping-form", "MappingForm");
    ("mapping-item", "MappingItem"); ("mappings-list", "MappingsList");
    ("include-exclude-toggle", "IncludeExcludeToggle"); ("worksheet-item", "WorksheetItem");
    ("worksheet-list", "WorksheetList"); ("worksheet-header", "WorksheetHeader");
    ("worksheet-result-item", "WorksheetResultItem"); ("worksheet-results-list", "WorksheetResultsList");
    ("worksheet-results-section", "WorksheetResultsSection"); ("preview-container", "PreviewContainer");
    ("preview-section", "PreviewSection"); ("preview-note", "PreviewNote");
    ("preview-summary-section", "PreviewSummarySection"); ("preview-summary-label", "PreviewSummaryLabel");
    ("preview-summary-info", "PreviewSummaryInfo"); ("no-data-message", "NoDataMessage");
    ("no-sheets-message", "NoSheetsMessage"); ("summary-section", "SummarySection");
    ("summary-details", "SummaryDetails"); ("summary-message", "SummaryMessage");
    ("results-summary-panel", "ResultsSummaryPanel"); ("stat-item", "StatItem");
    ("stat-label", "StatLabel"); ("stat-value", "StatValue");
    ("stats-container", "StatsContainer"); ("success-stat", "SuccessStat");
    ("warning-stat", "WarningStat"); ("failure-stat", "FailureStat");
    ("percentage-stat", "PercentageStat"); ("selectable-list", "SelectableList");
    ("selectable-list-container", "SelectableListContainer"); ("selectable-list-item", "SelectableListItem");
    ("analysis-lm-results", "AnalysisLMResults"); ("custom-tooltip", "CustomTooltip");
    ("cell-tooltip", "CellTooltip"); ("users-table", "UsersTable");
    ("jobs-table", "JobsTable"); ("accounts-table", "AccountsTable");
    ("projects-table", "ProjectsTable"); ("files-table", "FilesTable");
    ("top-bar", "TopBar")
  ].

(** The first entry of a table whose key passes the test. *)
Fixpoint first_entry (test : string -> bool) (table : list (string * string))
  : option string :=
  match table with
  | [] => None
  | (key, component) :: table' =>
      if test key then Some component else first_entry test table'
  end.

Definition modal_types : list string :=
  [ "account"; "accounts"; "user"; "users"; "project"; "projects";
    "document"; "documents"; "error"; "message"; "login"; "register";
    "password"; "corpus"; "choose-content"; "text-prompt"; "yesno";
    "import"; "jobs"; "history" ].

(** The body of the loop over [modal_types] once a type is found. *)
Definition modal_name (modal_type : string) : string :=
  let modal_class := capitalize modal_type ++ "Modal" in
  if String.eqb modal_type "choose-content" then "ChooseContentForAIModal"
  else if String.eqb modal_type "accounts" then "AccountsModal"
  else if String.eqb modal_type "users" then "UsersModal"
  else if String.eqb modal_type "projects" then "ProjectsModal"
  else if String.eqb modal_type "documents" then "DocumentsModal"
  else if String.eqb modal_type "yesno" then "YesNoModal"
  else if String.eqb modal_type "text-prompt" then "TextPromptModal"
  else if String.eqb modal_type "password" then "PasswordResetModal"
  else modal_class.

(** The branch for names that contain modal; [l] is the name in lower case. *)
Definition modal_stage (l : string) : string :=
  match find (fun modal_type => contains modal_type l) modal_types with
  | Some modal_type => modal_name modal_type
  | None => "Modal"
  end.

Definition import_step_stage (l : string) : string :=
  if contains "select-file" l then "ImportStepSelectFile"
  else if contains "map-columns" l then "ImportStepMapColumns"
  else if contains "preview" l then "ImportStepPreview"
  else if contains "confirm" l then "ImportStepConfirm"
  else if contains "results" l then "ImportStepResults"
  else "ImportStep".

Definition stage_form_stage (l : string) : string :=
  if contains "rfp-answer-questions" l then "StageFormRfpAnswerQuestions"
  else if contains "rfp-initial-review" l then "StageFormAnalysisLMInitialReview"
  else if contains "rfp-question-import" l then "StageFormRfpQuestionImport"
  else "StageForm".

Definition button_stage (class_name : string) : string :=
  if String.eqb class_name "btn-primary" then "PrimaryButton"
  else if String.eqb class_name "btn-secondary" then "SecondaryButton"
  else if String.eqb class_name "btn-danger" then "DangerButton"
  else if String.eqb class_name "btn-negative" then "NegativeButton"
  else if String.eqb class_name "btn-label" then "ButtonLabel"
  else "Button".

Definition patterns : list (string * string) :=
  [ ("grid", "Grid"); ("pane", "Pane"); ("tab", "Tab"); ("form", "Form");
    ("stat", "Stat"); ("indicator", "Indicator"); ("dropdown", "Dropdown");
    ("list", "List"); ("section", "Section"); ("container", "Container");
    ("item", "Item"); ("header", "Header"); ("footer", "Footer");
    ("panel", "Panel"); ("label", "Label"); ("message", "Message");
    ("wizard", "Wizard"); ("loading", "Loading"); ("progress", "Progress");
    ("overlay", "Overlay"); ("doc", "Document"); ("status", "Status") ].

(** The body of the loop over [patterns] once a pattern is found. *)
Definition pattern_name (class_name component_type : string) : string :=
  let words := split (dashes_to_spaces class_name) in
  if 1 <? length words then PyStr.join (List.map capitalize words)
  else capitalize class_name ++ component_type.

Definition file_patterns : list (string * string) :=
  [ ("modals/", "Modal"); ("stages/", "Stage");
    ("components/docitemimport/", "Import"); ("framework/", "Framework");
    ("top-bar/", "TopBar"); ("tabs/", "Tab") ].

(** A loop over the selectors with a loop over a table inside: the first
    selector, in iteration order, for which some key passes. *)
Fixpoint first_selector (test : string -> string -> bool)
         (table : list (string * string)) (selectors : list string) : option string :=
  match selectors with
  | [] => None
  | selector :: selectors' =>
      match first_entry (fun key => test key selector) table with
      | Some component => Some component
      | None => first_selector test table selectors'
      end
  end.

(** [guess_component(class_name, selectors)]; [selectors] lists the set
    in iteration order. *)
Definition guess_component (class_name : string) (selectors : list string) : string :=
  let l := str_lower class_name in
  match first_entry (fun key => String.eqb key l) COMPONENT_MAP with
  | Some component => component
  | None =>
      if contains "modal" l then modal_stage l
      else if contains "import-step" l then import_step_stage l
      else if contains "stage-form" l then stage_form_stage l
      else if PyStr.startswith class_name "btn" then button_stage class_name
      else
        match first_entry (fun key => contains key l) COMPONENT_MAP with
        | Some component => component
        | None =>
            match first_entry (fun pattern => contains pattern l) patterns with
            | Some component_type => pattern_name class_name component_type
            | None =>
                match first_selector (fun key selector => contains key (str_lower selector))
                                     COMPONENT_MAP selectors with
                | Some component => component
                | None =>
                    match first_selector (fun file_pattern selector =>
                                            contains file_pattern selector)
                                         file_patterns selectors with
                    | Some component_type => component_type
                    | None => "Unknown"
                    end
                end
            end
        end
  end.

End Component.

(** ** Vocabulary for the properties of the dialogue *)

Module DialogueLaws.
Import Engine.

(** The operator accepted nothing: no y and no a among the echoed keys. *)
Definition no_consent (evs : list event) : Prop :=
  ~ In (Echo "y") evs /\ ~ In (Echo "a") evs.

Definition is_question (e : event) : bool :=
  match e with Asked _ _ => true | _ => false end.

(** The number of questions put to the operator. *)
Definition questions (evs : list event) : nat := length (filter is_question evs).

End DialogueLaws.

(** ** Vocabulary for the origin of what the records hold *)

Module OriginLaws.
Import Audit AuditLaws.

Definition sheets := list (string * option (list rule)).

(** The text is a declaration of some style rule of some parsed file. *)
Definition declared (css : sheets) (x : string) : Prop :=
  exists css_file rules selectorList style name value,
    In (css_file, Some rules) css
    /\ In (STYLE_RULE selectorList style) rules
    /\ In (Property name value) style
    /\ x = (name ++ ": " ++ value)%string.

(** The selector belongs to a style rule of a parsed file with this base
    name, and the class is one of its tokens. *)
Definition mentions (css : sheets) (class_name file sel : string) : Prop :=
  exists css_file rules selectorList style,
    In (css_file, Some rules) css
    /\ In (STYLE_RULE selectorList style) rules
    /\ In sel selectorList
    /\ In class_name (class_matches sel)
    /\ file = basename css_file.

(** What a record may hold, given where texts and mentions come from. *)
Definition entry_ok (M : string -> string -> string -> Prop) (n : string) (d : data)
  : Prop :=
  (forall sel, In sel (selectors d) -> exists f, M n f sel)
  /\ (forall f, In f (files d) -> exists sel, M n f sel)
  /\ (exists f sel, M n f sel)
  /\ count d = 0.

Definition entries_ok (M : string -> string -> string -> Prop) (cm : class_map) : Prop :=
  forall n d, In (n, d) cm -> entry_ok M n d.

Definition heap_ok (U : string -> Prop) (h : heap) : Prop :=
  forall l x, In x (deref l h) -> U x.

Definition origin_ok (U : string -> Prop) (M : string -> string -> string -> Prop)
           (st : state) : Prop :=
  heap_ok U (fst st) /\ entries_ok M (snd st).

(** The two rules of the shared-set example, and the record they give
    class a. *)
Definition two_rules : sheets :=
  [("css/site.css",
    Some [ STYLE_RULE [".a.b"] [Property "color" "red"];
           STYLE_RULE [".a"] [Property "margin" "0"] ])].

Definition record_a : data :=
  {| declarations := 0; files := ["site.css"]; count := 0;
     selectors := [".a.b"; ".a"] |}.

End OriginLaws.
(** ** Properties of the risk classifier *)

Section RiskFacts.
Import Risk.

Lemma prefix_trans (q p s : string) :
  prefix q p = true -> prefix p s = true -> prefix q s = true.
Proof.
  revert p s; induction q as [|c q IH]; intros p s Hqp Hps.
  - destruct s; reflexivity.
  - destruct p as [|d p]; simpl in Hqp; [discriminate Hqp|].
    destruct (ascii_dec c d) as [->|]; [|discriminate Hqp].
    destruct s as [|e s]; simpl in Hps; [discriminate Hps|].
    simpl. destruct (ascii_dec d e); [eauto | discriminate Hps].
Qed.

Lemma med_member_is_high_variant (prop : string) :
  PyStr.mem prop MED_RISK_PROPS = true ->
  dash_variant ["margin"; "padding"] prop = true.
Proof.
  unfold PyStr.mem, MED_RISK_PROPS; cbn [existsb].
  intros H; repeat rewrite orb_true_iff in H.
  repeat (destruct H as [H | H];
          [apply String.eqb_eq in H; subst prop; reflexivity|]).
  discriminate H.
Qed.

Lemma med_variant_is_high_variant (prop : string) :
  dash_variant MED_RISK_PROPS prop = true ->
  dash_variant ["margin"; "padding"] prop = true.
Proof.
  unfold dash_variant, MED_RISK_PROPS, PyStr.startswith.
  cbn [existsb append].
  intros H; repeat rewrite orb_true_iff in H.
  repeat (destruct H as [H | H];
          [ first
              [ apply (prefix_trans "margin-") in H; [|reflexivity];
                rewrite H; reflexivity
              | apply (prefix_trans "padding-") in H; [|reflexivity];
                rewrite H; rewrite orb_true_r; reflexivity ] |]).
  discriminate H.
Qed.

Lemma med_test_implies_narrow (prop : string) :
  tier_test MED_RISK_PROPS prop = true ->
  dash_variant ["margin"; "padding"] prop = true.
Proof.
  unfold tier_test; rewrite orb_true_iff; intros [H | H].
  - now apply med_member_is_high_variant.
  - now apply med_variant_is_high_variant.
Qed.

Lemma narrow_implies_high_test (prop : string) :
  dash_variant ["margin"; "padding"] prop = true ->
  tier_test HIGH_RISK_PROPS prop = true.
Proof.
  unfold tier_test, dash_variant, HIGH_RISK_PROPS; cbn [existsb append].
  intros H; rewrite !orb_true_iff in H.
  destruct H as [H | [H | H]]; [| | discriminate];
    rewrite H; rewrite ?orb_true_r; reflexivity.
Qed.

(** C10. The classifier answers HIGH or LOW for every declaration list,
    never MEDIUM: a property that passes the MEDIUM test (a member of
    [MED_RISK_PROPS] or a dash-suffixed variant of one) is a dash-suffixed
    variant of margin or padding, hence passes the HIGH test, which is
    made first for each declaration. *)
Theorem classify_risk_never_medium (declarations : list string) :
  (classify_risk declarations = HIGH \/ classify_risk declarations = LOW)
  /\ (forall prop,
        implb (tier_test MED_RISK_PROPS prop)
              (dash_variant ["margin"; "padding"] prop
               && tier_test HIGH_RISK_PROPS prop) = true).
Proof.
  assert (Himp : forall prop,
             implb (tier_test MED_RISK_PROPS prop)
                   (dash_variant ["margin"; "padding"] prop
                    && tier_test HIGH_RISK_PROPS prop) = true).
  { intros prop.
    destruct (tier_test MED_RISK_PROPS prop) eqn:Hmed; [|reflexivity].
    pose proof (med_test_implies_narrow prop Hmed) as Hn.
    cbn [implb]. rewrite Hn, (narrow_implies_high_test prop Hn). reflexivity. }
  split; [|exact Himp].
  induction declarations as [|decl rest IH]; [right; reflexivity|].
  cbn [classify_risk].
  destruct (tier_test HIGH_RISK_PROPS (prop_of decl)) eqn:Hhigh; [left; reflexivity|].
  destruct (tier_test MED_RISK_PROPS (prop_of decl)) eqn:Hmed; [|exact IH].
  specialize (Himp (prop_of decl)).
  rewrite Hmed, Hhigh, andb_false_r in Himp. discriminate Himp.
Qed.

(** C1. What the classifier answers on the three declaration sets of the
    claim: LOW for color alone, HIGH (not MEDIUM) for margin-top alone,
    HIGH for display with color in either iteration order. *)
Theorem classify_risk_examples :
  classify_risk ["color: red"] = LOW
  /\ classify_risk ["margin-top: 4px"] = HIGH
  /\ classify_risk ["display: flex"; "color: red"] = HIGH
  /\ classify_risk ["color: red"; "display: flex"] = HIGH.
Proof. repeat split; reflexivity. Qed.

End RiskFacts.

(** ** Properties of reference extraction *)

Section ReferenceFacts.
Import Regex Rename Engine.

Import Fixtures Spec.

Lemma star_some {A} cl (k : cursor -> option A) x s :
  forall p pv, star cl p pv s k = Some x -> exists c, k c = Some x.
Proof.
  induction s as [|a t IH]; intros p pv H; cbn [star] in H.
  - eauto.
  - destruct (cclass_matches cl a); [|eauto].
    unfold orelse in H.
    destruct (star cl (S p) (Some a) t k) eqn:E.
    + injection H as ->. eauto.
    + eauto.
Qed.

(** A successful run of the matcher reaches its continuation in a sound
    state, with [lastindex] set if the expression closes a group. *)
Lemma run_sound {A} (r : re) :
  (forall n, In n (group_numbers r) -> 1 <= n <= 2) ->
  forall c st (k : cursor -> mstate -> option A) x,
    run r c st k = Some x -> sound st ->
    exists c' st',
      k c' st' = Some x /\ sound st'
      /\ (lastindex st <> 0 \/ closes r = true -> lastindex st' <> 0).
Proof.
  induction r as [s|cl|cl|cl|r1 IH1 r2 IH2|r1 IH1 r2 IH2|r1 IH1|n r1 IH1|];
    intros G c st k x H S; cbn [run] in H; cbn [closes].
  - destruct (eat s c) as [c'|]; [|discriminate H].
    exists c', st. intuition discriminate.
  - destruct (step c) as [[a c']|]; [|discriminate H].
    destruct (cclass_matches cl a); [|discriminate H].
    exists c', st. intuition discriminate.
  - apply star_some in H. destruct H as [c' H].
    exists c', st. intuition discriminate.
  - destruct (step c) as [[a c']|]; [|discriminate H].
    destruct (cclass_matches cl a); [|discriminate H].
    apply star_some in H. destruct H as [c'' H].
    exists c'', st. intuition discriminate.
  - cbn [group_numbers] in G.
    apply IH1 in H; [|intros n I; apply G, in_or_app; auto | exact S].
    destruct H as (c1 & st1 & H & S1 & N1).
    apply IH2 in H; [|intros n I; apply G, in_or_app; auto | exact S1].
    destruct H as (c2 & st2 & H & S2 & N2).
    exists c2, st2. repeat split; [exact H | apply S2 | apply S2 |].
    intros [E | E]; [auto|].
    apply orb_true_iff in E. destruct E; auto.
  - cbn [group_numbers] in G. unfold orelse in H.
    destruct (run r1 c st k) eqn:E.
    + injection H as ->.
      apply IH1 in E; [|intros n I; apply G, in_or_app; auto | exact S].
      destruct E as (c1 & st1 & H & S1 & N1).
      exists c1, st1. repeat split; [exact H | apply S1 | apply S1 |].
      intros [F | F]; [auto|]. apply andb_true_iff in F. destruct F; auto.
    + apply IH2 in H; [|intros n I; apply G, in_or_app; auto | exact S].
      destruct H as (c1 & st1 & H & S1 & N1).
      exists c1, st1. repeat split; [exact H | apply S1 | apply S1 |].
      intros [F | F]; [auto|]. apply andb_true_iff in F. destruct F; auto.
  - cbn [group_numbers] in G. unfold orelse in H.
    destruct (run r1 c st k) eqn:E.
    + injection H as ->.
      apply IH1 in E; [|exact G | exact S].
      destruct E as (c1 & st1 & H & S1 & N1).
      exists c1, st1. repeat split; [exact H | apply S1 | apply S1 |].
      intros [F | F]; [auto | discriminate F].
    + exists c, st. intuition discriminate.
  - cbn [group_numbers] in G.
    assert (Hn : 1 <= n <= 2) by (apply G; left; reflexivity).
    apply IH1 in H; [|intros m I; apply G; right; exact I | exact S].
    destruct H as (c1 & st1 & H & S1 & N1).
    exists c1, (close_group n (pos c) (pos c1) st1).
    split; [exact H|]. split.
    + split; cbn; [lia|]. rewrite Nat.eqb_refl. discriminate.
    + intros _. cbn. lia.
  - destruct (at_boundary c); [|discriminate H].
    exists c, st. intuition discriminate.
Qed.

Lemma scan_matches (r : re) (m : rmatch) s :
  forall p pv resume,
    In m (scan r p pv s resume) -> exists c, match_at r c = Some m.
Proof.
  induction s as [|a t IH]; intros p pv resume H; cbn [scan] in H.
  - destruct (p <? resume); [destruct H|].
    destruct (match_at r _) eqn:E; [|destruct H].
    destruct H as [<- | []]. eauto.
  - apply in_app_or in H. destruct H as [H | H]; [|eapply IH; exact H].
    destruct (p <? resume); [destruct H|].
    destruct (match_at r _) eqn:E; [|destruct H].
    destruct H as [<- | []]. eauto.
Qed.

(** Every match of every pattern yields one reference: [lastindex] is
    never [None] and the class-name group has a span. *)
Lemma every_match_is_a_reference content class_name pattern mt m :
  In (pattern, mt) (patterns class_name) ->
  In m (finditer pattern content) ->
  exists s e,
    reference_of content mt m
    = [ {| class_start := s; class_end := e; kind := mt;
           context := PyStr.slice (m_start m) (m_end m) content |} ].
Proof.
  intros Hp Hm. apply scan_matches in Hm. destruct Hm as [c Hm].
  assert (G : (forall n, In n (group_numbers pattern) -> 1 <= n <= 2)
              /\ closes pattern = true).
  { unfold patterns in Hp. cbn [In] in Hp.
    repeat (destruct Hp as [Hp | Hp];
            [ injection Hp as <- <-; split; [cbn; intros n I; intuition lia | reflexivity] |]).
    destruct Hp. }
  destruct G as [G C].
  unfold match_at in Hm.
  apply (run_sound pattern G) in Hm;
    [|split; cbn; [lia | intros F; now destruct F]].
  destruct Hm as (c' & st & Hm & [L K] & N).
  injection Hm as <-. unfold reference_of. cbn [m_state m_start m_end].
  assert (Z : lastindex st <> 0) by (apply N; right; exact C).
  specialize (K Z).
  destruct (lastindex st) as [|[|[|li]]] eqn:E; [destruct (Z eq_refl) | | | lia].
  - cbn. destruct (lookup_group 1 (caps st)) as [[s e]|]; [eauto | destruct (K eq_refl)].
  - cbn. destruct (lookup_group 2 (caps st)) as [[s e]|]; [eauto | destruct (K eq_refl)].
Qed.

(** C3. For the class btn, the attribute value btn-primary yields no
    reference; the attribute value btn primary yields two references to
    the same span, one of the JSX-attribute category and one of the
    class-assignment category. *)
Theorem word_boundary_examples :
  find_class_references ("className=" ++ quoted "btn-primary") "btn" = []
  /\ find_class_references ("className=" ++ quoted "btn primary") "btn"
     = [ {| class_start := 11; class_end := 14; kind := JSX_attribute;
            context := "className=" ++ quoted "btn primary" |};
         {| class_start := 11; class_end := 14; kind := class_assignment;
            context := "className=" ++ quoted "btn primary" |} ].
Proof. split; vm_compute; reflexivity. Qed.

(** C2. On the text className="btn" two categories locate the same span
    and both references are kept; with every occurrence accepted both are
    spliced, the second over the result of the first. *)
Theorem overlapping_references_both_spliced :
  List.map (fun r => (class_start r, class_end r, kind r))
           (find_class_references ("className=" ++ quoted "btn") "btn")
  = [ (11, 14, JSX_attribute); (11, 14, class_assignment) ]
  /\ process_file "a.js" [("btn", "button")] args_all_yes false
       {| keys := []; files := [("a.js", Text ("className=" ++ quoted "btn"))];
          out := [] |}
     = Ok true
         {| keys := [];
            files := [("a.js", Text ("className=" ++ quoted "buttonton"))];
            out := [ Read "a.js";
                     Shown "a.js" 1 JSX_attribute
                       ("className=" ++ quoted (marked "btn"));
                     Shown "a.js" 1 class_assignment
                       ("className=" ++ quoted (marked "btn"));
                     Written "a.js"; Wrote "a.js" ] |}.
Proof. split; vm_compute; reflexivity. Qed.

End ReferenceFacts.

(** ** Properties of the rewrite engine *)

Section EngineFacts.
Import Regex Rename Engine Fixtures Spec.

Lemma loop_effect_refl args st w : loop_effect args st w (Next st) w [].
Proof.
  split; auto.
  - now rewrite app_nil_r.
  - intros _ _ [].
  - intros _; split; [reflexivity | intros o n []].
  - now intros st' [= <-].
Qed.

Lemma loop_effect_seq args st w st1 w1 e1 fl w2 e2 :
  loop_effect args st w (Next st1) w1 e1 ->
  loop_effect args st1 w1 fl w2 e2 ->
  loop_effect args st w fl w2 (e1 ++ e2).
Proof.
  intros [F1 O1 N1 A1 Y1 D1] [F2 O2 N2 A2 Y2 D2]; split.
  - congruence.
  - rewrite O2, O1, app_assoc; reflexivity.
  - intros st' E H; apply in_app_or in H; destruct H as [H | H].
    + exact (N1 _ eq_refl H).
    + exact (N2 _ E H).
  - intros Hauto.
    destruct (A1 Hauto) as [K1 P1].
    assert (Hauto1 : all_yes args || global_yes st1 || dry_run args = true).
    { destruct (all_yes args); [reflexivity|].
      destruct (dry_run args); [now rewrite orb_true_r|].
      cbn in Hauto |- *. rewrite orb_false_r in Hauto |- *.
      exact (Y1 _ eq_refl Hauto). }
    destruct (A2 Hauto1) as [K2 P2].
    split; [congruence|].
    intros o n H; apply in_app_or in H; destruct H as [H | H];
      [exact (P1 _ _ H) | exact (P2 _ _ H)].
  - intros st' E G; exact (Y2 _ E (Y1 _ eq_refl G)).
  - intros Hy Hg Hd.
    pose proof (D1 Hy Hg Hd) as E; injection E as ->.
    exact (D2 Hy Hg Hd).
Qed.

Lemma bind_ok {A B} (c : M A) (k : A -> M B) (w : world) (b : B) (w2 : world) :
  bind c k w = Ok b w2 -> exists a w1, c w = Ok a w1 /\ k a w1 = Ok b w2.
Proof.
  unfold bind; destruct (c w) as [a w1| |e]; intros H; try discriminate H.
  exists a, w1; split; [reflexivity | exact H].
Qed.

Lemma echo_inj (a b : ascii) : Echo a = Echo b -> a = b.
Proof. intros H; injection H; auto. Qed.

Lemma visit_effect path content args old_class new_class r st w fl w' :
  visit path content args old_class new_class r st w = Ok fl w' ->
  exists evs, loop_effect args st w fl w' evs.
Proof.
  unfold visit. destruct (highlight content r) as [line_num highlight_line].
  unfold bind at 1. cbn [emit].
  unfold bind, choose.
  destruct st as [gy changes ch]; cbn [global_yes all_changes changed].
  destruct (all_yes args || gy) eqn:Hauto.
  - cbn. intros H; injection H as <- <-.
    eexists; split; cbn; [reflexivity | reflexivity | | | |].
    + intros _ _ [H | []]; discriminate H.
    + intros _; split; [reflexivity|].
      intros o n [H | []]; discriminate H.
    + now intros st' [= <-].
    + intros Hy Hg; rewrite Hy, Hg in Hauto; discriminate Hauto.
  - destruct (dry_run args) eqn:Hdry.
    + cbn. intros H; injection H as <- <-.
      eexists; split; cbn; [reflexivity | reflexivity | | | |].
      * intros _ _ [H | []]; discriminate H.
      * intros _; split; [reflexivity|].
        intros o n [H | []]; discriminate H.
      * now intros st' [= <-].
      * reflexivity.
    + unfold prompt; cbn [keys files out].
      destruct (await_key (keys w)) as [[key ks]|]; [|discriminate].
      intros H.
      exists [Shown path line_num (kind r) highlight_line;
              Asked old_class new_class; Echo key].
      assert (Hskip : forall st', fl = Next st' -> key <> "s"%char).
      { intros st' -> ->. cbn in H. discriminate H. }
      destruct (Ascii.eqb key "a"); cbn in H;
        [| destruct (Ascii.eqb key "s"); [| destruct (Ascii.eqb key "y")]];
        injection H as <- <-; (split; cbn;
          [ reflexivity
          | rewrite <- app_assoc; reflexivity
          | intros st' E [F | [F | [F | []]]]; try discriminate F;
            apply echo_inj in F; exact (Hskip _ E F)
          | intros F; rewrite Hauto, Hdry in F; discriminate F
          | intros st' E G; try discriminate E; injection E as <-;
            cbn; try reflexivity; exact G
          | intros _ _ F; rewrite Hdry in F; discriminate F ]).
Qed.

Lemma each_reference_effect path content args old_class new_class refs :
  forall st w fl w',
    each_reference path content args old_class new_class refs st w = Ok fl w' ->
    exists evs, loop_effect args st w fl w' evs.
Proof.
  induction refs as [|r refs IH]; intros st w fl w' H.
  - injection H as <- <-. exists []. apply loop_effect_refl.
  - cbn [each_reference] in H. apply bind_ok in H.
    destruct H as (fl1 & w1 & Hv & Hk).
    apply visit_effect in Hv. destruct Hv as [e1 Hv].
    destruct fl1 as [st1|v].
    + apply IH in Hk. destruct Hk as [e2 Hk].
      exists (e1 ++ e2)%list. eapply loop_effect_seq; eassumption.
    + injection Hk as <- <-. exists e1. exact Hv.
Qed.

Lemma each_class_effect path content args mapping :
  forall st w fl w',
    each_class path content args mapping st w = Ok fl w' ->
    exists evs, loop_effect args st w fl w' evs.
Proof.
  induction mapping as [|[old_class new_class] mapping IH]; intros st w fl w' H.
  - injection H as <- <-. exists []. apply loop_effect_refl.
  - cbn [each_class] in H. apply bind_ok in H.
    destruct H as (fl1 & w1 & Hv & Hk).
    apply each_reference_effect in Hv. destruct Hv as [e1 Hv].
    destruct fl1 as [st1|v].
    + apply IH in Hk. destruct Hk as [e2 Hk].
      exists (e1 ++ e2)%list. eapply loop_effect_seq; eassumption.
    + injection Hk as <- <-. exists e1. exact Hv.
Qed.

Lemma read_text_ok path w f w1 :
  read_text path w = Ok f w1 ->
  exists stored,
    lookup path (files w) = Some stored
    /\ f = decoded stored
    /\ w1 = {| keys := keys w; files := files w; out := (out w ++ [Read path])%list |}.
Proof.
  unfold read_text. destruct (lookup path (files w)) as [stored|]; [|discriminate].
  intros H; injection H as <- <-. exists stored. repeat split.
Qed.

(** The effect of one call of [process_file] that returns. *)
Lemma process_file_effect path mapping args gy w v w' :
  process_file path mapping args gy w = Ok v w' ->
  is_file path (files w) = true
  /\ exists evs,
      out w' = (out w ++ evs)%list
      /\ (In (Echo "s") evs -> files w' = files w)
      /\ (dry_run args = true ->
          files w' = files w /\ keys w' = keys w /\ no_prompt evs)
      /\ (dry_run args = true -> all_yes args = false -> gy = false -> v = false).
Proof.
  unfold process_file. intros H.
  apply bind_ok in H. destruct H as (f & w1 & Hr & H).
  apply read_text_ok in Hr. destruct Hr as (stored & Hl & -> & ->).
  split; [unfold is_file; now rewrite Hl|].
  destruct stored as [raw|]; cbn [decoded] in H.
  - apply bind_ok in H. destruct H as (fl & w2 & Hc & H).
    apply each_class_effect in Hc. destruct Hc as [e1 [F O N A Y D]].
    cbn [files out keys global_yes] in F, O, A, Y, D.
    destruct fl as [st|v0].
    + assert (Hns : no_skip e1) by exact (N _ eq_refl).
      destruct (changed st && negb (dry_run args)) eqn:Hw.
      * apply andb_true_iff in Hw. destruct Hw as [Hch Hdry].
        apply negb_true_iff in Hdry.
        assert (exists e2, v = changed st /\ out w' = (out w2 ++ e2)%list
                           /\ ~ In (Echo "s") e2) as (e2 & -> & O2 & N2).
        { unfold bind in H. destruct (no_backup args).
          - cbn in H. injection H as <- <-.
            exists [Written path; Wrote path]; cbn.
            rewrite <- app_assoc. repeat split.
            intros [E | [E | []]]; discriminate E.
          - unfold copy2 in H. destruct (lookup path (files w2)); [|discriminate H].
            cbn in H. injection H as <- <-.
            exists [Copied path (path ++ ".bak"); Written path; Wrote path]; cbn.
            rewrite <- !app_assoc. repeat split.
            intros [E | [E | [E | []]]]; discriminate E. }
        exists (Read path :: e1 ++ e2)%list. rewrite O2, O.
        split; [now rewrite <- !app_assoc|].
        split; [|split].
        -- intros [E | E]; [discriminate E|].
           apply in_app_or in E.
           destruct E as [E | E]; [destruct (Hns E) | destruct (N2 E)].
        -- intros E; rewrite E in Hdry; discriminate Hdry.
        -- intros E; rewrite E in Hdry; discriminate Hdry.
      * cbn in H. injection H as <- <-.
        exists (Read path :: e1). rewrite O, F.
        split; [now rewrite <- app_assoc|].
        split; [reflexivity|split].
        -- intros Hd. assert (Ha : all_yes args || gy || dry_run args = true)
             by (rewrite Hd; apply orb_true_r).
           destruct (A Ha) as [K P]. repeat split; [exact K|].
           intros o n [E | E]; [discriminate E | exact (P o n E)].
        -- intros Hd Hy Hg. pose proof (D Hy Hg Hd) as E. injection E as ->.
           reflexivity.
    + cbn in H. injection H as <- <-.
      exists (Read path :: e1). rewrite O, F.
      split; [now rewrite <- app_assoc|].
      split; [reflexivity|split].
      * intros Hd. assert (Ha : all_yes args || gy || dry_run args = true)
          by (rewrite Hd; apply orb_true_r).
        destruct (A Ha) as [K P]. repeat split; [exact K|].
        intros o n [E | E]; [discriminate E | exact (P o n E)].
      * intros Hd Hy Hg. pose proof (D Hy Hg Hd) as E. discriminate E.
  - cbn in H. injection H as <- <-.
    exists [Read path; Skipping path]; cbn.
    split; [now rewrite <- app_assoc|].
    split; [reflexivity|split].
    + intros _. repeat split.
      intros o n [E | [E | []]]; discriminate E.
    + reflexivity.
Qed.

(** *** The skip-file answer *)

Lemma answered_app ks a1 a2 :
  answered ks (a1 ++ a2)
  = match answered ks a1 with
    | Some mid => answered mid a2
    | None => None
    end.
Proof.
  revert ks. induction a1 as [|a a1 IH]; intros ks; cbn [app answered]; [reflexivity|].
  destruct (await_key ks) as [[k ks']|]; [|reflexivity].
  destruct (Ascii.eqb k a); [apply IH | reflexivity].
Qed.









(** C8. The operator answers accept-all-remaining in the first file; the
    first file is rewritten, and in the second file the occurrence is
    asked about again.  With no key left the run waits at that question. *)
Theorem accept_all_forgotten_after_file :
  main args_interactive (start ["a"%char; "n"%char] two_files)
  = Ok 0
      {| keys := [];
         files := [("src/a.js", Text (add_button "a"));
                   ("src/b.js", Text (add_btn "b"))];
         out := [ Read "src/a.js";
                  Shown "src/a.js" 1 classList_method (add_marked "a");
                  Asked "btn" "button"; Echo "a";
                  Written "src/a.js"; Wrote "src/a.js";
                  Read "src/b.js";
                  Shown "src/b.js" 1 classList_method (add_marked "b");
                  Asked "btn" "button"; Echo "n" ] |}
  /\ main args_interactive (start ["a"%char] two_files) = Hang.
Proof. split; vm_compute; reflexivity. Qed.

(** *** Dry runs *)

Lemma each_file_dry_run mapping args gy paths :
  dry_run args = true ->
  forall any w any' w',
    each_file paths mapping args gy any w = Ok any' w' ->
    files w' = files w /\ keys w' = keys w
    /\ (all_yes args = false -> gy = false -> any' = any).
Proof.
  intros Hd. induction paths as [|p paths IH]; intros any w any' w' H.
  - injection H as <- <-. repeat split.
  - cbn [each_file] in H. apply bind_ok in H. destruct H as (a & w1 & H1 & H2).
    apply IH in H2. destruct H2 as (F2 & K2 & A2).
    destruct (is_file p (files w)).
    + apply bind_ok in H1. destruct H1 as (c & w0 & Hp & Hr).
      injection Hr as <- <-.
      apply process_file_effect in Hp.
      destruct Hp as (_ & e & _ & _ & Hdry & Hplain).
      destruct (Hdry Hd) as (F1 & K1 & _).
      split; [congruence|]. split; [congruence|].
      intros Hy Hg. rewrite (A2 Hy Hg), (Hplain Hd Hy Hg). reflexivity.
    + injection H1 as <- <-. repeat split; auto.
Qed.

Lemma each_root_dry_run mapping args gy rs :
  dry_run args = true ->
  forall any w any' w',
    each_root rs mapping args gy any w = Ok any' w' ->
    files w' = files w /\ keys w' = keys w
    /\ (all_yes args = false -> gy = false -> any' = any).
Proof.
  intros Hd. induction rs as [|root rs IH]; intros any w any' w' H.
  - injection H as <- <-. repeat split.
  - cbn [each_root] in H. apply bind_ok in H. destruct H as (a & w1 & H1 & H2).
    apply IH in H2. destruct H2 as (F2 & K2 & A2).
    apply (each_file_dry_run _ _ _ _ Hd) in H1. destruct H1 as (F1 & K1 & A1).
    split; [congruence|]. split; [congruence|].
    intros Hy Hg. rewrite (A2 Hy Hg), (A1 Hy Hg). reflexivity.
Qed.

(** A dry run that returns has read no key and changed no file; without
    [--all-yes] it reports no change, whatever the files hold. *)
Lemma dry_run_effect args mapping w n w' :
  dry_run args = true ->
  load_mapping args = inr mapping ->
  main args w = Ok n w' ->
  files w' = files w /\ keys w' = keys w /\ (all_yes args = false -> n = 0).
Proof.
  intros Hd Hm H. unfold main in H. rewrite Hm in H.
  apply bind_ok in H. destruct H as (any & w1 & H1 & H2).
  apply (each_root_dry_run _ _ _ _ Hd) in H1. destruct H1 as (F & K & A).
  assert (E : w' = w1) by (destruct (dry_run args && any); now injection H2).
  subst w1. split; [exact F|]. split; [exact K|].
  intros Hy. rewrite (A Hy eq_refl), andb_false_r in H2. now injection H2.
Qed.

(** C6. A dry run over a file with one reference to a mapped class: the
    occurrence is declined, nothing is written and the exit status is 0,
    although the run with every occurrence accepted rewrites the file. *)
Theorem dry_run_reports_no_change :
  main args_dry_run (start [] one_file)
  = Ok 0
      {| keys := []; files := one_file;
         out := [ Read "src/a.js";
                  Shown "src/a.js" 1 classList_method (add_marked "a") ] |}
  /\ main args_real_run (start [] one_file)
     = Ok 0
         {| keys := []; files := [("src/a.js", Text (add_button "a"))];
            out := [ Read "src/a.js";
                     Shown "src/a.js" 1 classList_method (add_marked "a");
                     Written "src/a.js"; Wrote "src/a.js" ] |}.
Proof. split; vm_compute; reflexivity. Qed.

(** *** The mapping guard *)

Lemma process_file_empty_mapping path args gy w f :
  lookup path (files w) = Some f ->
  exists evs,
    process_file path [] args gy w
    = Ok false {| keys := keys w; files := files w; out := (out w ++ evs)%list |}
    /\ Forall reading evs.
Proof.
  intros Hl. unfold process_file, bind, read_text. rewrite Hl.
  destruct f as [raw|]; cbn.
  - exists [Read path]. split; [reflexivity|]. repeat constructor.
  - exists [Read path; Skipping path]. rewrite <- app_assoc.
    split; [reflexivity|]. repeat constructor.
Qed.

Lemma each_file_empty_mapping args gy paths :
  forall any w,
  exists evs,
    each_file paths [] args gy any w
    = Ok any {| keys := keys w; files := files w; out := (out w ++ evs)%list |}
    /\ Forall reading evs.
Proof.
  induction paths as [|p paths IH]; intros any w.
  - exists []. rewrite app_nil_r. destruct w; split; [reflexivity | constructor].
  - cbn [each_file]. unfold bind at 1. unfold is_file.
    destruct (lookup p (files w)) as [f|] eqn:Hl.
    + destruct (process_file_empty_mapping p args gy w f Hl) as (e1 & H1 & R1).
      unfold bind at 1. rewrite H1. cbn [ret].
      destruct (IH any {| keys := keys w; files := files w;
                          out := (out w ++ e1)%list |}) as (e2 & H2 & R2).
      cbn [keys files out] in H2.
      exists (e1 ++ e2)%list. rewrite H2, app_assoc.
      split; [reflexivity | now apply Forall_app].
    + cbn [ret]. destruct (IH any w) as (e2 & H2 & R2).
      exists e2. split; [|exact R2].
      destruct w; exact H2.
Qed.

Lemma each_root_empty_mapping args gy rs :
  forall any w,
  exists evs,
    each_root rs [] args gy any w
    = Ok any {| keys := keys w; files := files w; out := (out w ++ evs)%list |}
    /\ Forall reading evs.
Proof.
  induction rs as [|root rs IH]; intros any w.
  - exists []. rewrite app_nil_r. destruct w; split; [reflexivity | constructor].
  - cbn [each_root]. unfold bind at 1.
    destruct (each_file_empty_mapping args gy (files_of root (files w)) any w)
      as (e1 & H1 & R1).
    rewrite H1.
    destruct (IH any {| keys := keys w; files := files w;
                        out := (out w ++ e1)%list |}) as (e2 & H2 & R2).
    cbn [keys files out] in H2.
    exists (e1 ++ e2)%list. rewrite H2, app_assoc.
    split; [reflexivity | now apply Forall_app].
Qed.

(** C7, amended.  When the mapping is empty once the comment keys are
    discarded, no file is ever modified.  The run is fatal, with nothing
    read, when no entry was supplied at all; when entries were supplied
    and all of them are comments, the run is not fatal: it goes through
    the files, only reading, and exits with status 0. *)
Theorem empty_mapping_guard args w mapping :
  supplied args = inr mapping ->
  filter (fun '(k, _) => negb (is_comment_key k)) mapping = [] ->
  exists evs,
    main args w
    = Ok (match mapping with [] => 1 | _ => 0 end)
         {| keys := keys w; files := files w; out := (out w ++ evs)%list |}
    /\ match mapping with
       | [] => evs = [Stderr no_mappings]
       | _ => Forall reading evs
       end.
Proof.
  intros Hs Hf. unfold main, load_mapping. rewrite Hs.
  destruct mapping as [|e mapping].
  - exists [Stderr no_mappings]. split; reflexivity.
  - rewrite Hf.
    destruct (each_root_empty_mapping args false (roots args) false w)
      as (evs & H & R).
    exists evs. unfold bind. rewrite H, andb_false_r. split; [reflexivity | exact R].
Qed.

(** The theorem at work on a comment-only mapping and on no mapping. *)
Lemma empty_mapping_guard_witness :
  (exists evs,
      main args_comment_only (start [] one_file)
      = Ok 0 {| keys := []; files := one_file; out := ([] ++ evs)%list |}
      /\ Forall reading evs)
  /\ (exists evs,
         main args_no_mapping (start [] one_file)
         = Ok 1 {| keys := []; files := one_file; out := ([] ++ evs)%list |}
         /\ evs = [Stderr no_mappings]).
Proof.
  split.
  - apply (empty_mapping_guard args_comment_only (start [] one_file)
             [("/* buttons */", "phase 1")]); reflexivity.
  - apply (empty_mapping_guard args_no_mapping (start [] one_file) []); reflexivity.
Defined.

(** C7 as stated fails: a mapping file that holds only a comment entry
    passes the guard, and the run reads the file below the root and ends
    with status 0. *)
Lemma comment_only_mapping_is_not_fatal :
  load_mapping args_comment_only = inr []
  /\ main args_comment_only (start [] one_file)
     = Ok 0 {| keys := []; files := one_file; out := [Read "src/a.js"] |}.
Proof. split; vm_compute; reflexivity. Qed.

End EngineFacts.

(** ** Properties of rule extraction and duplicate detection *)

Section AuditFacts.
Import Audit Spec.

(** *** The canonical order of a declaration set *)

Lemma leq_trans (a b c : string) : leq a b -> leq b c -> leq a c.
Proof.
  unfold leq, String.leb. revert b c.
  induction a as [|x a IH]; intros b c Hab Hbc.
  - destruct c; reflexivity.
  - destruct b as [|y b]; [discriminate Hab|].
    destruct c as [|z c]; [discriminate Hbc|].
    cbn [String.compare] in *. unfold Ascii.compare in *.
    destruct (N.compare_spec (N_of_ascii x) (N_of_ascii y)) as [Exy|Lxy|Gxy];
      [| |discriminate Hab];
      destruct (N.compare_spec (N_of_ascii y) (N_of_ascii z)) as [Eyz|Lyz|Gyz];
      try discriminate Hbc;
      destruct (N.compare_spec (N_of_ascii x) (N_of_ascii z)) as [Exz|Lxz|Gxz];
      try reflexivity; try lia.
    exact (IH b c Hab Hbc).
Qed.

Lemma insert_sorted_perm (x : string) (l : list string) :
  Permutation (x :: l) (PyStr.insert_sorted x l).
Proof.
  induction l as [|y l IH]; cbn [PyStr.insert_sorted]; [reflexivity|].
  destruct (String.leb x y); [reflexivity|].
  rewrite perm_swap. now apply perm_skip.
Qed.

Lemma sorted_perm (l : list string) : Permutation l (PyStr.sorted l).
Proof.
  induction l as [|x l IH]; [reflexivity|].
  unfold PyStr.sorted; cbn [fold_right]. fold (PyStr.sorted l).
  rewrite <- insert_sorted_perm. now apply perm_skip.
Qed.

Lemma insert_sorted_ordered (x : string) (l : list string) :
  StronglySorted leq l -> StronglySorted leq (PyStr.insert_sorted x l).
Proof.
  induction 1 as [|y l S IH F]; cbn [PyStr.insert_sorted].
  - repeat constructor.
  - destruct (String.leb x y) eqn:E.
    + constructor; [now constructor|].
      constructor; [exact E|].
      eapply Forall_impl; [|exact F]. intros z Hz. exact (leq_trans _ _ _ E Hz).
    + constructor; [exact IH|].
      assert (Hyx : leq y x).
      { destruct (String.leb_total x y) as [H | H]; [congruence | exact H]. }
      eapply Permutation_Forall; [apply insert_sorted_perm|].
      constructor; assumption.
Qed.

Lemma sorted_ordered (l : list string) : StronglySorted leq (PyStr.sorted l).
Proof.
  induction l as [|x l IH]; [constructor|].
  unfold PyStr.sorted; cbn [fold_right]. now apply insert_sorted_ordered.
Qed.

Lemma ordered_unique (l1 : list string) :
  forall l2, StronglySorted leq l1 -> StronglySorted leq l2 ->
             Permutation l1 l2 -> l1 = l2.
Proof.
  induction l1 as [|a l1 IH]; intros l2 S1 S2 P.
  - now apply Permutation_nil in P.
  - destruct l2 as [|b l2]; [apply Permutation_sym, Permutation_nil in P; discriminate P|].
    apply StronglySorted_inv in S1. destruct S1 as [S1 F1].
    apply StronglySorted_inv in S2. destruct S2 as [S2 F2].
    assert (E : a = b).
    { assert (Ia : In a (b :: l2)) by (eapply Permutation_in; [exact P | now left]).
      assert (Ib : In b (a :: l1))
        by (eapply Permutation_in; [apply Permutation_sym; exact P | now left]).
      destruct Ia as [-> | Ia]; [reflexivity|].
      destruct Ib as [-> | Ib]; [reflexivity|].
      rewrite Forall_forall in F1, F2.
      apply String.leb_antisym; [exact (F1 _ Ib) | exact (F2 _ Ia)]. }
    subst b. f_equal. apply Permutation_cons_inv in P. now apply IH.
Qed.

(** Sorting makes the order in which a set lists its elements irrelevant. *)
Lemma sorted_permutation (l1 l2 : list string) :
  Permutation l1 l2 -> PyStr.sorted l1 = PyStr.sorted l2.
Proof.
  intros P. apply ordered_unique; try apply sorted_ordered.
  rewrite <- (sorted_perm l1), <- (sorted_perm l2). exact P.
Qed.

Lemma hash_order_irrelevant (md5 : string -> string) (l1 l2 : list string) :
  Permutation l1 l2 -> hash_declarations md5 l1 = hash_declarations md5 l2.
Proof.
  intros P. unfold hash_declarations. now rewrite (sorted_permutation l1 l2 P).
Qed.

(** *** The groups of [find_duplicate_rules] *)

Section Groups.
Variable md5 : string -> string.

Lemma bucket_append_to h n k d :
  bucket k (Audit.append_to h n d)
  = if String.eqb h k then (bucket k d ++ [n])%list else bucket k d.
Proof.
  induction d as [|[k' l] d IH]; cbn [Audit.append_to bucket].
  - destruct (String.eqb h k); reflexivity.
  - destruct (String.eqb k' h) eqn:E1; cbn [bucket].
    + apply String.eqb_eq in E1. subst k'.
      destruct (String.eqb h k); reflexivity.
    + destruct (String.eqb k' k) eqn:E2; [|exact IH].
      apply String.eqb_eq in E2. subst k'.
      rewrite String.eqb_sym, E1. reflexivity.
Qed.

Lemma keys_append_to h n d key :
  In key (List.map fst (Audit.append_to h n d))
  <-> key = h \/ In key (List.map fst d).
Proof.
  induction d as [|[k' l] d IH]; cbn [Audit.append_to List.map fst In].
  - intuition.
  - destruct (String.eqb k' h) eqn:E; cbn [List.map fst In].
    + apply String.eqb_eq in E. subst k'. intuition.
    + rewrite IH. intuition.
Qed.

Lemma nodup_append_to h n d :
  NoDup (List.map fst d) -> NoDup (List.map fst (Audit.append_to h n d)).
Proof.
  induction d as [|[k' l] d IH]; cbn [Audit.append_to List.map fst]; intros N.
  - repeat constructor. intros [].
  - inversion N as [|? ? Hn N']; subst.
    destruct (String.eqb k' h) eqn:E; cbn [List.map fst].
    + constructor; assumption.
    + constructor; [|now apply IH].
      rewrite keys_append_to. intros [-> | I]; [|exact (Hn I)].
      rewrite String.eqb_refl in E. discriminate E.
Qed.

Lemma bucket_of_entry k l d :
  NoDup (List.map fst d) -> In (k, l) d -> bucket k d = l.
Proof.
  induction d as [|[k' l'] d IH]; cbn [List.map fst bucket]; intros N I; [destruct I|].
  inversion N as [|? ? Hn N']; subst.
  destruct I as [E | I].
  - injection E as -> ->. now rewrite String.eqb_refl.
  - destruct (String.eqb k' k) eqn:E; [|now apply IH].
    apply String.eqb_eq in E. subst k'.
    destruct Hn. apply (in_map fst) in I. exact I.
Qed.

Lemma bucket_hash_to_classes k class_map :
  forall acc,
    bucket k (hash_to_classes md5 class_map acc)
    = (bucket k acc ++ hashed_to md5 k class_map)%list.
Proof.
  induction class_map as [|[n dl] cm IH]; intros acc; cbn.
  - now rewrite app_nil_r.
  - unfold hash_to_classes in IH. rewrite IH, bucket_append_to. unfold hashed_to.
    destruct (String.eqb (hash_declarations md5 dl) k); cbn.
    + now rewrite <- app_assoc.
    + reflexivity.
Qed.

Lemma nodup_hash_to_classes class_map :
  forall acc, NoDup (List.map fst acc) ->
              NoDup (List.map fst (hash_to_classes md5 class_map acc)).
Proof.
  induction class_map as [|[n dl] cm IH]; intros acc N; cbn; [exact N|].
  apply IH, nodup_append_to, N.
Qed.

Lemma keys_hash_to_classes class_map :
  forall acc key,
    In key (List.map fst (hash_to_classes md5 class_map acc))
    <-> In key (List.map fst acc)
        \/ exists n dl, In (n, dl) class_map /\ hash_declarations md5 dl = key.
Proof.
  induction class_map as [|[n dl] cm IH]; intros acc key; cbn.
  - split; [auto | intros [H | (? & ? & [] & _)]; exact H].
  - unfold hash_to_classes in IH. rewrite IH, keys_append_to. split.
    + intros [[-> | H] | (n' & dl' & I & E)]; eauto 7.
    + intros [H | (n' & dl' & [I | I] & E)]; eauto 7.
      injection I as <- <-. auto.
Qed.

Lemma in_hashed_to k class_map a :
  In a (hashed_to md5 k class_map)
  <-> exists da, In (a, da) class_map /\ hash_declarations md5 da = k.
Proof.
  unfold hashed_to. rewrite in_map_iff. split.
  - intros ([n dl] & <- & I). apply filter_In in I. destruct I as [I E].
    apply String.eqb_eq in E. cbn. exists dl. split; assumption.
  - intros (da & I & E). exists (a, da). split; [reflexivity|].
    apply filter_In. split; [exact I|]. now apply String.eqb_eq.
Qed.

Lemma two_members (a b : string) (l : list string) :
  a <> b -> In a l -> In b l -> 1 < length l.
Proof.
  intros N Ia Ib. destruct l as [|x [|y l]]; cbn in *; [destruct Ia | | lia].
  destruct Ia as [<- | []]. destruct Ib as [E | []]. destruct (N E).
Qed.

Lemma mem_in (x : string) (l : list string) : PyStr.mem x l = true <-> In x l.
Proof.
  unfold PyStr.mem. rewrite existsb_exists. split.
  - intros (y & I & E). apply String.eqb_eq in E. now subst.
  - intros I. exists x. split; [exact I | apply String.eqb_refl].
Qed.

(** Two different classes are reported in one group exactly when their
    declaration lists have the same hash. *)
Lemma same_group_iff class_map a b :
  a <> b ->
  same_group md5 class_map a b = true
  <-> exists da db, In (a, da) class_map /\ In (b, db) class_map
                    /\ hash_declarations md5 da = hash_declarations md5 db.
Proof.
  intros N. unfold same_group, find_duplicate_rules.
  fold (hash_to_classes md5 class_map []).
  rewrite existsb_exists. split.
  - intros ([k l] & I & M). apply filter_In in I. destruct I as [I _].
    apply andb_true_iff in M. destruct M as [Ma Mb].
    apply mem_in in Ma, Mb.
    apply bucket_of_entry in I; [|apply nodup_hash_to_classes; constructor].
    rewrite bucket_hash_to_classes in I. cbn [bucket app] in I. subst l.
    apply in_hashed_to in Ma, Mb.
    destruct Ma as (da & Ia & Ea). destruct Mb as (db & Ib & Eb).
    exists da, db. repeat split; [assumption | assumption | congruence].
  - intros (da & db & Ia & Ib & E).
    set (k := hash_declarations md5 da).
    assert (K : In k (List.map fst (hash_to_classes md5 class_map []))).
    { apply keys_hash_to_classes. right. eauto. }
    apply in_map_iff in K. destruct K as ([k' l] & Ek & I). cbn in Ek. subst k'.
    pose proof (bucket_of_entry k l _
                  (nodup_hash_to_classes class_map [] (NoDup_nil _)) I) as B.
    rewrite bucket_hash_to_classes in B. cbn [bucket app] in B.
    assert (Ma : In a l) by (rewrite <- B; apply in_hashed_to; eauto).
    assert (Mb : In b l)
      by (rewrite <- B; apply in_hashed_to; exists db; split; [exact Ib | now rewrite <- E]).
    exists (k, l). split.
    + apply filter_In. split; [exact I|].
      apply Nat.ltb_lt. exact (two_members a b l N Ma Mb).
    + apply andb_true_iff. split; now apply mem_in.
Qed.

(** Classes with the same declaration set, listed in any order, are
    grouped. *)
Lemma equal_sets_grouped class_map a b da db :
  a <> b -> In (a, da) class_map -> In (b, db) class_map ->
  Permutation da db ->
  same_group md5 class_map a b = true.
Proof.
  intros N Ia Ib P. apply same_group_iff; [exact N|].
  exists da, db. repeat split; try assumption.
  now apply hash_order_irrelevant.
Qed.

End Groups.

(** C4. A compound selector gives its classes one shared declaration
    set: a later rule for class a alone also lands in the set of class b,
    whose token that rule's selector does not contain. *)
Theorem declarations_leak_through_shared_set :
  let sheet := [ STYLE_RULE [".a.b"] [Property "color" "red"];
                 STYLE_RULE [".a"] [Property "margin" "0"] ] in
  class_matches ".a.b" = ["a"; "b"]
  /\ class_matches ".a" = ["a"]
  /\ declarations_of (collect [("site.css", Some sheet)]) "b"
     = Some ["color: red"; "margin: 0"].
Proof. repeat split; vm_compute; reflexivity. Qed.

(** C5. Whatever the digest function, two classes whose declaration sets
    differ are reported as one duplicate group when the sorted strings
    concatenate to the same text. *)
Theorem distinct_sets_grouped (md5 : string -> string) :
  find_duplicate_rules md5
    [ ("x", ["font-family: amin-"; "width: 0"]);
      ("y", ["font-family: a"; "min-width: 0"]) ]
  = [ (md5 "font-family: amin-width: 0", ["x"; "y"]) ].
Proof.
  unfold find_duplicate_rules, hash_declarations.
  cbn -[String.eqb].
  rewrite String.eqb_refl. reflexivity.
Qed.

End AuditFacts.

(** ** Further properties of the risk classifier *)

Section RiskLaws.
Import Risk Laws.

Lemma high_or_low_step (decl : string) (rest : list string) :
  classify_risk (decl :: rest)
  = if high_risk decl then HIGH else classify_risk rest.
Proof.
  cbn [classify_risk]. unfold high_risk.
  destruct (tier_test HIGH_RISK_PROPS (prop_of decl)) eqn:Hh; [reflexivity|].
  destruct (tier_test MED_RISK_PROPS (prop_of decl)) eqn:Hm; [|reflexivity].
  apply med_test_implies_narrow, narrow_implies_high_test in Hm. congruence.
Qed.

Lemma classify_risk_existsb (declarations : list string) :
  classify_risk declarations
  = if existsb high_risk declarations then HIGH else LOW.
Proof.
  induction declarations as [|decl rest IH]; [reflexivity|].
  rewrite high_or_low_step. cbn [existsb].
  destruct (high_risk decl); [reflexivity | exact IH].
Qed.

(** X1. A declaration set is HIGH exactly when one of its declarations has
    a property of the HIGH tier (a member of [HIGH_RISK_PROPS] or a
    dash-suffixed variant of one); every other set is LOW. *)
Theorem classify_risk_high_iff (declarations : list string) :
  (classify_risk declarations = HIGH
   <-> exists decl, In decl declarations /\ high_risk decl = true)
  /\ (classify_risk declarations = LOW
      <-> forall decl, In decl declarations -> high_risk decl = false).
Proof.
  rewrite classify_risk_existsb.
  destruct (existsb high_risk declarations) eqn:E.
  - apply existsb_exists in E. split; split; try discriminate; auto.
    intros H. destruct E as (decl & I & T). rewrite (H decl I) in T. discriminate T.
  - split; split; try discriminate; auto.
    + intros (decl & I & T).
      assert (X : existsb high_risk declarations = true)
        by (apply existsb_exists; eauto).
      congruence.
    + intros _ decl I. destruct (high_risk decl) eqn:T; [|reflexivity].
      assert (X : existsb high_risk declarations = true)
        by (apply existsb_exists; eauto).
      congruence.
Qed.

(** X2. The class of a declaration set does not depend on the order in
    which the set is iterated, nor on repetitions: two lists with the same
    elements get the same risk. *)
Theorem classify_risk_order_irrelevant (l1 l2 : list string) :
  (forall decl, In decl l1 <-> In decl l2) ->
  classify_risk l1 = classify_risk l2.
Proof.
  intros H. rewrite !classify_risk_existsb.
  destruct (existsb high_risk l1) eqn:E1, (existsb high_risk l2) eqn:E2;
    try reflexivity.
  - apply existsb_exists in E1. destruct E1 as (d & I & T).
    assert (X : existsb high_risk l2 = true)
      by (apply existsb_exists; exists d; split; [now apply H | exact T]).
    congruence.
  - apply existsb_exists in E2. destruct E2 as (d & I & T).
    assert (X : existsb high_risk l1 = true)
      by (apply existsb_exists; exists d; split; [now apply H | exact T]).
    congruence.
Qed.

(** The theorem at work on a set of three declarations listed two ways. *)
Lemma classify_risk_order_witness :
  classify_risk ["color: red"; "width: 10px"; "margin-top: 4px"]
  = classify_risk ["margin-top: 4px"; "color: red"; "width: 10px"; "color: red"].
Proof.
  apply (classify_risk_order_irrelevant
           ["color: red"; "width: 10px"; "margin-top: 4px"]
           ["margin-top: 4px"; "color: red"; "width: 10px"; "color: red"]).
  intros decl; cbn [In]; intuition.
Defined.

End RiskLaws.

(** ** Further properties of [prompt] and [load_mapping] *)

Section InputLaws.
Import Regex Rename Engine Fixtures Spec Laws.

Lemma await_key_some ks key ks' :
  await_key ks = Some (key, ks') ->
  is_answer key = true
  /\ exists skipped raw,
      ks = (skipped ++ raw :: ks')%list /\ lower raw = key
      /\ Forall (fun k => is_answer (lower k) = false) skipped.
Proof.
  revert key ks'. induction ks as [|k ks IH]; intros key ks' H; [discriminate H|].
  cbn [await_key] in H. destruct (is_answer (lower k)) eqn:E.
  - injection H as <- <-. split; [exact E|].
    exists [], k. repeat split. constructor.
  - destruct (IH _ _ H) as (A & skipped & raw & -> & L & F).
    split; [exact A|]. exists (k :: skipped), raw. repeat split; [exact L|].
    constructor; assumption.
Qed.

Lemma await_key_none ks :
  await_key ks = None <-> Forall (fun k => is_answer (lower k) = false) ks.
Proof.
  induction ks as [|k ks IH]; cbn [await_key].
  - split; [constructor | reflexivity].
  - destruct (is_answer (lower k)) eqn:E.
    + split; [discriminate|]. intros F. inversion F; congruence.
    + rewrite IH. split; [now constructor | intros F; now inversion F].
Qed.

(** X3. A prompt that returns has skipped every key that is not y, n, s
    or a in either case, and returns the first valid key in lower case;
    it prints the question, echoes that key, consumes the keys up to it
    and leaves the disk alone. *)
Theorem prompt_first_valid_key old_class new_class w key w' :
  prompt old_class new_class w = Ok key w' ->
  is_answer key = true
  /\ files w' = files w
  /\ out w' = (out w ++ [Asked old_class new_class; Echo key])%list
  /\ exists skipped raw,
      keys w = (skipped ++ raw :: keys w')%list /\ lower raw = key
      /\ Forall (fun k => is_answer (lower k) = false) skipped.
Proof.
  unfold prompt. destruct (await_key (keys w)) as [[k ks]|] eqn:E; [|discriminate].
  intros H. injection H as <- <-. cbn [keys files out].
  destruct (await_key_some _ _ _ E) as (A & S). repeat split; assumption.
Qed.

(** The theorem at work: x is ignored, the upper-case Y is accepted as y. *)
Lemma prompt_first_valid_key_witness :
  is_answer "y" = true
  /\ files (start ["n"%char] one_file) = files (start ["x"; "Y"; "n"]%char one_file)
  /\ out {| keys := ["n"%char]; files := one_file;
            out := [Asked "btn" "button"; Echo "y"] |}
     = (out (start ["x"; "Y"; "n"]%char one_file)
        ++ [Asked "btn" "button"; Echo "y"])%list
  /\ exists skipped raw,
      keys (start ["x"; "Y"; "n"]%char one_file)
      = (skipped ++ raw :: keys {| keys := ["n"%char]; files := one_file;
                                   out := [Asked "btn" "button"; Echo "y"] |})%list
      /\ lower raw = "y"%char
      /\ Forall (fun k => is_answer (lower k) = false) skipped.
Proof.
  apply (prompt_first_valid_key "btn" "button" (start ["x"; "Y"; "n"]%char one_file)
           "y"%char
           {| keys := ["n"%char]; files := one_file;
              out := [Asked "btn" "button"; Echo "y"] |}).
  vm_compute. reflexivity.
Defined.

(** *** The mapping *)

Lemma split_pair_none s : split_pair s = None <-> lacks ":" s.
Proof.
  induction s as [|c s IH]; cbn [split_pair lacks]; [tauto|].
  destruct (Ascii.eqb_spec c ":") as [-> | N].
  - split; [discriminate | intros [H _]; now destruct H].
  - destruct (split_pair s) as [[old new]|].
    + split; [discriminate|]. intros [_ H]. apply IH in H. discriminate H.
    + split; [intros _; split; [exact N | now apply IH] | reflexivity].
Qed.

Lemma split_pair_first_colon old new :
  lacks ":" old -> split_pair (old ++ String ":" new) = Some (old, new).
Proof.
  induction old as [|c old IH]; cbn [lacks append split_pair]; [reflexivity|].
  intros [N L]. destruct (Ascii.eqb_spec c ":") as [E | _]; [destruct (N E)|].
  now rewrite (IH L).
Qed.

Lemma add_pairs_app ps qs m :
  add_pairs (ps ++ qs) m
  = match add_pairs ps m with
    | inl msg => inl msg
    | inr m' => add_pairs qs m'
    end.
Proof.
  revert m. induction ps as [|p ps IH]; intros m; cbn [app add_pairs]; [reflexivity|].
  destruct (split_pair p) as [[old new]|]; [apply IH | reflexivity].
Qed.

Lemma add_pairs_good ps m :
  Forall (fun q => ~ lacks ":" q) ps -> exists m', add_pairs ps m = inr m'.
Proof.
  intros F. revert m. induction F as [|p ps Hp F IH]; intros m; cbn [add_pairs]; [eauto|].
  destruct (split_pair p) as [[old new]|] eqn:E; [apply IH|].
  apply split_pair_none in E. destruct (Hp E).
Qed.

(** X4. Given a namespace, the first pair without a colon makes
    [load_mapping] leave through [sys.exit] with the message that names
    it, whatever the mapping file and the other pairs hold. *)
Theorem malformed_pair_is_fatal args good p rest :
  pairs args = (good ++ p :: rest)%list ->
  Forall (fun q => ~ lacks ":" q) good ->
  lacks ":" p ->
  load_mapping args = inl (invalid_pair p).
Proof.
  intros Hp Hg Hl.
  unfold load_mapping, supplied. rewrite Hp, add_pairs_app.
  destruct (add_pairs_good good
              (match map args with Some m => m | None => [] end) Hg) as [m' ->].
  cbn [add_pairs]. apply split_pair_none in Hl. now rewrite Hl.
Qed.

(** The theorem at work: the second of three pairs has no colon. *)
Lemma malformed_pair_witness :
  load_mapping {| roots := ["src"]; map := Some [("btn", "button")];
                  pairs := ["a:b"; "oops"; "c:d"];
                  dry_run := false; all_yes := true; no_backup := false |}
  = inl (invalid_pair "oops").
Proof.
  apply (malformed_pair_is_fatal
           {| roots := ["src"]; map := Some [("btn", "button")];
              pairs := ["a:b"; "oops"; "c:d"];
              dry_run := false; all_yes := true; no_backup := false |}
           ["a:b"] "oops" ["c:d"]).
  - reflexivity.
  - constructor; [|constructor]. cbn. intros [_ [H _]]. now apply H.
  - cbn. repeat split; discriminate.
Defined.

Lemma assoc_dict_set k v d k' :
  assoc k' (dict_set k v d)
  = if String.eqb k k' then Some v else assoc k' d.
Proof.
  induction d as [|[k0 v0] d IH]; cbn [dict_set assoc].
  - reflexivity.
  - destruct (String.eqb k0 k) eqn:E0; cbn [assoc].
    + apply String.eqb_eq in E0. subst k0.
      destruct (String.eqb k k'); reflexivity.
    + destruct (String.eqb k0 k') eqn:E1; [|exact IH].
      apply String.eqb_eq in E1. subst k0. now rewrite String.eqb_sym, E0.
Qed.

Lemma keys_dict_set k v d x :
  In x (List.map fst (dict_set k v d)) <-> x = k \/ In x (List.map fst d).
Proof.
  induction d as [|[k0 v0] d IH]; cbn [dict_set List.map fst In].
  - intuition.
  - destruct (String.eqb k0 k) eqn:E; cbn [List.map fst In].
    + apply String.eqb_eq in E. subst k0. intuition.
    + rewrite IH. intuition.
Qed.

Lemma nodup_dict_set k v d :
  NoDup (List.map fst d) -> NoDup (List.map fst (dict_set k v d)).
Proof.
  induction d as [|[k0 v0] d IH]; cbn [dict_set List.map fst]; intros N.
  - repeat constructor. intros [].
  - inversion N as [|? ? Hn N']; subst.
    destruct (String.eqb k0 k) eqn:E; cbn [List.map fst].
    + apply String.eqb_eq in E. subst k0. now constructor.
    + constructor; [|now apply IH].
      rewrite keys_dict_set. intros [-> | I]; [|exact (Hn I)].
      now rewrite String.eqb_refl in E.
Qed.

Lemma nodup_add_pairs ps :
  forall m m', add_pairs ps m = inr m' ->
               NoDup (List.map fst m) -> NoDup (List.map fst m').
Proof.
  induction ps as [|p ps IH]; intros m m' H N; cbn [add_pairs] in H.
  - now injection H as <-.
  - destruct (split_pair p) as [[old new]|]; [|discriminate H].
    eapply IH; [exact H | now apply nodup_dict_set].
Qed.

Lemma assoc_filter_keys (keep : string -> bool) k d :
  assoc k (filter (fun '(k', _) => keep k') d)
  = if keep k then assoc k d else None.
Proof.
  induction d as [|[k0 v0] d IH]; cbn [filter assoc].
  - now destruct (keep k).
  - destruct (keep k0) eqn:E0; cbn [assoc].
    + destruct (String.eqb k0 k) eqn:E1; [|exact IH].
      apply String.eqb_eq in E1. subst k0. now rewrite E0.
    + rewrite IH. destruct (String.eqb k0 k) eqn:E1; [|reflexivity].
      apply String.eqb_eq in E1. subst k0. now rewrite E0.
Qed.

Lemma assoc_without_comments k d :
  assoc k (filter (fun '(k', _) => negb (is_comment_key k')) d)
  = if is_comment_key k then None else assoc k d.
Proof.
  rewrite <- (negb_involutive (is_comment_key k)) at 1.
  destruct (negb (is_comment_key k)) eqn:E;
    pose proof (assoc_filter_keys (fun k' => negb (is_comment_key k')) k d) as H;
    cbv beta in H; rewrite E in H; exact H.
Qed.

Lemma nodup_filter_keys (keep : string * string -> bool) d :
  NoDup (List.map fst d) -> NoDup (List.map fst (filter keep d)).
Proof.
  induction d as [|[k0 v0] d IH]; cbn [filter List.map fst]; intros N; [constructor|].
  inversion N as [|? ? Hn N']; subst.
  destruct (keep (k0, v0)); cbn [List.map fst]; [|now apply IH].
  constructor; [|now apply IH].
  intros I. apply Hn. apply in_map_iff in I. destruct I as ([a b] & <- & I).
  apply filter_In in I. destruct I as [I _]. apply (in_map fst) in I. exact I.
Qed.

(** X5. What [load_mapping] returns, when it returns a mapping: a comment
    key maps to nothing, every other key maps to what the file and the
    pairs supplied for it, and if the keys of the file's object are
    distinct so are the keys of the result. *)
Theorem load_mapping_lookup args mapping :
  load_mapping args = inr mapping ->
  exists sup,
    supplied args = inr sup
    /\ (forall k, assoc k mapping
                  = if is_comment_key k then None else assoc k sup)
    /\ (NoDup (List.map fst (match map args with Some m => m | None => [] end)) ->
        NoDup (List.map fst mapping)).
Proof.
  unfold load_mapping. destruct (supplied args) as [msg|sup] eqn:S; [discriminate|].
  destruct sup as [|e sup]; [discriminate|].
  intros H. injection H as <-. exists (e :: sup). split; [reflexivity|]. split.
  - intros k. exact (assoc_without_comments k (e :: sup)).
  - intros N.
    refine (nodup_filter_keys (fun '(k', _) => negb (is_comment_key k')) (e :: sup) _).
    unfold supplied in S. eapply nodup_add_pairs; eassumption.
Qed.

(** The theorem at work on a file with a comment entry and one pair. *)
Lemma load_mapping_lookup_witness :
  exists sup,
    supplied {| roots := []; map := Some [("/* note */", "x"); ("btn", "button")];
                pairs := ["card:panel"];
                dry_run := false; all_yes := false; no_backup := false |}
    = inr sup
    /\ (forall k, assoc k [("btn", "button"); ("card", "panel")]
                  = if is_comment_key k then None else assoc k sup)
    /\ (NoDup (List.map fst [("/* note */", "x"); ("btn", "button")]) ->
        NoDup (List.map fst [("btn", "button"); ("card", "panel")])).
Proof.
  apply (load_mapping_lookup
           {| roots := []; map := Some [("/* note */", "x"); ("btn", "button")];
              pairs := ["card:panel"];
              dry_run := false; all_yes := false; no_backup := false |}
           [("btn", "button"); ("card", "panel")]).
  vm_compute. reflexivity.
Defined.

(** X6. A pair given last on the command line wins: when every pair has
    a colon, the last pair's text before its first colon is not a comment
    key and maps to the text after that colon, whatever the file or an
    earlier pair said for that key. *)
Theorem last_pair_overrides args ps old new :
  pairs args = (ps ++ [(old ++ String ":" new)%string])%list ->
  Forall (fun q => ~ lacks ":" q) ps ->
  lacks ":" old ->
  is_comment_key old = false ->
  exists mapping, load_mapping args = inr mapping /\ assoc old mapping = Some new.
Proof.
  intros Hp Hg Hl Hc.
  destruct (add_pairs_good ps
              (match map args with Some m => m | None => [] end) Hg) as [m' Hm].
  assert (S : supplied args = inr (dict_set old new m')).
  { unfold supplied. rewrite Hp, add_pairs_app, Hm. cbn [add_pairs].
    now rewrite (split_pair_first_colon old new Hl). }
  unfold load_mapping. rewrite S.
  assert (A : assoc old (dict_set old new m') = Some new)
    by (rewrite assoc_dict_set; now rewrite String.eqb_refl).
  destruct (dict_set old new m') as [|e sup] eqn:D; [discriminate A|].
  eexists. split; [reflexivity|].
  pose proof (assoc_without_comments old (e :: sup)) as F.
  rewrite Hc, A in F. exact F.
Qed.

(** The theorem at work: the pair replaces the file's entry for btn. *)
Lemma last_pair_overrides_witness :
  exists mapping,
    load_mapping {| roots := []; map := Some [("btn", "button")];
                    pairs := ["card:panel"; "btn:cta"];
                    dry_run := false; all_yes := false; no_backup := false |}
    = inr mapping
    /\ assoc "btn" mapping = Some "cta".
Proof.
  apply (last_pair_overrides
           {| roots := []; map := Some [("btn", "button")];
              pairs := ["card:panel"; "btn:cta"];
              dry_run := false; all_yes := false; no_backup := false |}
           ["card:panel"] "btn" "cta").
  - reflexivity.
  - constructor; [|constructor]. cbn. intros [_ [_ [_ [_ [H _]]]]]. now apply H.
  - cbn. repeat split; discriminate.
  - reflexivity.
Defined.

End InputLaws.

(** ** Facts about strings *)

Section StringFacts.

Lemma append_assoc (a b c : string) : ((a ++ b) ++ c = a ++ (b ++ c))%string.
Proof. induction a as [|x a IH]; cbn; [reflexivity | now rewrite IH]. Qed.

Lemma append_empty_r (a : string) : (a ++ EmptyString)%string = a.
Proof. induction a as [|x a IH]; cbn; [reflexivity | now rewrite IH]. Qed.

Lemma length_append (a b : string) :
  String.length (a ++ b) = String.length a + String.length b.
Proof. induction a as [|x a IH]; cbn; [reflexivity | now rewrite IH]. Qed.

Lemma drop_append (a b : string) : PyStr.drop (String.length a) (a ++ b) = b.
Proof. induction a as [|x a IH]; cbn; [now destruct b | exact IH]. Qed.

Lemma take_append (a b : string) : PyStr.take (String.length a) (a ++ b) = a.
Proof. induction a as [|x a IH]; cbn; [now destruct b | now rewrite IH]. Qed.

Lemma take_drop (n : nat) (s : string) : (PyStr.take n s ++ PyStr.drop n s)%string = s.
Proof.
  revert s. induction n as [|n IH]; intros [|x s]; cbn; try reflexivity.
  now rewrite IH.
Qed.

Lemma length_take (n : nat) (s : string) :
  n <= String.length s -> String.length (PyStr.take n s) = n.
Proof.
  revert s. induction n as [|n IH]; intros [|x s]; cbn; intros H; try lia.
  rewrite IH; lia.
Qed.

Lemma take_take (n m : nat) (s : string) :
  n <= m -> PyStr.take n (PyStr.take m s) = PyStr.take n s.
Proof.
  revert m s. induction n as [|n IH]; intros [|m] [|x s] H; cbn; try reflexivity; try lia.
  rewrite IH; [reflexivity | lia].
Qed.

Lemma take_append_le (n : nat) (a b : string) :
  n <= String.length a -> PyStr.take n (a ++ b) = PyStr.take n a.
Proof.
  revert a. induction n as [|n IH]; intros [|x a] H; cbn in *;
    try reflexivity; try lia; try (now destruct b).
  rewrite IH; [reflexivity | lia].
Qed.

Lemma slice_middle (a s b : string) :
  PyStr.slice (String.length a) (String.length a + String.length s) (a ++ s ++ b) = s.
Proof.
  unfold PyStr.slice. rewrite drop_append.
  replace (String.length a + String.length s - String.length a)
    with (String.length s) by lia.
  apply take_append.
Qed.

Lemma take_split (n m : nat) (s : string) :
  n <= m -> PyStr.take m s = (PyStr.take n s ++ PyStr.slice n m s)%string.
Proof.
  unfold PyStr.slice. revert m s.
  induction n as [|n IH]; intros m s H; cbn.
  - rewrite Nat.sub_0_r. now destruct s.
  - destruct m as [|m]; [lia|]. destruct s as [|x s]; cbn; [now destruct (m - n)|].
    rewrite (IH m s); [reflexivity | lia].
Qed.

End StringFacts.

(** ** Where the references lie *)

Section PositionLaws.
Import Regex Rename Engine Spec Laws.

Variable content : string.

Lemma step_at c a c' :
  at_offset content c -> step c = Some (a, c') ->
  at_offset content c' /\ rest c = String a (rest c') /\ pos c' = S (pos c).
Proof.
  intros (pre & E & L). unfold step. destruct (rest c) as [|x t] eqn:R; [discriminate|].
  intros H. injection H as <- <-. cbn [rest pos]. repeat split.
  exists (pre ++ String x EmptyString)%string. split.
  - rewrite append_assoc. exact E.
  - rewrite length_append. cbn. lia.
Qed.

Lemma eat_at s :
  forall c c', at_offset content c -> eat s c = Some c' ->
               at_offset content c' /\ rest c = (s ++ rest c')%string
               /\ pos c' = pos c + String.length s.
Proof.
  induction s as [|x s IH]; intros c c' A H; cbn [eat] in H.
  - injection H as <-. repeat split; [exact A | cbn; lia].
  - destruct (step c) as [[a c1]|] eqn:S; [|discriminate H].
    destruct (Ascii.eqb_spec a x) as [-> | _]; [|discriminate H].
    destruct (step_at _ _ _ A S) as (A1 & R1 & P1).
    destruct (IH _ _ A1 H) as (A2 & R2 & P2).
    repeat split; [exact A2 | rewrite R1, R2; reflexivity | cbn; lia].
Qed.

(** What a greedy run of a class consumes. *)
Lemma star_run {T} cl (k : cursor -> option T) x s :
  forall p pv,
    star cl p pv s k = Some x ->
    exists mid c',
      k c' = Some x /\ s = (mid ++ rest c')%string
      /\ pos c' = p + String.length mid /\ all_in cl mid.
Proof.
  induction s as [|a t IH]; intros p pv H; cbn [star] in H.
  - exists EmptyString, {| pos := p; prev := pv; rest := EmptyString |}.
    cbn. repeat split; [exact H | lia].
  - assert (Stop : k {| pos := p; prev := pv; rest := String a t |} = Some x ->
                   exists mid c',
                     k c' = Some x /\ String a t = (mid ++ rest c')%string
                     /\ pos c' = p + String.length mid /\ all_in cl mid).
    { intros K. exists EmptyString, {| pos := p; prev := pv; rest := String a t |}.
      cbn. repeat split; [exact K | lia]. }
    destruct (cclass_matches cl a) eqn:M; [|auto].
    unfold orelse in H. destruct (star cl (S p) (Some a) t k) eqn:E; [|auto].
    injection H as ->. destruct (IH _ _ E) as (mid & c' & K & R & P & F).
    exists (String a mid), c'. cbn. repeat split; try assumption; [now rewrite R | lia].
Qed.

Lemma at_offset_after c mid c' :
  at_offset content c -> rest c = (mid ++ rest c')%string ->
  pos c' = pos c + String.length mid ->
  at_offset content c'.
Proof.
  intros (pre & E & L) R P. exists (pre ++ mid)%string. split.
  - rewrite append_assoc, <- R. exact E.
  - rewrite length_append. lia.
Qed.

(** An expression without groups hands its state on unchanged. *)
Lemma run_groupless {T} (r : re) :
  group_numbers r = [] ->
  forall c st (k : cursor -> mstate -> option T) x,
    run r c st k = Some x -> at_offset content c ->
    exists c', k c' st = Some x /\ at_offset content c'.
Proof.
  induction r as [s|cl|cl|cl|r1 IH1 r2 IH2|r1 IH1 r2 IH2|r1 IH1|n r1 IH1|];
    intros G c st k x H A; cbn [run] in H; cbn [group_numbers] in G.
  - destruct (eat s c) as [c'|] eqn:E; [|discriminate H].
    exists c'. split; [exact H | exact (proj1 (eat_at _ _ _ A E))].
  - destruct (step c) as [[a c']|] eqn:S; [|discriminate H].
    destruct (cclass_matches cl a); [|discriminate H].
    exists c'. split; [exact H | exact (proj1 (step_at _ _ _ A S))].
  - apply star_run in H. destruct H as (mid & c' & K & R & P & _).
    exists c'. split; [exact K | exact (at_offset_after c mid c' A R P)].
  - destruct (step c) as [[a c1]|] eqn:S; [|discriminate H].
    destruct (cclass_matches cl a); [|discriminate H].
    destruct (step_at _ _ _ A S) as (A1 & _).
    apply star_run in H. destruct H as (mid & c' & K & R & P & _).
    exists c'. split; [exact K | exact (at_offset_after c1 mid c' A1 R P)].
  - apply app_eq_nil in G. destruct G as [G1 G2].
    destruct (IH1 G1 _ _ _ _ H A) as (c1 & H1 & A1).
    exact (IH2 G2 _ _ _ _ H1 A1).
  - apply app_eq_nil in G. destruct G as [G1 G2].
    unfold orelse in H. destruct (run r1 c st k) eqn:E.
    + injection H as ->. exact (IH1 G1 _ _ _ _ E A).
    + exact (IH2 G2 _ _ _ _ H A).
  - unfold orelse in H. destruct (run r1 c st k) eqn:E.
    + injection H as ->. exact (IH1 G _ _ _ _ E A).
    + exists c. split; assumption.
  - discriminate G.
  - destruct (at_boundary c); [|discriminate H].
    exists c. split; assumption.
Qed.

Variable g : nat.
Variable name : string.

(** A match of a steady expression: where it ends, which group closed
    last, and what the spans of group [g] hold. *)
Lemma run_trace {T} (r : re) :
  steady r -> names_group g name r ->
  forall c st (k : cursor -> mstate -> option T) x,
    run r c st k = Some x ->
    at_offset content c -> named_spans content g name st ->
    exists c' st',
      k c' st' = Some x /\ at_offset content c'
      /\ named_spans content g name st'
      /\ lastindex st' = li_after r (lastindex st).
Proof.
  assert (Plain : forall r : re,
             group_numbers r = [] -> li_after r = (fun i => i) ->
             forall c st (k : cursor -> mstate -> option T) x,
               run r c st k = Some x ->
               at_offset content c -> named_spans content g name st ->
               exists c' st',
                 k c' st' = Some x /\ at_offset content c'
                 /\ named_spans content g name st'
                 /\ lastindex st' = li_after r (lastindex st)).
  { intros r0 G L c st k x H A N.
    destruct (run_groupless r0 G _ _ _ _ H A) as (c' & K & A').
    exists c', st. rewrite L.
    split; [exact K|]. split; [exact A'|]. split; [exact N | reflexivity]. }
  induction r as [s|cl|cl|cl|r1 IH1 r2 IH2|r1 IH1 r2 IH2|r1 IH1|n r1 IH1|];
    intros S G c st k x H A N;
    try (refine (Plain _ _ _ _ _ _ _ H A N); reflexivity).
  - cbn [steady names_group] in S, G. destruct S as [S1 S2]. destruct G as [G1 G2].
    cbn [run] in H.
    destruct (IH1 S1 G1 _ _ _ _ H A N) as (c1 & st1 & H1 & A1 & N1 & L1).
    destruct (IH2 S2 G2 _ _ _ _ H1 A1 N1) as (c2 & st2 & H2 & A2 & N2 & L2).
    exists c2, st2. cbn [li_after]. rewrite L2, L1.
    split; [exact H2|]. split; [exact A2|]. split; [exact N2 | reflexivity].
  - cbn [steady] in S. destruct S as [S1 S2].
    refine (Plain (Alt r1 r2) _ eq_refl _ _ _ _ H A N).
    cbn [group_numbers]. now rewrite S1, S2.
  - cbn [steady] in S. exact (Plain (Opt r1) S eq_refl _ _ _ _ H A N).
  - cbn [steady names_group] in S, G. destruct G as [Gn _]. cbn [run] in H.
    destruct (Nat.eq_dec n g) as [E | E].
    + rewrite (Gn E) in H. cbn [run] in H.
      destruct (eat name c) as [c1|] eqn:Ea; [|discriminate H].
      destruct (eat_at _ _ _ A Ea) as (A1 & R1 & P1).
      exists c1, (close_group n (pos c) (pos c1) st).
      split; [exact H|]. split; [exact A1|]. split; [|reflexivity].
      intros s e [I | I].
      * injection I as _ <- <-.
        destruct A as (pre & Ec & Lp). destruct A1 as (pre1 & Ec1 & Lp1).
        rewrite R1 in Ec. rewrite P1, <- Lp.
        split; [rewrite Ec; apply slice_middle|]. split; [reflexivity|].
        rewrite Ec, !length_append. lia.
      * exact (N s e I).
    + destruct (run_groupless r1 S _ _ _ _ H A) as (c1 & K & A1).
      exists c1, (close_group n (pos c) (pos c1) st).
      split; [exact K|]. split; [exact A1|]. split; [|reflexivity].
      intros s e [I | I]; [injection I as F _ _; destruct (E F) | exact (N s e I)].
Qed.

Lemma scan_at (r : re) (m : rmatch) s :
  forall p pv resume pre,
    content = (pre ++ s)%string -> String.length pre = p ->
    In m (scan r p pv s resume) ->
    exists c, at_offset content c /\ match_at r c = Some m.
Proof.
  induction s as [|a t IH]; intros p pv resume pre E L H; cbn [scan] in H.
  - destruct (p <? resume); [destruct H|].
    destruct (match_at r _) eqn:M; [|destruct H].
    destruct H as [<- | []]. eexists. split; [|exact M]. exists pre. now split.
  - apply in_app_or in H. destruct H as [H | H].
    + destruct (p <? resume); [destruct H|].
      destruct (match_at r _) eqn:M; [|destruct H].
      destruct H as [<- | []]. eexists. split; [|exact M]. exists pre. now split.
    + apply (IH _ _ _ (pre ++ String a EmptyString)%string) in H; [exact H| |].
      * rewrite append_assoc. exact E.
      * rewrite length_append. cbn. lia.
Qed.

Lemma lookup_group_in n l sp : lookup_group n l = Some sp -> In (n, sp) l.
Proof.
  induction l as [|[m sp'] l IH]; cbn [lookup_group]; [discriminate|].
  destruct (Nat.eqb_spec m n) as [-> | _].
  - intros H. injection H as ->. now left.
  - intros H. right. now apply IH.
Qed.

End PositionLaws.

Section ReferenceLaws.
Import Regex Rename Engine Spec Laws Fixtures.

(** X7. Every reference that [find_class_references] returns is
    position-accurate: the text of the content between its start and end
    offsets is exactly the class name, the span is as long as the name and
    lies inside the content. *)
Theorem references_hold_the_name content class_name r :
  In r (find_class_references content class_name) ->
  PyStr.slice (class_start r) (class_end r) content = class_name
  /\ class_end r = class_start r + String.length class_name
  /\ class_end r <= String.length content.
Proof.
  unfold find_class_references. intros H.
  apply in_flat_map in H. destruct H as ([pattern mt] & Hp & H).
  apply in_flat_map in H. destruct H as (m & Hm & H).
  apply (scan_at content pattern m content 0 None 0 EmptyString) in Hm;
    [|reflexivity|reflexivity].
  destruct Hm as (c & A & Hm).
  assert (G : exists g, (g = 1 \/ g = 2) /\ steady pattern
                        /\ names_group g class_name pattern
                        /\ li_after pattern 0 = g).
  { unfold patterns in Hp. cbn [In] in Hp.
    repeat (destruct Hp as [Hp | Hp];
            [ injection Hp as <- <-;
              first [ exists 2; cbn; intuition (discriminate || reflexivity)
                    | exists 1; cbn; intuition (discriminate || reflexivity) ] |]).
    destruct Hp. }
  destruct G as (g & Hg & S & N & L).
  unfold match_at in Hm.
  apply (run_trace content g class_name pattern S N) in Hm;
    [|exact A | intros s e []].
  destruct Hm as (c' & st & Hm & _ & Ns & Li).
  injection Hm as <-. unfold reference_of in H. cbn [m_state m_start m_end] in H.
  cbn [lastindex mstate0] in Li. rewrite L in Li. rewrite Li in H.
  assert (Pick : (if 2 <=? g then 2 else 1) = g) by (destruct Hg as [-> | ->]; reflexivity).
  rewrite Pick, Nat.leb_refl in H.
  destruct (lookup_group g (caps st)) as [[s e]|] eqn:Lk; [|destruct H].
  destruct H as [<- | []]. cbn [class_start class_end].
  exact (Ns s e (lookup_group_in _ _ _ Lk)).
Qed.

(** The theorem at work on the two references of the attribute value
    btn primary. *)
Lemma references_hold_the_name_witness :
  PyStr.slice 11 14 ("className=" ++ quoted "btn primary") = "btn"
  /\ 14 = 11 + String.length "btn"
  /\ 14 <= String.length ("className=" ++ quoted "btn primary").
Proof.
  apply (references_hold_the_name ("className=" ++ quoted "btn primary") "btn"
           {| class_start := 11; class_end := 14; kind := JSX_attribute;
              context := "className=" ++ quoted "btn primary" |}).
  vm_compute. left. reflexivity.
Defined.

End ReferenceLaws.

(** ** Further properties of rule extraction *)

Section TokenLaws.
Import Regex Spec Laws Audit.

(** X8. Every class name extracted from a selector is a token of that
    selector: it follows a dot there, is not empty and consists of
    letters, digits, underscores and hyphens only. *)
Theorem class_matches_are_tokens selector_text name :
  In name (class_matches selector_text) ->
  name <> EmptyString
  /\ all_in name_char name
  /\ exists before after,
      selector_text = (before ++ "." ++ name ++ after)%string.
Proof.
  unfold class_matches. intros H.
  apply in_flat_map in H. destruct H as (m & Hm & H).
  apply (scan_at selector_text class_token m selector_text 0 None 0 EmptyString) in Hm;
    [|reflexivity|reflexivity].
  destruct Hm as (c & A & Hm).
  unfold match_at, class_token in Hm.
  remember (Opt (seq [Lit ":"; Opt (Lit ":"); Plus pseudo_char])) as suffix eqn:Es.
  cbn [seq run] in Hm.
  destruct (eat "." c) as [c1|] eqn:E1; [|discriminate Hm].
  destruct (eat_at selector_text _ _ _ A E1) as (A1 & R1 & P1).
  destruct (step c1) as [[a c2]|] eqn:E2; [|discriminate Hm].
  destruct (step_at selector_text _ _ _ A1 E2) as (A2 & R2 & P2).
  destruct (cclass_matches name_char a) eqn:Ma; [|discriminate Hm].
  apply star_run in Hm. destruct Hm as (mid & c3 & K & R3 & P3 & F).
  apply (run_groupless selector_text) in K;
    [|rewrite Es; reflexivity
     |exact (at_offset_after selector_text c2 mid c3 A2 R3 P3)].
  destruct K as (c4 & K & _). injection K as <-.
  unfold group_text in H. cbn in H. destruct H as [<- | []].
  destruct A as (pre & Ec & Lp).
  rewrite R1, R2, R3 in Ec.
  assert (S : PyStr.slice (pos c1) (pos c3) selector_text = String a mid).
  { cbn [String.length] in P1.
    replace (pos c1) with (String.length (pre ++ ".")%string)
      by (rewrite length_append; cbn; lia).
    replace (pos c3)
      with (String.length (pre ++ ".")%string + String.length (String a mid))
      by (rewrite length_append; cbn; lia).
    rewrite Ec.
    change (pre ++ "." ++ String a (mid ++ rest c3))%string
      with (pre ++ "." ++ String a mid ++ rest c3)%string.
    rewrite <- (append_assoc pre "."). apply slice_middle. }
  rewrite S. split; [discriminate|]. split; [split; assumption|].
  exists pre, (rest c3). exact Ec.
Qed.

(** The theorem at work on a compound selector with a pseudo-class. *)
Lemma class_matches_are_tokens_witness :
  "primary" <> EmptyString
  /\ all_in name_char "primary"
  /\ exists before after,
      ".btn.primary:hover" = (before ++ "." ++ "primary" ++ after)%string.
Proof.
  apply (class_matches_are_tokens ".btn.primary:hover" "primary").
  vm_compute. right. left. reflexivity.
Defined.

End TokenLaws.

Section GrowthLaws.
Import Audit AuditLaws.

Lemma in_set_add x y s : In x (PyStr.set_add y s) <-> x = y \/ In x s.
Proof.
  unfold PyStr.set_add. destruct (PyStr.mem y s) eqn:M.
  - apply mem_in in M. split; [auto | intros [-> | H]; assumption].
  - rewrite in_app_iff. cbn. intuition.
Qed.

Lemma in_set_update x s t : In x (PyStr.set_update s t) <-> In x s \/ In x t.
Proof.
  unfold PyStr.set_update. revert s.
  induction t as [|y t IH]; intros s; cbn [fold_left].
  - cbn. intuition.
  - rewrite IH, in_set_add. cbn. intuition.
Qed.

Lemma in_serialize x style :
  In x (serialize style)
  <-> exists name value, In (Property name value) style
                         /\ x = (name ++ ": " ++ value)%string.
Proof.
  unfold serialize.
  assert (G : forall acc,
             In x (fold_left
                     (fun s it => match it with
                                  | Property name value =>
                                      PyStr.set_add (name ++ ": " ++ value) s
                                  | CSSComment => s
                                  end) style acc)
             <-> In x acc
                 \/ exists name value, In (Property name value) style
                                       /\ x = (name ++ ": " ++ value)%string).
  { induction style as [|it style IH]; intros acc; cbn [fold_left].
    - split; [auto | intros [H | (? & ? & [] & _)]; exact H].
    - rewrite IH. destruct it as [name value|].
      + rewrite in_set_add. split.
        * intros [[E | H] | (n & v & I & E)].
          -- right. exists name, value. split; [now left | exact E].
          -- now left.
          -- right. exists n, v. split; [now right | exact E].
        * intros [H | (n & v & [I | I] & E)].
          -- left. now right.
          -- injection I as <- <-. left. now left.
          -- right. eauto.
      + split.
        * intros [H | (n & v & I & E)]; [now left|].
          right. exists n, v. split; [now right | exact E].
        * intros [H | (n & v & [I | I] & E)];
            [now left | discriminate I | right; eauto]. }
  rewrite G. cbn. intuition.
Qed.

Lemma length_heap_update l t h : length (heap_update l t h) = length h.
Proof.
  revert l. induction h as [|s h IH]; intros [|l]; cbn; try reflexivity.
  now rewrite IH.
Qed.

Lemma deref_heap_update_mono l t h l' x :
  In x (deref l' h) -> In x (deref l' (heap_update l t h)).
Proof.
  unfold deref. revert l l'. induction h as [|s h IH]; intros l l' H; [destruct l; exact H|].
  destruct l as [|l], l' as [|l']; cbn in *; try exact H.
  - apply in_set_update. now left.
  - now apply IH.
Qed.

Lemma deref_heap_update_adds l t h x :
  l < length h -> In x t -> In x (deref l (heap_update l t h)).
Proof.
  unfold deref. revert l. induction h as [|s h IH]; intros l L H; cbn in L; [lia|].
  destruct l as [|l]; cbn.
  - apply in_set_update. now right.
  - apply IH; [lia | exact H].
Qed.

Lemma deref_alloc_mono l s h x :
  In x (deref l h) -> In x (deref l (h ++ [s])%list).
Proof.
  unfold deref. intros H. destruct (Nat.lt_ge_cases l (length h)) as [L | L].
  - now rewrite app_nth1.
  - rewrite (nth_overflow h [] L) in H. destruct H.
Qed.

Lemma deref_alloc_new s h : deref (length h) (h ++ [s])%list = s.
Proof. unfold deref. rewrite app_nth2, Nat.sub_diag; [reflexivity | lia]. Qed.

Lemma get_put_same n d cm : get n (put n d cm) = Some d.
Proof.
  induction cm as [|[m d'] cm IH]; cbn [put get].
  - now rewrite String.eqb_refl.
  - destruct (String.eqb m n) eqn:E; cbn [get]; rewrite E; [reflexivity | exact IH].
Qed.

Lemma get_put_other n d cm m : m <> n -> get m (put n d cm) = get m cm.
Proof.
  intros N. induction cm as [|[k d'] cm IH]; cbn [put get].
  - destruct (String.eqb_spec n m) as [E | _]; [now destruct N | reflexivity].
  - destruct (String.eqb_spec k n) as [-> | K]; cbn [get].
    + destruct (String.eqb_spec n m) as [E | _]; [now destruct N | reflexivity].
    + destruct (String.eqb k m); [reflexivity | exact IH].
Qed.

Lemma get_in n d cm : get n cm = Some d -> In (n, d) cm.
Proof.
  induction cm as [|[k d'] cm IH]; cbn [get]; [discriminate|].
  destruct (String.eqb_spec k n) as [-> | _].
  - intros H. injection H as ->. now left.
  - intros H. right. now apply IH.
Qed.

Lemma in_put e n d cm : In e (put n d cm) -> e = (n, d) \/ In e cm.
Proof.
  induction cm as [|[k d'] cm IH]; cbn [put].
  - intros [<- | []]. now left.
  - destruct (String.eqb_spec k n) as [-> | _].
    + intros [<- | H]; [now left | right; now right].
    + intros [<- | H]; [right; now left|].
      destruct (IH H) as [-> | I]; [now left | right; now right].
Qed.

Lemma grows_refl st : grows st st.
Proof.
  split; [lia|]. split; [auto|]. intros n d H. exists d.
  repeat split; [exact H | apply incl_refl | apply incl_refl].
Qed.

Lemma grows_trans st1 st2 st3 : grows st1 st2 -> grows st2 st3 -> grows st1 st3.
Proof.
  intros (L1 & H1 & C1) (L2 & H2 & C2). split; [lia|]. split; [auto|].
  intros n d G. destruct (C1 n d G) as (d1 & G1 & E1 & F1 & S1).
  destruct (C2 n d1 G1) as (d2 & G2 & E2 & F2 & S2).
  exists d2. repeat split; [exact G2 | congruence | |];
    eapply incl_tran; eassumption.
Qed.

Lemma knows_grows st st' n x : grows st st' -> knows st n x -> knows st' n x.
Proof.
  intros (_ & H & C) (d & G & I). destruct (C n d G) as (d' & G' & E & _).
  exists d'. split; [exact G'|]. rewrite E. now apply H.
Qed.

Lemma knows_file_grows st st' n f :
  grows st st' -> knows_file st n f -> knows_file st' n f.
Proof.
  intros (_ & _ & C) (d & G & I). destruct (C n d G) as (d' & G' & _ & F & _).
  exists d'. split; [exact G' | now apply F].
Qed.

Lemma knows_selector_grows st st' n s :
  grows st st' -> knows_selector st n s -> knows_selector st' n s.
Proof.
  intros (_ & _ & C) (d & G & I). destruct (C n d G) as (d' & G' & _ & _ & S).
  exists d'. split; [exact G' | now apply S].
Qed.

(** A loop whose every turn only adds: what a turn establishes is still
    there at the end. *)
Lemma fold_grows {X} (f : state -> X -> state) (Inv : state -> Prop)
      (P : X -> state -> Prop) (l : list X) :
  (forall st x, In x l -> Inv st ->
                grows st (f st x) /\ Inv (f st x) /\ P x (f st x)) ->
  (forall x st st', grows st st' -> P x st -> P x st') ->
  forall st, Inv st ->
             grows st (fold_left f l st) /\ Inv (fold_left f l st)
             /\ forall x, In x l -> P x (fold_left f l st).
Proof.
  intros Step Mono. induction l as [|y l IH]; intros st I; cbn [fold_left].
  - split; [apply grows_refl|]. split; [exact I | intros x []].
  - destruct (Step st y (or_introl eq_refl) I) as (G1 & I1 & P1).
    destruct (IH (fun st x H => Step st x (or_intror H)) (f st y) I1) as (G2 & I2 & P2).
    split; [eapply grows_trans; eassumption|]. split; [exact I2|].
    intros x [<- | H]; [eapply Mono; eassumption | now apply P2].
Qed.

Lemma record_class_grows source_file sel decls S st n :
  valid st -> decls < length (fst st) ->
  (forall x, In x S -> In x (deref decls (fst st))) ->
  grows st (record_class source_file sel decls st n)
  /\ valid (record_class source_file sel decls st n)
  /\ (forall x, In x S -> knows (record_class source_file sel decls st n) n x)
  /\ knows_file (record_class source_file sel decls st n) n source_file
  /\ knows_selector (record_class source_file sel decls st n) n sel.
Proof.
  destruct st as [h cm]. cbn [fst snd]. intros V L HS. unfold record_class.
  destruct (get n cm) as [d|] eqn:G.
  - assert (Ld : declarations d < length h) by exact (V n d (get_in _ _ _ G)).
    split; [|split; [|split; [|split]]].
    + split; [cbn; rewrite length_heap_update; lia|].
      split; [intros l x; cbn; apply deref_heap_update_mono|].
      intros m dm Gm. cbn [snd] in *.
      destruct (String.eqb_spec m n) as [-> | N].
      * rewrite G in Gm. injection Gm as <-. eexists. rewrite get_put_same.
        split; [reflexivity|]. cbn. split; [reflexivity|].
        split; intros y Hy; apply in_set_add; now right.
      * exists dm. rewrite (get_put_other _ _ _ _ N).
        repeat split; [exact Gm | apply incl_refl | apply incl_refl].
    + intros m dm Gm. cbn [fst snd] in *. rewrite length_heap_update.
      apply in_put in Gm. destruct Gm as [Gm | Gm]; [|exact (V m dm Gm)].
      injection Gm as -> ->. exact Ld.
    + intros x Hx. eexists. cbn [fst snd]. rewrite get_put_same.
      split; [reflexivity|]. cbn [declarations].
      apply deref_heap_update_adds; [exact Ld | now apply HS].
    + eexists. cbn [snd]. rewrite get_put_same. split; [reflexivity|].
      cbn. apply in_set_add. now left.
    + eexists. cbn [snd]. rewrite get_put_same. split; [reflexivity|].
      cbn. apply in_set_add. now left.
  - split; [|split; [|split; [|split]]].
    + split; [cbn; lia|]. split; [auto|]. intros m dm Gm. cbn [snd] in *.
      assert (N : m <> n) by (intros ->; congruence).
      exists dm. rewrite (get_put_other _ _ _ _ N).
      repeat split; [exact Gm | apply incl_refl | apply incl_refl].
    + intros m dm Gm. cbn [fst snd] in *.
      apply in_put in Gm. destruct Gm as [Gm | Gm]; [|exact (V m dm Gm)].
      injection Gm as -> ->. exact L.
    + intros x Hx. eexists. cbn [fst snd]. rewrite get_put_same.
      split; [reflexivity|]. cbn [declarations]. now apply HS.
    + eexists. cbn [snd]. rewrite get_put_same. split; [reflexivity|]. cbn. now left.
    + eexists. cbn [snd]. rewrite get_put_same. split; [reflexivity|]. cbn. now left.
Qed.

Lemma valid_grows_heap h h' cm :
  length h <= length h' -> valid (h, cm) -> valid (h', cm).
Proof. intros L V n d G. specialize (V n d G). cbn in *. lia. Qed.

Lemma visit_selector_grows source_file style st sel :
  valid st ->
  grows st (visit_selector source_file style st sel)
  /\ valid (visit_selector source_file style st sel)
  /\ forall n, In n (class_matches sel) ->
               (forall x, In x (serialize style) ->
                          knows (visit_selector source_file style st sel) n x)
               /\ knows_file (visit_selector source_file style st sel) n source_file
               /\ knows_selector (visit_selector source_file style st sel) n sel.
Proof.
  intros V. unfold visit_selector.
  destruct (class_matches sel) as [|n0 names] eqn:E.
  - split; [apply grows_refl|]. split; [exact V | intros n []].
  - destruct st as [h cm]. unfold alloc. cbn [fst snd].
    set (h1 := (h ++ [serialize style])%list).
    assert (G0 : grows (h, cm) (h1, cm)).
    { split; [unfold h1; cbn; rewrite length_app; cbn; lia|].
      split; [intros l x; cbn; apply deref_alloc_mono|].
      intros n d G. exists d. repeat split; [exact G | apply incl_refl | apply incl_refl]. }
    pose (Inv := fun st : state =>
                   valid st /\ length h < length (fst st)
                   /\ forall x, In x (serialize style) ->
                                In x (deref (length h) (fst st))).
    pose (P := fun (n : string) (st : state) =>
                 (forall x, In x (serialize style) -> knows st n x)
                 /\ knows_file st n source_file /\ knows_selector st n sel).
    destruct (fold_grows (record_class source_file sel (length h)) Inv P (n0 :: names))
      with (st := (h1, cm)) as (G1 & (V1 & _) & P1).
    + intros st x _ (Vs & Ls & Ss).
      destruct (record_class_grows source_file sel (length h) (serialize style)
                  st x Vs Ls Ss) as (Gr & Vr & K & F & Sl).
      split; [exact Gr|]. split; [|repeat split; assumption].
      split; [exact Vr|]. destruct Gr as (Lr & Hr & _).
      split; [lia | intros y Hy; apply Hr, Ss, Hy].
    + intros x st st' Gs (K & F & Sl). split; [|split].
      * intros y Hy. eapply knows_grows; [exact Gs | now apply K].
      * eapply knows_file_grows; eassumption.
      * eapply knows_selector_grows; eassumption.
    + split; [eapply valid_grows_heap; [|exact V]; unfold h1; rewrite length_app; cbn; lia|].
      split; [unfold h1; cbn; rewrite length_app; cbn; lia|].
      intros x Hx. cbn [fst]. unfold h1. now rewrite deref_alloc_new.
    + split; [eapply grows_trans; eassumption|]. split; [exact V1 | exact P1].
Qed.

Lemma rule_known_grows source_file r st st' :
  grows st st' -> rule_known source_file r st -> rule_known source_file r st'.
Proof.
  intros G. destruct r as [selectorList style|]; cbn [rule_known]; [|auto].
  intros H sel n Is In_. destruct (H sel n Is In_) as (K & F & S).
  split; [|split].
  - intros x Hx. eapply knows_grows; [exact G | now apply K].
  - eapply knows_file_grows; eassumption.
  - eapply knows_selector_grows; eassumption.
Qed.

Lemma visit_rule_grows source_file st r :
  valid st ->
  grows st (visit_rule source_file st r)
  /\ valid (visit_rule source_file st r)
  /\ rule_known source_file r (visit_rule source_file st r).
Proof.
  intros V. destruct r as [selectorList style|]; cbn [visit_rule rule_known].
  - pose (P := fun (sel : string) (st : state) =>
                 forall n, In n (class_matches sel) ->
                           (forall x, In x (serialize style) -> knows st n x)
                           /\ knows_file st n source_file
                           /\ knows_selector st n sel).
    destruct (fold_grows (visit_selector source_file style) valid P selectorList)
      with (st := st) as (G1 & V1 & P1).
    + intros st0 sel _ V0. apply visit_selector_grows, V0.
    + intros sel st0 st' G H n I. destruct (H n I) as (K & F & S).
      split; [|split].
      * intros x Hx. eapply knows_grows; [exact G | now apply K].
      * eapply knows_file_grows; eassumption.
      * eapply knows_selector_grows; eassumption.
    + exact V.
    + split; [exact G1|]. split; [exact V1|]. intros sel n Is. now apply P1.
  - split; [apply grows_refl | split; [exact V | exact I]].
Qed.

Lemma extract_grows css_file stylesheet h :
  grows (h, []) (extract_classes_from_css css_file stylesheet h)
  /\ valid (extract_classes_from_css css_file stylesheet h)
  /\ file_known (css_file, stylesheet)
                (extract_classes_from_css css_file stylesheet h).
Proof.
  assert (V0 : valid (h, [])) by (intros n d []).
  unfold file_known. destruct stylesheet as [rules|]; cbn [extract_classes_from_css fst snd].
  - apply (fold_grows (visit_rule (basename css_file)) valid
             (rule_known (basename css_file)) rules).
    + intros st r _ V. now apply visit_rule_grows.
    + intros r st st'. apply rule_known_grows.
    + exact V0.
  - split; [apply grows_refl | split; [exact V0 | exact I]].
Qed.

(** What [merge_class] does with one record of a file's map; [h1] is the
    heap when that map was finished. *)
Lemma merge_class_grows h1 st n d :
  valid st -> declarations d < length (fst st) ->
  (forall l x, In x (deref l h1) -> In x (deref l (fst st))) ->
  grows st (merge_class st (n, d))
  /\ valid (merge_class st (n, d))
  /\ (forall x, In x (deref (declarations d) h1) -> knows (merge_class st (n, d)) n x)
  /\ (forall f, In f (files d) -> knows_file (merge_class st (n, d)) n f)
  /\ (forall s, In s (selectors d) -> knows_selector (merge_class st (n, d)) n s).
Proof.
  destruct st as [h cm]. cbn [fst snd]. intros V L H1. unfold merge_class.
  destruct (get n cm) as [d0|] eqn:G.
  - assert (Ld : declarations d0 < length h) by exact (V n d0 (get_in _ _ _ G)).
    split; [|split; [|split; [|split]]].
    + split; [cbn; rewrite length_heap_update; lia|].
      split; [intros l x; cbn; apply deref_heap_update_mono|].
      intros m dm Gm. cbn [snd] in *.
      destruct (String.eqb_spec m n) as [-> | N].
      * rewrite G in Gm. injection Gm as <-. eexists. rewrite get_put_same.
        split; [reflexivity|]. cbn. split; [reflexivity|].
        split; intros y Hy; apply in_set_update; now left.
      * exists dm. rewrite (get_put_other _ _ _ _ N).
        repeat split; [exact Gm | apply incl_refl | apply incl_refl].
    + intros m dm Gm. cbn [fst snd] in *. rewrite length_heap_update.
      apply in_put in Gm. destruct Gm as [Gm | Gm]; [|exact (V m dm Gm)].
      injection Gm as -> ->. exact Ld.
    + intros x Hx. eexists. cbn [fst snd]. rewrite get_put_same.
      split; [reflexivity|]. cbn [declarations].
      apply deref_heap_update_adds; [exact Ld | now apply H1].
    + intros f Hf. eexists. cbn [snd]. rewrite get_put_same. split; [reflexivity|].
      cbn. apply in_set_update. now right.
    + intros s Hs. eexists. cbn [snd]. rewrite get_put_same. split; [reflexivity|].
      cbn. apply in_set_update. now right.
  - split; [|split; [|split; [|split]]].
    + split; [cbn; lia|]. split; [auto|]. intros m dm Gm. cbn [snd] in *.
      assert (N : m <> n) by (intros ->; congruence).
      exists dm. rewrite (get_put_other _ _ _ _ N).
      repeat split; [exact Gm | apply incl_refl | apply incl_refl].
    + intros m dm Gm. cbn [fst snd] in *.
      apply in_put in Gm. destruct Gm as [Gm | Gm]; [|exact (V m dm Gm)].
      injection Gm as -> ->. exact L.
    + intros x Hx. eexists. cbn [fst snd]. rewrite get_put_same.
      split; [reflexivity|]. now apply H1.
    + intros f Hf. eexists. cbn [snd]. rewrite get_put_same. split; [reflexivity | exact Hf].
    + intros s Hs. eexists. cbn [snd]. rewrite get_put_same. split; [reflexivity | exact Hs].
Qed.

Lemma collect_file_grows st f :
  valid st ->
  grows st (collect_file st f) /\ valid (collect_file st f)
  /\ file_known f (collect_file st f).
Proof.
  destruct f as [css_file stylesheet]. destruct st as [h cm]. intros V.
  unfold collect_file. cbn [fst snd].
  destruct (extract_grows css_file stylesheet h) as (Ge & Ve & Ke).
  destruct (extract_classes_from_css css_file stylesheet h) as [h1 fcm].
  destruct Ge as (Lh & Hh & _). cbn [fst snd] in Lh, Hh.
  pose (Inv := fun st : state =>
                 valid st /\ length h1 <= length (fst st)
                 /\ forall l x, In x (deref l h1) -> In x (deref l (fst st))).
  pose (P := fun (e : string * data) (st : state) =>
               (forall x, In x (deref (declarations (snd e)) h1) -> knows st (fst e) x)
               /\ (forall f, In f (files (snd e)) -> knows_file st (fst e) f)
               /\ (forall s, In s (selectors (snd e)) -> knows_selector st (fst e) s)).
  destruct (fold_grows merge_class Inv P fcm) with (st := (h1, cm))
    as (G1 & (V1 & _) & P1).
  - intros st [n d] I (Vs & Ls & Hs).
    assert (Ld : declarations d < length (fst st))
      by (specialize (Ve n d I); cbn in Ve; lia).
    destruct (merge_class_grows h1 st n d Vs Ld Hs) as (Gr & Vr & K & F & S).
    split; [exact Gr|]. split; [|repeat split; assumption].
    split; [exact Vr|]. destruct Gr as (Lr & Hr & _).
    split; [lia | intros l x Hx; apply Hr, Hs, Hx].
  - intros e st st' G (K & F & S). split; [|split].
    + intros x Hx. eapply knows_grows; [exact G | now apply K].
    + intros f Hf. eapply knows_file_grows; [exact G | now apply F].
    + intros s Hs. eapply knows_selector_grows; [exact G | now apply S].
  - split; [eapply valid_grows_heap; eassumption|]. split; [cbn; lia | auto].
  - assert (G0 : grows (h, cm) (h1, cm)).
    { split; [exact Lh|]. split; [exact Hh|]. intros n d G. exists d.
      repeat split; [exact G | apply incl_refl | apply incl_refl]. }
    split; [eapply grows_trans; eassumption|]. split; [exact V1|].
    unfold file_known in *. cbn [fst snd] in *.
    destruct stylesheet as [rules|]; [|exact I].
    intros r Hr. specialize (Ke r Hr).
    destruct r as [selectorList style|]; cbn [rule_known] in *; [|exact I].
    intros sel n Is Hn. destruct (Ke sel n Is Hn) as (K & F & S).
    split; [|split].
    + intros x Hx. destruct (K x Hx) as (d & Gd & Id). cbn [fst snd] in Gd, Id.
      exact (proj1 (P1 (n, d) (get_in _ _ _ Gd)) x Id).
    + destruct F as (d & Gd & Id). cbn [snd] in Gd.
      exact (proj1 (proj2 (P1 (n, d) (get_in _ _ _ Gd))) _ Id).
    + destruct S as (d & Gd & Id). cbn [snd] in Gd.
      exact (proj2 (proj2 (P1 (n, d) (get_in _ _ _ Gd))) _ Id).
Qed.

(** X9. Whatever the files hold, the record that [main] builds for a
    class gathers every rule that names it: for each style rule of each
    parsed file and each class token of one of its selectors, the final
    declaration set of the class holds every declaration of the rule as
    property, colon, space, value, and the record lists the file's base
    name and the selector. *)
Theorem collect_gathers_every_rule
        css css_file rules selectorList style sel class_name name value :
  In (css_file, Some rules) css ->
  In (STYLE_RULE selectorList style) rules ->
  In sel selectorList ->
  In class_name (class_matches sel) ->
  In (Property name value) style ->
  exists d set,
    get class_name (snd (collect css)) = Some d
    /\ declarations_of (collect css) class_name = Some set
    /\ In (name ++ ": " ++ value)%string set
    /\ In (basename css_file) (files d)
    /\ In sel (selectors d).
Proof.
  intros Hf Hr Hs Hn Hp.
  assert (E : collect css = fold_left collect_file css ([], [])) by reflexivity.
  destruct (fold_grows collect_file valid file_known css) with (st := (([], []) : state))
    as (_ & _ & K).
  - intros st f _ V. now apply collect_file_grows.
  - intros [f sheet] st st' G. unfold file_known. cbn [fst snd].
    destruct sheet as [rs|]; [|auto].
    intros H r Ir. eapply rule_known_grows; [exact G | now apply H].
  - intros n d [].
  - specialize (K _ Hf). unfold file_known in K. cbn [fst snd] in K.
    specialize (K _ Hr). cbn [rule_known] in K.
    destruct (K sel class_name Hs Hn) as (Kd & (d1 & G1 & F1) & (d2 & G2 & S2)).
    assert (Hx : In (name ++ ": " ++ value)%string (serialize style))
      by (apply in_serialize; eauto).
    destruct (Kd _ Hx) as (d & G & D).
    rewrite <- E in *. rewrite G in G1, G2. injection G1 as <-. injection G2 as <-.
    exists d, (deref (declarations d) (fst (collect css))).
    unfold declarations_of. rewrite G. repeat split; assumption.
Qed.

(** The theorem at work on the two rules of the shared-set example: class
    a is named by both rules and holds the declaration of the second. *)
Lemma collect_gathers_witness :
  exists d set,
    get "a" (snd (collect [("css/site.css",
                            Some [ STYLE_RULE [".a.b"] [Property "color" "red"];
                                   STYLE_RULE [".a"] [Property "margin" "0"] ])]))
    = Some d
    /\ declarations_of
         (collect [("css/site.css",
                    Some [ STYLE_RULE [".a.b"] [Property "color" "red"];
                           STYLE_RULE [".a"] [Property "margin" "0"] ])]) "a"
       = Some set
    /\ In ("margin" ++ ": " ++ "0")%string set
    /\ In (basename "css/site.css") (files d)
    /\ In ".a" (selectors d).
Proof.
  apply (collect_gathers_every_rule
           [("css/site.css",
             Some [ STYLE_RULE [".a.b"] [Property "color" "red"];
                    STYLE_RULE [".a"] [Property "margin" "0"] ])]
           "css/site.css"
           [ STYLE_RULE [".a.b"] [Property "color" "red"];
             STYLE_RULE [".a"] [Property "margin" "0"] ]
           [".a"] [Property "margin" "0"] ".a" "a" "margin" "0").
  - left. reflexivity.
  - right. left. reflexivity.
  - left. reflexivity.
  - vm_compute. left. reflexivity.
  - left. reflexivity.
Defined.

End GrowthLaws.

(** ** Further properties of the rewrite engine *)

Section SpliceFacts.
Import Engine SpliceLaws.

Lemma apply_changes_app a b content :
  apply_changes (a ++ b) content = apply_changes b (apply_changes a content).
Proof.
  revert content. induction a as [|[[s e] r] a IH]; intros content; cbn; [reflexivity|].
  apply IH.
Qed.

Lemma drop_take_append (n : nat) (s t : string) :
  n <= String.length s -> PyStr.drop n (PyStr.take n s ++ t) = t.
Proof.
  intros H. pose proof (drop_append (PyStr.take n s) t) as E.
  now rewrite (length_take n s H) in E.
Qed.

Lemma ascending_bound from l len : ascending from l len -> from <= len.
Proof.
  revert from. induction l as [|[[s e] r] l IH]; intros from; cbn [ascending]; [auto|].
  intros (H1 & H2 & H3). apply IH in H3. lia.
Qed.

(** Applied from the last span to the first, the changes of an ascending
    list leave the text before them alone and rebuild the rest. *)
Lemma apply_changes_rev content l :
  forall from,
    ascending from l (String.length content) ->
    apply_changes (rev l) content
    = (PyStr.take from content ++ rebuild from l content)%string.
Proof.
  induction l as [|[[s e] r] l IH]; intros from A; cbn [rev rebuild apply_changes].
  - now rewrite take_drop.
  - cbn [ascending] in A. destruct A as (Hs & He & A).
    pose proof (ascending_bound _ _ _ A) as Hb.
    rewrite apply_changes_app, (IH e A). cbn [apply_changes].
    rewrite take_append_le by (rewrite length_take; lia).
    rewrite take_take by lia.
    rewrite drop_take_append by lia.
    rewrite (take_split from s content Hs), append_assoc. reflexivity.
Qed.

Lemma string_ltb_irrefl (s : string) : String.ltb s s = false.
Proof.
  unfold String.ltb.
  assert (E : String.compare s s = Eq).
  { induction s as [|a s IH]; cbn; [reflexivity|].
    unfold Ascii.compare. now rewrite N.compare_refl. }
  now rewrite E.
Qed.

Lemma change_ltb_by_start x y :
  start_of x <> start_of y -> change_ltb x y = (start_of x <? start_of y).
Proof.
  destruct x as [[s1 e1] r1], y as [[s2 e2] r2]. unfold start_of. cbn.
  intros N. destruct (Nat.eqb_spec s1 s2) as [E | _]; [destruct (N E)|].
  cbn. apply orb_false_r.
Qed.

Lemma insert_desc_falling x l :
  falling l -> Forall (fun y => start_of y <> start_of x) l ->
  falling (insert_desc x l) /\ Permutation (x :: l) (insert_desc x l).
Proof.
  unfold falling. induction 1 as [|y l S IH F]; intros D; cbn [insert_desc].
  - split; [repeat constructor | reflexivity].
  - inversion D as [|? ? Dy Dl]; subst.
    rewrite change_ltb_by_start by auto.
    destruct (Nat.ltb_spec (start_of x) (start_of y)) as [L | L].
    + destruct (IH Dl) as [S' P']. split.
      * constructor; [exact S'|].
        eapply Permutation_Forall; [exact P'|]. constructor; assumption.
      * rewrite perm_swap. now apply perm_skip.
    + split; [|reflexivity].
      constructor; [now constructor|].
      constructor; [lia|]. eapply Forall_impl; [|exact F]. cbn. intros z Hz. lia.
Qed.

Lemma sort_reverse_falling l :
  NoDup (List.map start_of l) ->
  falling (sort_reverse l) /\ Permutation l (sort_reverse l).
Proof.
  induction l as [|x l IH]; cbn [List.map]; intros N.
  - split; [constructor | reflexivity].
  - inversion N as [|? ? Hx Nl]; subst. destruct (IH Nl) as [S P].
    unfold sort_reverse. cbn [fold_right]. fold (sort_reverse l).
    destruct (insert_desc_falling x (sort_reverse l) S) as [S' P'].
    + eapply Permutation_Forall; [exact P|].
      apply Forall_forall. intros y Hy E. apply Hx. rewrite <- E. now apply in_map.
    + split; [exact S'|]. rewrite <- P'. now apply perm_skip.
Qed.

Lemma falling_unique l1 :
  forall l2, falling l1 -> falling l2 -> Permutation l1 l2 -> l1 = l2.
Proof.
  unfold falling. induction l1 as [|a l1 IH]; intros l2 S1 S2 P.
  - now apply Permutation_nil in P.
  - destruct l2 as [|b l2]; [apply Permutation_sym, Permutation_nil in P; discriminate P|].
    apply StronglySorted_inv in S1. destruct S1 as [S1 F1].
    apply StronglySorted_inv in S2. destruct S2 as [S2 F2].
    assert (E : a = b).
    { assert (Ia : In a (b :: l2)) by (eapply Permutation_in; [exact P | now left]).
      assert (Ib : In b (a :: l1))
        by (eapply Permutation_in; [apply Permutation_sym; exact P | now left]).
      destruct Ia as [Ea | Ia]; [now symmetry|].
      destruct Ib as [Eb | Ib]; [exact Eb|].
      rewrite Forall_forall in F1, F2.
      specialize (F1 _ Ib). specialize (F2 _ Ia). lia. }
    subst b. f_equal. apply Permutation_cons_inv in P. now apply IH.
Qed.

Lemma sorted_app {X} (R : X -> X -> Prop) l1 l2 :
  StronglySorted R l1 -> StronglySorted R l2 ->
  (forall a b, In a l1 -> In b l2 -> R a b) ->
  StronglySorted R (l1 ++ l2).
Proof.
  induction 1 as [|a l1 S IH F]; intros S2 H; cbn; [exact S2|].
  constructor.
  - apply IH; [exact S2|]. intros x y Hx Hy. apply H; [now right | exact Hy].
  - apply Forall_app. split; [exact F|].
    apply Forall_forall. intros y Hy. apply H; [now left | exact Hy].
Qed.

Lemma ascending_rises from l len :
  ascending from l len ->
  StronglySorted (fun a b => start_of a < start_of b) l
  /\ Forall (fun c => from <= start_of c) l.
Proof.
  revert from. induction l as [|[[s e] r] l IH]; intros from; cbn [ascending].
  - intros _. split; constructor.
  - intros (Hs & He & A). destruct (IH e A) as [S F]. split.
    + constructor; [exact S|]. eapply Forall_impl; [|exact F].
      unfold start_of. cbn. intros c Hc. lia.
    + constructor; [exact Hs|]. eapply Forall_impl; [|exact F].
      unfold start_of. cbn. intros c Hc. lia.
Qed.

Lemma rises_rev l :
  StronglySorted (fun a b => start_of a < start_of b) l -> falling (rev l).
Proof.
  unfold falling. induction 1 as [|a l S IH F]; cbn [rev]; [constructor|].
  apply sorted_app; [exact IH | repeat constructor|].
  intros x y Hx [<- | []]. apply in_rev in Hx.
  rewrite Forall_forall in F. now apply F.
Qed.

Lemma rises_nodup l :
  StronglySorted (fun a b => start_of a < start_of b) l ->
  NoDup (List.map start_of l).
Proof.
  induction 1 as [|a l S IH F]; cbn [List.map]; constructor; [|exact IH].
  intros I. apply in_map_iff in I. destruct I as (b & E & Ib).
  rewrite Forall_forall in F. specialize (F b Ib). lia.
Qed.

(** X10. Edits whose spans do not overlap are spliced correctly in
    whatever order they were accepted: sorting by descending start and
    replacing span after span gives the content in which every span holds
    its replacement and all the text between the spans is as before,
    also when a replacement is longer or shorter than its span. *)
Theorem splice_in_any_order content asc accepted :
  ascending 0 asc (String.length content) ->
  Permutation accepted asc ->
  apply_changes (sort_reverse accepted) content = rebuild 0 asc content.
Proof.
  intros A P. destruct (ascending_rises _ _ _ A) as [R _].
  assert (N : NoDup (List.map start_of accepted)).
  { eapply Permutation_NoDup; [|exact (rises_nodup asc R)].
    apply Permutation_map, Permutation_sym, P. }
  destruct (sort_reverse_falling accepted N) as [S Ps].
  assert (E : sort_reverse accepted = rev asc).
  { apply falling_unique; [exact S | now apply rises_rev|].
    rewrite <- Ps, P. apply Permutation_rev. }
  rewrite E, (apply_changes_rev content asc 0 A). reflexivity.
Qed.

(** The theorem at work on spans 5 to 8 and 20 to 24, accepted last
    first, with a shorter and a longer replacement. *)
Lemma splice_in_any_order_witness :
  apply_changes (sort_reverse [(20, 24, "LONGER"); (5, 8, "xy")])
                "0123456789abcdefghijklmnopqrst"
  = rebuild 0 [(5, 8, "xy"); (20, 24, "LONGER")] "0123456789abcdefghijklmnopqrst".
Proof.
  apply (splice_in_any_order "0123456789abcdefghijklmnopqrst"
           [(5, 8, "xy"); (20, 24, "LONGER")]
           [(20, 24, "LONGER"); (5, 8, "xy")]).
  - cbn. lia.
  - apply perm_swap.
Defined.

End SpliceFacts.

Section FileLaws.
Import Regex Rename Engine Fixtures Spec Laws SpliceLaws.

Lemma lookup_store p f d q :
  lookup q (store p f d) = if String.eqb p q then Some f else lookup q d.
Proof.
  induction d as [|[k g] d IH]; cbn [store lookup].
  - reflexivity.
  - destruct (String.eqb_spec k p) as [-> | N]; cbn [lookup].
    + destruct (String.eqb p q); reflexivity.
    + destruct (String.eqb_spec k q) as [-> | _]; [|exact IH].
      destruct (String.eqb_spec p q) as [E | _]; [now destruct N | reflexivity].
Qed.

Lemma backup_name_differs (path : string) : (path ++ ".bak")%string <> path.
Proof.
  intros E. apply (f_equal String.length) in E.
  rewrite length_append in E. cbn in E. lia.
Qed.

(** What a call of [process_file] that returns has done to the disk:
    nothing, or it has stored the original text under the backup name,
    unless backups are off, and a new text under the path. *)
Lemma process_file_shape path mapping args gy w v w' :
  process_file path mapping args gy w = Ok v w' ->
  files w' = files w
  \/ exists content text,
      lookup path (files w) = Some (Text content)
      /\ dry_run args = false /\ v = true
      /\ files w'
         = store path (Text text)
             (if no_backup args then files w
              else store (path ++ ".bak") (Text content) (files w)).
Proof.
  unfold process_file. intros H.
  apply bind_ok in H. destruct H as (f & w1 & Hr & H).
  apply read_text_ok in Hr. destruct Hr as (stored & Hl & -> & ->).
  destruct stored as [content|]; cbn [decoded] in H;
    [|cbn in H; injection H as <- <-; now left].
  apply bind_ok in H. destruct H as (fl & w2 & Hc & H).
  apply each_class_effect in Hc. destruct Hc as [e1 [F _ _ _ _ _]].
  destruct w2 as [keys2 files2 out2]. cbn [files] in F. subst files2.
  destruct fl as [st|v0]; [|cbn in H; injection H as <- <-; now left].
  destruct (changed st && negb (dry_run args)) eqn:Hw;
    [|cbn in H; injection H as <- <-; now left].
  apply andb_true_iff in Hw. destruct Hw as [Hch Hdry]. apply negb_true_iff in Hdry.
  right. exists content,
    (apply_changes (sort_reverse (all_changes st)) (universal_newlines content)).
  split; [exact Hl|]. split; [exact Hdry|].
  unfold bind in H. destruct (no_backup args).
  - cbn in H. injection H as <- <-. split; [exact Hch | reflexivity].
  - unfold copy2 in H. cbn [files] in H. rewrite Hl in H. cbn in H.
    injection H as <- <-. split; [exact Hch | reflexivity].
Qed.

(** X11. A call of [process_file] touches nothing but the file itself and
    its backup name: every other path holds what it held, with backups
    off the backup name too, and no file disappears. *)
Theorem process_file_footprint path mapping args gy w v w' :
  process_file path mapping args gy w = Ok v w' ->
  (forall q, q <> path -> q <> (path ++ ".bak")%string ->
             lookup q (files w') = lookup q (files w))
  /\ (no_backup args = true ->
      forall q, q <> path -> lookup q (files w') = lookup q (files w))
  /\ (forall q, is_file q (files w) = true -> is_file q (files w') = true).
Proof.
  intros H. apply process_file_shape in H.
  destruct H as [-> | (content & text & Hl & _ & _ & ->)]; [repeat split; auto|].
  split; [|split].
  - intros q N1 N2. rewrite lookup_store.
    destruct (String.eqb_spec path q) as [E | _]; [now destruct N1|].
    destruct (no_backup args); [reflexivity|]. rewrite lookup_store.
    destruct (String.eqb_spec (path ++ ".bak") q) as [E | _]; [now destruct N2 | reflexivity].
  - intros -> q N1. rewrite lookup_store.
    destruct (String.eqb_spec path q) as [E | _]; [now destruct N1 | reflexivity].
  - intros q. unfold is_file. rewrite lookup_store.
    destruct (String.eqb path q); [reflexivity|].
    destruct (no_backup args); [auto|]. rewrite lookup_store.
    destruct (String.eqb (path ++ ".bak") q); auto.
Qed.

(** The theorem at work on the real run over one file, with backups. *)
Lemma process_file_footprint_witness :
  let w := start [] (("notes.txt", Text "btn") :: one_file) in
  let w' := {| keys := [];
               files := [("notes.txt", Text "btn");
                         ("src/a.js", Text (add_button "a"));
                         ("src/a.js.bak", Text (add_btn "a"))];
               out := [ Read "src/a.js";
                        Shown "src/a.js" 1 classList_method (add_marked "a");
                        Copied "src/a.js" "src/a.js.bak";
                        Written "src/a.js"; Wrote "src/a.js" ] |} in
  (forall q, q <> "src/a.js" -> q <> ("src/a.js" ++ ".bak")%string ->
             lookup q (files w') = lookup q (files w))
  /\ (no_backup (args_with ["src"] false true false) = true ->
      forall q, q <> "src/a.js" -> lookup q (files w') = lookup q (files w))
  /\ (forall q, is_file q (files w) = true -> is_file q (files w') = true).
Proof.
  apply (process_file_footprint "src/a.js" [("btn", "button")]
           (args_with ["src"] false true false) false
           (start [] (("notes.txt", Text "btn") :: one_file)) true).
  vm_compute. reflexivity.
Defined.

(** X12. With backups on, whenever a call of [process_file] changes the
    disk, the backup name afterwards holds exactly what the file held
    before the call. *)
Theorem backup_holds_the_original path mapping args gy w v w' :
  no_backup args = false ->
  process_file path mapping args gy w = Ok v w' ->
  files w' = files w
  \/ lookup (path ++ ".bak") (files w') = lookup path (files w).
Proof.
  intros Hb H. apply process_file_shape in H.
  destruct H as [-> | (content & text & Hl & _ & _ & ->)]; [now left|].
  right. rewrite Hb, Hl, !lookup_store, String.eqb_refl.
  destruct (String.eqb_spec path (path ++ ".bak")) as [E | _]; [|reflexivity].
  symmetry in E. destruct (backup_name_differs path E).
Qed.

(** The theorem at work on the real run over one file, with backups. *)
Lemma backup_holds_the_original_witness :
  let w' := {| keys := [];
               files := [("src/a.js", Text (add_button "a"));
                         ("src/a.js.bak", Text (add_btn "a"))];
               out := [ Read "src/a.js";
                        Shown "src/a.js" 1 classList_method (add_marked "a");
                        Copied "src/a.js" "src/a.js.bak";
                        Written "src/a.js"; Wrote "src/a.js" ] |} in
  files w' = files (start [] one_file)
  \/ lookup ("src/a.js" ++ ".bak") (files w') = lookup "src/a.js" (files (start [] one_file)).
Proof.
  apply (backup_holds_the_original "src/a.js" [("btn", "button")]
           (args_with ["src"] false true false) false (start [] one_file) true).
  - reflexivity.
  - vm_compute. reflexivity.
Defined.

(** *** Runs without an operator *)

Lemma visit_automatic path content args old_class new_class r st w :
  automatic args ->
  exists st' evs,
    visit path content args old_class new_class r st w
    = Ok (Next st') {| keys := keys w; files := files w; out := (out w ++ evs)%list |}.
Proof.
  unfold automatic, visit. intros Ha.
  destruct (highlight content r) as [line_num highlight_line].
  unfold bind, emit, choose. cbn [keys files out].
  destruct (all_yes args || global_yes st) eqn:E1.
  - cbn. eauto.
  - destruct (dry_run args) eqn:E2.
    + cbn. eauto.
    + apply orb_false_iff in E1. destruct E1 as [E1 _].
      rewrite E1 in Ha. discriminate Ha.
Qed.

Lemma each_reference_automatic path content args old_class new_class refs :
  automatic args ->
  forall st w,
  exists st' evs,
    each_reference path content args old_class new_class refs st w
    = Ok (Next st') {| keys := keys w; files := files w; out := (out w ++ evs)%list |}.
Proof.
  intros Ha. induction refs as [|r refs IH]; intros st w; cbn [each_reference].
  - exists st, []. rewrite app_nil_r. now destruct w.
  - destruct (visit_automatic path content args old_class new_class r st w Ha)
      as (st1 & e1 & H1).
    unfold bind at 1. rewrite H1.
    destruct (IH st1 {| keys := keys w; files := files w; out := (out w ++ e1)%list |})
      as (st2 & e2 & H2).
    cbn [keys files out] in H2. rewrite H2. exists st2, (e1 ++ e2)%list.
    now rewrite app_assoc.
Qed.

Lemma each_class_automatic path content args mapping :
  automatic args ->
  forall st w,
  exists st' evs,
    each_class path content args mapping st w
    = Ok (Next st') {| keys := keys w; files := files w; out := (out w ++ evs)%list |}.
Proof.
  intros Ha. induction mapping as [|[old_class new_class] mapping IH]; intros st w;
    cbn [each_class].
  - exists st, []. rewrite app_nil_r. now destruct w.
  - destruct (each_reference_automatic path content args old_class new_class
                (find_class_references content old_class) Ha st w) as (st1 & e1 & H1).
    unfold bind at 1. rewrite H1.
    destruct (IH st1 {| keys := keys w; files := files w; out := (out w ++ e1)%list |})
      as (st2 & e2 & H2).
    cbn [keys files out] in H2. rewrite H2. exists st2, (e1 ++ e2)%list.
    now rewrite app_assoc.
Qed.

Lemma process_file_automatic path mapping args gy w :
  automatic args -> is_file path (files w) = true ->
  exists v w', process_file path mapping args gy w = Ok v w' /\ keys w' = keys w.
Proof.
  intros Ha Hf. unfold is_file in Hf.
  destruct (lookup path (files w)) as [f|] eqn:Hl; [|discriminate Hf].
  unfold process_file, bind at 1, read_text. rewrite Hl.
  destruct f as [raw|]; cbn [decoded]; [|cbn; eauto].
  destruct (each_class_automatic path (universal_newlines raw) args mapping Ha
              {| global_yes := gy; all_changes := []; changed := false |}
              {| keys := keys w; files := files w; out := (out w ++ [Read path])%list |})
    as (st & evs & H).
  cbn [keys files out] in H. unfold bind at 1. rewrite H.
  unfold bind. destruct (changed st && negb (dry_run args)).
  - destruct (no_backup args); cbn.
    + eauto.
    + unfold copy2. cbn [files]. rewrite Hl. cbn. eauto.
  - cbn. eauto.
Qed.

Lemma each_file_automatic mapping args gy paths :
  automatic args ->
  forall any w,
  exists any' w', each_file paths mapping args gy any w = Ok any' w'
                  /\ keys w' = keys w.
Proof.
  intros Ha. induction paths as [|p paths IH]; intros any w; cbn [each_file].
  - exists any, w. split; reflexivity.
  - unfold bind at 1. destruct (is_file p (files w)) eqn:Hf.
    + destruct (process_file_automatic p mapping args gy w Ha Hf) as (v & w1 & H1 & K1).
      unfold bind at 1. rewrite H1. cbn [ret].
      destruct (IH (if v then true else any) w1) as (a2 & w2 & H2 & K2).
      exists a2, w2. split; [exact H2 | congruence].
    + cbn [ret]. apply IH.
Qed.

Lemma each_root_automatic mapping args gy rs :
  automatic args ->
  forall any w,
  exists any' w', each_root rs mapping args gy any w = Ok any' w'
                  /\ keys w' = keys w.
Proof.
  intros Ha. induction rs as [|root rs IH]; intros any w; cbn [each_root].
  - exists any, w. split; reflexivity.
  - unfold bind at 1.
    destruct (each_file_automatic mapping args gy (files_of root (files w)) Ha any w)
      as (a1 & w1 & H1 & K1).
    rewrite H1. destruct (IH a1 w1) as (a2 & w2 & H2 & K2).
    exists a2, w2. split; [exact H2 | congruence].
Qed.

(** X13. With [--all-yes] or [--dry-run] the run needs no operator: on
    every disk and whatever keys are or are not pressed, [main] comes to
    an end with an exit status, never waits for a key and reads no key.
    Failures of the file system itself are outside the model. *)
Theorem batch_run_terminates args w :
  automatic args ->
  exists status w', main args w = Ok status w' /\ keys w' = keys w.
Proof.
  intros Ha. unfold main. destruct (load_mapping args) as [msg|mapping].
  - cbn. eauto.
  - destruct (each_root_automatic mapping args false (roots args) Ha false w)
      as (any & w1 & H1 & K1).
    unfold bind. rewrite H1.
    destruct (dry_run args && any); cbn; eauto.
Qed.

(** The theorem at work on the run with every occurrence accepted and no
    key to read. *)
Lemma batch_run_terminates_witness :
  exists status w',
    main args_real_run (start [] two_files) = Ok status w'
    /\ keys w' = keys (start [] two_files).
Proof.
  apply (batch_run_terminates args_real_run (start [] two_files)). reflexivity.
Defined.

(** X14. A dry run that ends has written nothing and read no key: the
    disk and the keys are as before, whatever the mapping, the flags
    beside [--dry-run] and the files. *)
Theorem dry_run_leaves_disk_alone args w status w' :
  dry_run args = true ->
  main args w = Ok status w' ->
  files w' = files w /\ keys w' = keys w.
Proof.
  intros Hd H. destruct (load_mapping args) as [msg|mapping] eqn:L.
  - unfold main in H. rewrite L in H. cbn in H. injection H as <- <-. split; reflexivity.
  - destruct (dry_run_effect args mapping w status w' Hd L H) as (F & K & _).
    split; assumption.
Qed.

(** The theorem at work on a dry run with every occurrence accepted. *)
Lemma dry_run_leaves_disk_alone_witness :
  files {| keys := []; files := one_file;
           out := [ Read "src/a.js";
                    Shown "src/a.js" 1 classList_method (add_marked "a") ] |}
  = files (start [] one_file)
  /\ keys {| keys := []; files := one_file;
             out := [ Read "src/a.js";
                      Shown "src/a.js" 1 classList_method (add_marked "a") ] |}
     = keys (start [] one_file).
Proof.
  apply (dry_run_leaves_disk_alone (args_with ["src"] true true true)
           (start [] one_file) 1).
  - reflexivity.
  - vm_compute. reflexivity.
Defined.

End FileLaws.

(** ** Further properties of duplicate detection *)

Section GroupLaws.
Import Audit Spec.
Variable md5 : string -> string.

(** X15. The report of [find_duplicate_rules] holds a group under a hash
    exactly when at least two classes of the map have that hash; the group
    then lists all of them, in the order of the map.  No hash is reported
    twice. *)
Theorem duplicate_groups_characterised class_map :
  (forall k classes,
      In (k, classes) (find_duplicate_rules md5 class_map)
      <-> classes = hashed_to md5 k class_map /\ 1 < length classes)
  /\ NoDup (List.map fst (find_duplicate_rules md5 class_map)).
Proof.
  unfold find_duplicate_rules. fold (hash_to_classes md5 class_map []).
  pose proof (nodup_hash_to_classes md5 class_map [] (NoDup_nil _)) as N.
  split.
  - intros k classes. rewrite filter_In. split.
    + intros [I L]. apply Nat.ltb_lt in L. split; [|exact L].
      apply (bucket_of_entry _ _ _ N) in I.
      rewrite bucket_hash_to_classes in I. now symmetry.
    + intros [-> L]. split; [|now apply Nat.ltb_lt].
      destruct (hashed_to md5 k class_map) as [|a l] eqn:E; [cbn in L; lia|].
      assert (Ia : In a (hashed_to md5 k class_map)) by (rewrite E; now left).
      apply in_hashed_to in Ia. destruct Ia as (da & Ia & Ea).
      assert (K : In k (List.map fst (hash_to_classes md5 class_map [])))
        by (apply keys_hash_to_classes; right; eauto).
      apply in_map_iff in K. destruct K as ([k' l'] & Ek & I). cbn in Ek. subst k'.
      pose proof (bucket_of_entry _ _ _ N I) as B.
      rewrite bucket_hash_to_classes in B. cbn [bucket app] in B.
      rewrite E in B. now subst l'.
  - clear -N. induction (hash_to_classes md5 class_map []) as [|[k l] d IH];
      cbn [filter List.map]; [constructor|].
    inversion N as [|? ? Hn N']; subst.
    destruct (1 <? length l); cbn [List.map fst]; [|now apply IH].
    constructor; [|now apply IH].
    intros I. apply Hn. apply in_map_iff in I. destruct I as ([a b] & <- & I).
    apply filter_In in I. destruct I as [I _]. now apply (in_map fst) in I.
Qed.

(** X16. Two different classes of the map whose declarations are the same
    set, listed in whatever order, are reported together in one group. *)
Theorem equal_sets_reported_together class_map a b da db :
  a <> b -> In (a, da) class_map -> In (b, db) class_map ->
  Permutation da db ->
  exists k classes,
    In (k, classes) (find_duplicate_rules md5 class_map)
    /\ In a classes /\ In b classes.
Proof.
  intros N Ia Ib P.
  pose proof (equal_sets_grouped md5 class_map a b da db N Ia Ib P) as G.
  unfold same_group in G. apply existsb_exists in G.
  destruct G as ([k classes] & I & M). apply andb_true_iff in M.
  destruct M as [Ma Mb]. exists k, classes.
  split; [exact I|]. split; now apply mem_in.
Qed.

End GroupLaws.

Section GroupWitness.
Import Audit.

(** The theorem at work on the two insertion orders of one set, with the
    identity as digest. *)
Lemma equal_sets_reported_together_witness :
  exists k classes,
    In (k, classes)
       (find_duplicate_rules (fun s => s)
          [ ("card", ["color: red"; "margin: 0"]);
            ("note", ["width: 1px"]);
            ("panel", ["margin: 0"; "color: red"]) ])
    /\ In "card" classes /\ In "panel" classes.
Proof.
  apply (equal_sets_reported_together (fun s => s)
           [ ("card", ["color: red"; "margin: 0"]);
             ("note", ["width: 1px"]);
             ("panel", ["margin: 0"; "color: red"]) ]
           "card" "panel" ["color: red"; "margin: 0"] ["margin: 0"; "color: red"]).
  - discriminate.
  - left. reflexivity.
  - right. right. left. reflexivity.
  - apply perm_swap.
Defined.

End GroupWitness.

Section BatchLaws.
Import Regex Rename Engine Fixtures Spec Laws SpliceLaws DialogueLaws.

Lemma questions_app e1 e2 :
  questions (e1 ++ e2) = questions e1 + questions e2.
Proof. unfold questions. now rewrite filter_app, length_app. Qed.

Lemma visit_accepting path content args old_class new_class r st w :
  all_yes args || global_yes st = true ->
  exists evs,
    questions evs = 0
    /\ visit path content args old_class new_class r st w
       = Ok (Next {| global_yes := global_yes st;
                     all_changes := (all_changes st ++ [edit_of new_class r])%list;
                     changed := true |})
            {| keys := keys w; files := files w; out := (out w ++ evs)%list |}.
Proof.
  unfold visit. intros Ha.
  destruct (highlight content r) as [line_num highlight_line].
  unfold bind, emit, choose. cbn [keys files out]. rewrite Ha. cbn.
  eexists. split; [|reflexivity]. reflexivity.
Qed.

Lemma each_reference_accepting path content args old_class new_class refs :
  forall st w,
    all_yes args || global_yes st = true ->
    exists evs,
      questions evs = 0
      /\ each_reference path content args old_class new_class refs st w
         = Ok (Next {| global_yes := global_yes st;
                       all_changes := (all_changes st
                                       ++ List.map (edit_of new_class) refs)%list;
                       changed := match refs with [] => changed st | _ => true end |})
              {| keys := keys w; files := files w; out := (out w ++ evs)%list |}.
Proof.
  induction refs as [|r refs IH]; intros st w Ha; cbn [each_reference List.map].
  - exists []. split; [reflexivity|]. rewrite !app_nil_r. now destruct st, w.
  - destruct (visit_accepting path content args old_class new_class r st w Ha)
      as (e1 & Q1 & H1).
    unfold bind at 1. rewrite H1.
    destruct (IH {| global_yes := global_yes st;
                    all_changes := (all_changes st ++ [edit_of new_class r])%list;
                    changed := true |}
                 {| keys := keys w; files := files w; out := (out w ++ e1)%list |} Ha)
      as (e2 & Q2 & H2).
    cbn [keys files out global_yes all_changes changed] in H2. rewrite H2.
    exists (e1 ++ e2)%list. split; [now rewrite questions_app, Q1, Q2|].
    rewrite <- !app_assoc. cbn [app].
    now destruct refs.
Qed.

Lemma each_class_accepting path content args mapping :
  forall st w,
    all_yes args || global_yes st = true ->
    exists evs,
      questions evs = 0
      /\ each_class path content args mapping st w
         = Ok (Next {| global_yes := global_yes st;
                       all_changes := (all_changes st ++ queued content mapping)%list;
                       changed := match queued content mapping with
                                  | [] => changed st
                                  | _ => true
                                  end |})
              {| keys := keys w; files := files w; out := (out w ++ evs)%list |}.
Proof.
  induction mapping as [|[old_class new_class] mapping IH]; intros st w Ha;
    cbn [each_class queued flat_map].
  - exists []. split; [reflexivity|]. rewrite !app_nil_r. now destruct st, w.
  - fold (queued content mapping).
    destruct (each_reference_accepting path content args old_class new_class
                (find_class_references content old_class) st w Ha) as (e1 & Q1 & H1).
    unfold bind at 1. rewrite H1.
    match type of H1 with _ = Ok (Next ?s) ?v =>
      destruct (IH s v Ha) as (e2 & Q2 & H2) end.
    cbn [keys files out global_yes all_changes changed] in H2. rewrite H2.
    exists (e1 ++ e2)%list. split; [now rewrite questions_app, Q1, Q2|].
    rewrite <- !app_assoc.
    destruct (find_class_references content old_class); cbn [List.map app];
      [reflexivity|].
    now destruct (queued content mapping).
Qed.

(** X17. What a file becomes when every occurrence is accepted, by
    [--all-yes] or by an earlier accept-all answer: no key is read and the
    call reports a change exactly when some reference was found in the
    text as read, that is, with every line end a line feed.  With no
    reference, and in a dry run, the file keeps what it held, line ends
    included; otherwise it holds the text as read with all queued edits
    applied in descending order of start offset. *)
Theorem accept_everything_rewrites path mapping args gy w raw :
  all_yes args || gy = true ->
  lookup path (files w) = Some (Text raw) ->
  exists w',
    process_file path mapping args gy w
    = Ok (match queued (universal_newlines raw) mapping with
          | [] => false
          | _ => true
          end) w'
    /\ keys w' = keys w
    /\ lookup path (files w')
       = Some (Text (match queued (universal_newlines raw) mapping with
                     | [] => raw
                     | edits =>
                         if dry_run args then raw
                         else apply_changes (sort_reverse edits)
                                            (universal_newlines raw)
                     end)).
Proof.
  intros Ha Hl. unfold process_file, bind at 1, read_text. rewrite Hl. cbn [decoded].
  destruct (each_class_accepting path (universal_newlines raw) args mapping
              {| global_yes := gy; all_changes := []; changed := false |}
              {| keys := keys w; files := files w; out := (out w ++ [Read path])%list |}
              Ha) as (evs & _ & H).
  cbn [keys files out global_yes all_changes changed app] in H.
  unfold bind at 1. rewrite H. unfold bind.
  destruct (queued (universal_newlines raw) mapping) as [|c q] eqn:Q; cbn [changed andb].
  - cbn. eexists. split; [reflexivity|]. split; [reflexivity|].
    cbn. exact Hl.
  - destruct (dry_run args); cbn [negb].
    + cbn. eexists. split; [reflexivity|]. split; [reflexivity | exact Hl].
    + destruct (no_backup args); cbn.
      * eexists. split; [reflexivity|]. split; [reflexivity|].
        cbn. now rewrite lookup_store, String.eqb_refl.
      * unfold copy2. cbn [files]. rewrite Hl. cbn.
        eexists. split; [reflexivity|]. split; [reflexivity|].
        cbn. now rewrite lookup_store, String.eqb_refl.
Qed.

(** The theorem at work on a file with line ends of two characters: the
    file that is written has line feeds alone. *)
Lemma accept_everything_witness :
  exists w',
    process_file "src/a.js" [("btn", "button")] args_real_run false
      (start [] [("src/a.js", Text dos_text)])
    = Ok (match queued (universal_newlines dos_text) [("btn", "button")] with
          | [] => false
          | _ => true
          end) w'
    /\ keys w' = keys (start [] [("src/a.js", Text dos_text)])
    /\ lookup "src/a.js" (files w')
       = Some (Text (match queued (universal_newlines dos_text) [("btn", "button")] with
                     | [] => dos_text
                     | edits =>
                         if dry_run args_real_run then dos_text
                         else apply_changes (sort_reverse edits)
                                            (universal_newlines dos_text)
                     end)).
Proof.
  apply (accept_everything_rewrites "src/a.js" [("btn", "button")] args_real_run false
           (start [] [("src/a.js", Text dos_text)]) dos_text);
    reflexivity.
Defined.

(** *** Which files a run may change *)

Lemma each_file_footprint mapping args gy paths q :
  (forall p, In p paths -> q <> p /\ q <> (p ++ ".bak")%string) ->
  forall any w any' w',
    each_file paths mapping args gy any w = Ok any' w' ->
    lookup q (files w') = lookup q (files w).
Proof.
  induction paths as [|p paths IH]; intros Hq any w any' w' H; cbn [each_file] in H.
  - now injection H as <- <-.
  - apply bind_ok in H. destruct H as (a & w1 & H1 & H2).
    apply (IH (fun p' I => Hq p' (or_intror I))) in H2. rewrite H2.
    destruct (is_file p (files w)); [|now injection H1 as <- <-].
    apply bind_ok in H1. destruct H1 as (c & w0 & Hp & Hr). injection Hr as <- <-.
    destruct (Hq p (or_introl eq_refl)) as [N1 N2].
    apply process_file_shape in Hp.
    destruct Hp as [-> | (content & text & _ & _ & _ & ->)]; [reflexivity|].
    rewrite lookup_store.
    destruct (String.eqb_spec p q) as [E | _]; [now destruct N1|].
    destruct (no_backup args); [reflexivity|]. rewrite lookup_store.
    destruct (String.eqb_spec (p ++ ".bak") q) as [E | _]; [now destruct N2 | reflexivity].
Qed.

Lemma files_of_targets root d p :
  In p (files_of root d) -> target [root] p.
Proof.
  unfold files_of, target. cbv zeta. destruct (is_file (Path root) d).
  - intros [E | []]. exists root. split; [now left | left; now symmetry].
  - intros H. apply in_flat_map in H. destruct H as (g & Ig & H).
    unfold rglob in H. apply in_map_iff in H. destruct H as ([p' f] & <- & H).
    apply filter_In in H. destruct H as [_ H]. apply andb_true_iff in H.
    exists root. split; [now left|]. right. cbn [fst]. split; [apply H|].
    exists g. split; [exact Ig | apply H].
Qed.

Lemma each_root_footprint mapping args gy rs q :
  ~ target rs q ->
  (forall p, q = (p ++ ".bak")%string -> ~ target rs p) ->
  forall any w any' w',
    each_root rs mapping args gy any w = Ok any' w' ->
    lookup q (files w') = lookup q (files w).
Proof.
  induction rs as [|root rs IH]; intros T B any w any' w' H; cbn [each_root] in H.
  - now injection H as <- <-.
  - apply bind_ok in H. destruct H as (a & w1 & H1 & H2).
    assert (Up : forall p, target rs p -> target (root :: rs) p).
    { intros p (r0 & I & X). exists r0. split; [now right | exact X]. }
    assert (Hd : forall p, target [root] p -> target (root :: rs) p).
    { intros p (r0 & [E | []] & X). exists r0. split; [now left | exact X]. }
    apply IH in H2; [|intros X; apply T, Up, X | intros p E X; exact (B p E (Up p X))].
    rewrite H2.
    apply (each_file_footprint mapping args gy (files_of root (files w)) q) in H1;
      [exact H1|].
    intros p I. apply files_of_targets in I. split.
    + intros ->. apply T, Hd, I.
    + intros E. exact (B p E (Hd p I)).
Qed.

(** X18. A run changes only what it was pointed at.  Take roots that
    name the working directory or a path below it, however they are
    spelled with slashes and dots, and a path spelled in the canonical
    way.  If the path is neither a root nor, below a root, a file whose
    name ends in .js, .jsx, .ts or .tsx, and is not the backup name of
    such a path, it holds after the run what it held before. *)
Theorem main_footprint args w status w' q :
  Forall plain_root (roots args) ->
  canonical q = true ->
  main args w = Ok status w' ->
  ~ target (roots args) q ->
  (forall p, q = (p ++ ".bak")%string -> ~ target (roots args) p) ->
  lookup q (files w') = lookup q (files w).
Proof.
  unfold main. intros _ _ H T B. destruct (load_mapping args) as [msg|mapping].
  - cbn in H. now injection H as <- <-.
  - apply bind_ok in H. destruct H as (any & w1 & H1 & H2).
    assert (E : w' = w1) by (destruct (dry_run args && any); now injection H2).
    subst w1. exact (each_root_footprint mapping args false (roots args) q T B _ _ _ _ H1).
Qed.

End BatchLaws.

Section FootprintWitness.
Import Regex Rename Engine Fixtures SpliceLaws.

(** The theorem at work: the root is spelled with a dot and a trailing
    slash; the file notes.js beside it is left alone by the run that
    rewrites src/a.js. *)
Lemma main_footprint_witness :
  lookup "notes.js"
    [("notes.js", Text (add_btn "a")); ("src/a.js", Text (add_button "a"))]
  = lookup "notes.js" (files (start [] (("notes.js", Text (add_btn "a")) :: one_file))).
Proof.
  apply (main_footprint (args_with ["./src/"] false true true)
           (start [] (("notes.js", Text (add_btn "a")) :: one_file)) 0
           {| keys := [];
              files := [("notes.js", Text (add_btn "a"));
                        ("src/a.js", Text (add_button "a"))];
              out := [ Read "src/a.js";
                       Shown "src/a.js" 1 classList_method (add_marked "a");
                       Written "src/a.js"; Wrote "src/a.js" ] |} "notes.js").
  - constructor; [right; reflexivity | constructor].
  - reflexivity.
  - vm_compute. reflexivity.
  - intros (root & [<- | []] & [E | [E _]]); discriminate E.
  - intros p E (root & [<- | []] & [E' | [E' _]]).
    + rewrite E' in E. vm_compute in E. discriminate E.
    + destruct p as [|c p]; [discriminate E|]. cbn in E. injection E as <- E.
      vm_compute in E'. discriminate E'.
Defined.

End FootprintWitness.

(** ** Properties of component attribution *)

Section ComponentLaws.
Import Component.

Lemma prefix_shorter (a b s : string) :
  prefix (a ++ b) s = true -> prefix a s = true.
Proof.
  intros H. apply (prefix_trans a (a ++ b)%string s); [|exact H].
  clear H. induction a as [|c a IH]; cbn; [now destruct (b)|].
  destruct (ascii_dec c c) as [_ | N]; [exact IH | now destruct N].
Qed.

Lemma contains_shorter (a b s : string) :
  contains (a ++ b) s = true -> contains a s = true.
Proof.
  induction s as [|c s IH]; cbn [contains]; intros H.
  - rewrite orb_false_r in *. now apply (prefix_shorter a b).
  - apply orb_true_iff in H. apply orb_true_iff. destruct H as [H | H].
    + left. now apply (prefix_shorter a b).
    + right. now apply IH.
Qed.

Lemma table_keys_found :
  forallb (fun e => match first_entry (fun key => String.eqb key (fst e)) COMPONENT_MAP with
                    | Some component => String.eqb component (snd e)
                    | None => false
                    end) COMPONENT_MAP = true.
Proof. vm_compute. reflexivity. Qed.

(** X19. A class name that is, in lower case, a key of [COMPONENT_MAP]
    gets the component the table gives for that key, whatever its
    selectors and its letter case. *)
Theorem table_names_win class_name selectors key component :
  In (key, component) COMPONENT_MAP ->
  str_lower class_name = key ->
  guess_component class_name selectors = component.
Proof.
  intros I E. unfold guess_component. rewrite E.
  pose proof (proj1 (forallb_forall _ _) table_keys_found (key, component) I) as H.
  cbn [fst snd] in H.
  destruct (first_entry (fun k => String.eqb k key) COMPONENT_MAP) as [c|];
    [|discriminate H].
  now apply String.eqb_eq in H.
Qed.

(** The theorem at work on a key written in upper case. *)
Lemma table_names_win_witness :
  guess_component "BTN-Primary" [".x .BTN-Primary"] = "PrimaryButton".
Proof.
  apply (table_names_win "BTN-Primary" [".x .BTN-Primary"] "btn-primary" "PrimaryButton").
  - vm_compute. do 30 right. left. reflexivity.
  - reflexivity.
Defined.

Ltac settle_modal l :=
  first
    [ solve [vm_compute; repeat (first [left; reflexivity | right])]
    | exfalso;
      match goal with
      | H1 : contains ?a l = false, H2 : contains ?b l = true |- _ =>
          apply (contains_shorter a "s") in H2; congruence
      end ].

(** X20. A class name that holds modal and is not a key of the table is
    named by the modal stage, whatever its selectors: the outcome is one
    of seventeen names, all ending in Modal.  The plural names
    AccountsModal, UsersModal, ProjectsModal and DocumentsModal are not
    among them: the singular type is tried first and is found whenever the
    plural would be. *)
Theorem modal_family class_name selectors :
  first_entry (fun key => String.eqb key (str_lower class_name)) COMPONENT_MAP = None ->
  contains "modal" (str_lower class_name) = true ->
  In (guess_component class_name selectors)
     [ "AccountModal"; "UserModal"; "ProjectModal"; "DocumentModal";
       "ErrorModal"; "MessageModal"; "LoginModal"; "RegisterModal";
       "PasswordResetModal"; "CorpusModal"; "ChooseContentForAIModal";
       "TextPromptModal"; "YesNoModal"; "ImportModal"; "JobsModal";
       "HistoryModal"; "Modal" ].
Proof.
  intros N M. unfold guess_component. rewrite N, M.
  set (l := str_lower class_name). unfold modal_stage, modal_types. cbn [find].
  repeat match goal with
         | |- context [if contains ?t l then _ else _] =>
             destruct (contains t l) eqn:?; [settle_modal l|]
         end.
  settle_modal l.
Qed.

(** The theorem at work on a name that holds accounts and modal. *)
Lemma modal_family_witness :
  In (guess_component "accounts-modal-wide" [])
     [ "AccountModal"; "UserModal"; "ProjectModal"; "DocumentModal";
       "ErrorModal"; "MessageModal"; "LoginModal"; "RegisterModal";
       "PasswordResetModal"; "CorpusModal"; "ChooseContentForAIModal";
       "TextPromptModal"; "YesNoModal"; "ImportModal"; "JobsModal";
       "HistoryModal"; "Modal" ].
Proof.
  apply (modal_family "accounts-modal-wide" []); vm_compute; reflexivity.
Defined.

(** X21. A class name that starts with btn and comes as far as the button
    stage is always named Button: the five names the stage tests for are
    keys of the table and are settled before it. *)
Theorem button_family class_name selectors :
  first_entry (fun key => String.eqb key (str_lower class_name)) COMPONENT_MAP = None ->
  contains "modal" (str_lower class_name) = false ->
  contains "import-step" (str_lower class_name) = false ->
  contains "stage-form" (str_lower class_name) = false ->
  PyStr.startswith class_name "btn" = true ->
  guess_component class_name selectors = "Button".
Proof.
  intros N M I S B. unfold guess_component. rewrite N, M, I, S, B.
  unfold button_stage.
  repeat match goal with
         | |- context [String.eqb class_name ?k] =>
             destruct (String.eqb_spec class_name k) as [E | _];
             [subst class_name; vm_compute in N; discriminate N|]
         end.
  reflexivity.
Qed.

(** The theorem at work on a button name that the table does not hold. *)
Lemma button_family_witness : guess_component "btn-ghost" [".btn-ghost:hover"] = "Button".
Proof.
  apply (button_family "btn-ghost" [".btn-ghost:hover"]); vm_compute; reflexivity.
Defined.

End ComponentLaws.

(** ** Properties of the dialogue with the operator *)

Section DialogueFacts.
Import Regex Rename Engine Fixtures Spec Laws SpliceLaws DialogueLaws.

Lemma no_consent_app e1 e2 :
  no_consent (e1 ++ e2) -> no_consent e1 /\ no_consent e2.
Proof.
  unfold no_consent. intros [Y A].
  split; (split; intros H; [apply Y | apply A]; apply in_or_app; auto).
Qed.

(** Without consent an iteration leaves the loop variables as they are. *)
Lemma visit_without_consent path content args old_class new_class r st w fl w' :
  all_yes args = false -> global_yes st = false ->
  visit path content args old_class new_class r st w = Ok fl w' ->
  exists evs,
    out w' = (out w ++ evs)%list
    /\ (no_consent evs -> fl = Next st \/ fl = Return (changed st)).
Proof.
  unfold visit. intros Hy Hg.
  destruct (highlight content r) as [line_num highlight_line].
  unfold bind, emit, choose. cbn [keys files out].
  destruct st as [gy changes ch]. cbn [global_yes all_changes changed] in *. subst gy.
  rewrite Hy. cbn [orb].
  destruct (dry_run args).
  - cbn. intros H. injection H as <- <-. eexists. split; [reflexivity|]. now left.
  - unfold prompt. cbn [keys files out].
    destruct (await_key (keys w)) as [[key ks]|]; [|discriminate].
    intros H. exists [Shown path line_num (kind r) highlight_line;
                      Asked old_class new_class; Echo key].
    destruct (Ascii.eqb_spec key "a") as [-> | Na].
    + cbn in H. injection H as <- <-. split; [cbn; now rewrite <- app_assoc|].
      intros [_ A]. destruct A. cbn. auto.
    + destruct (Ascii.eqb_spec key "s") as [-> | Ns].
      * cbn in H. injection H as <- <-. split; [cbn; now rewrite <- app_assoc|].
        intros _. now right.
      * destruct (Ascii.eqb_spec key "y") as [-> | Ny].
        -- cbn in H. injection H as <- <-. split; [cbn; now rewrite <- app_assoc|].
           intros [Y _]. destruct Y. cbn. auto.
        -- cbn in H. injection H as <- <-. split; [cbn; now rewrite <- app_assoc|].
           intros _. now left.
Qed.

Lemma each_reference_without_consent path content args old_class new_class refs :
  all_yes args = false ->
  forall st w fl w',
    global_yes st = false ->
    each_reference path content args old_class new_class refs st w = Ok fl w' ->
    exists evs,
      out w' = (out w ++ evs)%list
      /\ (no_consent evs -> fl = Next st \/ fl = Return (changed st)).
Proof.
  intros Hy. induction refs as [|r refs IH]; intros st w fl w' Hg H.
  - injection H as <- <-. exists []. split; [now rewrite app_nil_r | now left].
  - cbn [each_reference] in H. apply bind_ok in H. destruct H as (fl1 & w1 & Hv & Hk).
    destruct (visit_without_consent _ _ _ _ _ _ _ _ _ _ Hy Hg Hv) as (e1 & O1 & C1).
    destruct fl1 as [st1|v].
    + assert (exists e2, out w' = (out w1 ++ e2)%list
                         /\ (no_consent e1 -> no_consent e2 ->
                             fl = Next st \/ fl = Return (changed st)))
        as (e2 & O2 & C2).
      { destruct (each_reference_effect _ _ _ _ _ _ _ _ _ _ Hk) as (e2 & [_ O2 _ _ _ _]).
        exists e2. split; [exact O2|]. intros Q1 Q2.
        destruct (C1 Q1) as [E | E]; [|discriminate E]. injection E as ->.
        destruct (IH _ _ _ _ Hg Hk) as (e2' & O2' & C2').
        rewrite O2 in O2'. apply app_inv_head in O2'. subst e2'. now apply C2'. }
      exists (e1 ++ e2)%list. split; [now rewrite O2, O1, app_assoc|].
      intros Q. apply no_consent_app in Q. destruct Q as [Q1 Q2]. now apply C2.
    + injection Hk as <- <-. exists e1. split; [exact O1|].
      intros Q. exact (C1 Q).
Qed.

Lemma each_class_without_consent path content args mapping :
  all_yes args = false ->
  forall st w fl w',
    global_yes st = false ->
    each_class path content args mapping st w = Ok fl w' ->
    exists evs,
      out w' = (out w ++ evs)%list
      /\ (no_consent evs -> fl = Next st \/ fl = Return (changed st)).
Proof.
  intros Hy. induction mapping as [|[old_class new_class] mapping IH];
    intros st w fl w' Hg H.
  - injection H as <- <-. exists []. split; [now rewrite app_nil_r | now left].
  - cbn [each_class] in H. apply bind_ok in H. destruct H as (fl1 & w1 & Hv & Hk).
    destruct (each_reference_without_consent _ _ _ _ _ _ Hy _ _ _ _ Hg Hv)
      as (e1 & O1 & C1).
    destruct fl1 as [st1|v].
    + assert (exists e2, out w' = (out w1 ++ e2)%list
                         /\ (no_consent e1 -> no_consent e2 ->
                             fl = Next st \/ fl = Return (changed st)))
        as (e2 & O2 & C2).
      { destruct (each_class_effect _ _ _ _ _ _ _ _ Hk) as (e2 & [_ O2 _ _ _ _]).
        exists e2. split; [exact O2|]. intros Q1 Q2.
        destruct (C1 Q1) as [E | E]; [|discriminate E]. injection E as ->.
        destruct (IH _ _ _ _ Hg Hk) as (e2' & O2' & C2').
        rewrite O2 in O2'. apply app_inv_head in O2'. subst e2'. now apply C2'. }
      exists (e1 ++ e2)%list. split; [now rewrite O2, O1, app_assoc|].
      intros Q. apply no_consent_app in Q. destruct Q as [Q1 Q2]. now apply C2.
    + injection Hk as <- <-. exists e1. split; [exact O1|].
      intros Q. exact (C1 Q).
Qed.

(** X22. Nothing is written without consent: when [--all-yes] is off and
    the operator answers neither y nor a during a file, the call leaves
    the disk as it was and reports no change. *)
Theorem nothing_written_without_consent path mapping args w v w' evs :
  all_yes args = false ->
  process_file path mapping args false w = Ok v w' ->
  out w' = (out w ++ evs)%list ->
  no_consent evs ->
  files w' = files w /\ v = false.
Proof.
  intros Hy H O Q. unfold process_file in H.
  apply bind_ok in H. destruct H as (f & w1 & Hr & H).
  apply read_text_ok in Hr. destruct Hr as (stored & Hl & -> & ->).
  destruct stored as [raw|]; cbn [decoded] in H;
    [|cbn in H; injection H as <- <-; split; reflexivity].
  apply bind_ok in H. destruct H as (fl & w2 & Hc & H).
  destruct (each_class_effect _ _ _ _ _ _ _ _ Hc) as (e1 & [F O1 _ _ _ _]).
  pose proof (each_class_without_consent path (universal_newlines raw) args mapping Hy)
    as W.
  specialize (W {| global_yes := false; all_changes := []; changed := false |}
                _ _ _ eq_refl Hc).
  destruct W as (e1' & O1' & C).
  rewrite O1 in O1'. apply app_inv_head in O1'. subst e1'.
  cbn [files out] in F, O1.
  assert (Q1 : no_consent e1 -> files w' = files w /\ v = false).
  { intros Q1. destruct (C Q1) as [-> | ->]; cbn in H; injection H as <- <-;
      split; auto. }
  apply Q1.
  assert (P : exists e2, evs = (Read path :: e1 ++ e2)%list).
  { destruct fl as [st|v0].
    - destruct (changed st && negb (dry_run args)).
      + unfold bind in H. destruct (no_backup args).
        * cbn in H. injection H as <- <-. cbn [out] in O. rewrite O1 in O.
          rewrite <- !app_assoc in O. apply app_inv_head in O. subst evs.
          cbn. eauto.
        * unfold copy2 in H. destruct (lookup path (files w2)); [|discriminate H].
          cbn in H. injection H as <- <-. cbn [out] in O. rewrite O1 in O.
          rewrite <- !app_assoc in O. apply app_inv_head in O. subst evs.
          cbn. eauto.
      + cbn in H. injection H as <- <-. rewrite O1 in O.
        rewrite <- !app_assoc in O. apply app_inv_head in O. subst evs.
        exists []. cbn. now rewrite app_nil_r.
    - cbn in H. injection H as <- <-. rewrite O1 in O.
      rewrite <- !app_assoc in O. apply app_inv_head in O. subst evs.
      exists []. cbn. now rewrite app_nil_r. }
  destruct P as (e2 & ->). destruct Q as [Y A]. split; intros I.
  - apply Y. right. apply in_or_app. now left.
  - apply A. right. apply in_or_app. now left.
Qed.

(** The theorem at work: three occurrences, each answered n. *)
Lemma nothing_written_witness :
  files {| keys := []; files := [("src/a.js", Text three_calls)];
           out := [ Read "src/a.js";
                    Shown "src/a.js" 1 classList_method
                      (add_marked "a" ++ add_btn "b" ++ add_btn "c");
                    Asked "btn" "button"; Echo "n";
                    Shown "src/a.js" 1 classList_method
                      (add_btn "a" ++ add_marked "b" ++ add_btn "c");
                    Asked "btn" "button"; Echo "n";
                    Shown "src/a.js" 1 classList_method
                      (add_btn "a" ++ add_btn "b" ++ add_marked "c");
                    Asked "btn" "button"; Echo "n" ] |}
  = files (start ["n"; "N"; "x"; "n"]%char [("src/a.js", Text three_calls)])
  /\ false = false.
Proof.
  eapply (nothing_written_without_consent "src/a.js" [("btn", "button")]
            args_interactive
            (start ["n"; "N"; "x"; "n"]%char [("src/a.js", Text three_calls)]) false).
  - reflexivity.
  - vm_compute. reflexivity.
  - cbn [out start app]. reflexivity.
  - split; intros H; cbn in H;
      repeat (destruct H as [H | H]; [discriminate H|]); exact H.
Defined.

(** *** The accept-all answer *)

Lemma visit_accept_all path content args old_class new_class r st w ks :
  all_yes args = false -> dry_run args = false -> global_yes st = false ->
  await_key (keys w) = Some ("a"%char, ks) ->
  exists evs,
    questions evs = 1
    /\ visit path content args old_class new_class r st w
       = Ok (Next {| global_yes := true;
                     all_changes := (all_changes st ++ [edit_of new_class r])%list;
                     changed := true |})
            {| keys := ks; files := files w; out := (out w ++ evs)%list |}.
Proof.
  unfold visit. intros Hy Hd Hg Hk.
  destruct (highlight content r) as [line_num highlight_line].
  unfold bind, emit, choose, prompt. cbn [keys files out].
  rewrite Hy, Hg, Hd. cbn [orb]. unfold bind, emit. cbn [keys files out].
  rewrite Hk. cbn.
  exists [Shown path line_num (kind r) highlight_line; Asked old_class new_class;
          Echo "a"].
  split; [reflexivity|]. now rewrite <- !app_assoc.
Qed.

Lemma each_reference_accept_all path content args old_class new_class r refs st w ks :
  all_yes args = false -> dry_run args = false -> global_yes st = false ->
  await_key (keys w) = Some ("a"%char, ks) ->
  exists evs,
    questions evs = 1
    /\ each_reference path content args old_class new_class (r :: refs) st w
       = Ok (Next {| global_yes := true;
                     all_changes := (all_changes st
                                     ++ List.map (edit_of new_class) (r :: refs))%list;
                     changed := true |})
            {| keys := ks; files := files w; out := (out w ++ evs)%list |}.
Proof.
  intros Hy Hd Hg Hk. cbn [each_reference List.map].
  destruct (visit_accept_all path content args old_class new_class r st w ks
              Hy Hd Hg Hk) as (e1 & Q1 & H1).
  unfold bind at 1. rewrite H1.
  match type of H1 with _ = Ok (Next ?s) ?v =>
    destruct (each_reference_accepting path content args old_class new_class refs s v)
      as (e2 & Q2 & H2); [apply orb_true_r|] end.
  cbn [keys files out global_yes all_changes changed] in H2. rewrite H2.
  exists (e1 ++ e2)%list. split; [now rewrite questions_app, Q1, Q2|].
  rewrite <- !app_assoc. cbn [app]. now destruct refs.
Qed.

Lemma each_class_accept_all path content args mapping :
  all_yes args = false -> dry_run args = false ->
  queued content mapping <> [] ->
  forall st w ks,
    global_yes st = false ->
    await_key (keys w) = Some ("a"%char, ks) ->
    exists evs,
      questions evs = 1
      /\ each_class path content args mapping st w
         = Ok (Next {| global_yes := true;
                       all_changes := (all_changes st ++ queued content mapping)%list;
                       changed := true |})
              {| keys := ks; files := files w; out := (out w ++ evs)%list |}.
Proof.
  intros Hy Hd. induction mapping as [|[old_class new_class] mapping IH];
    intros Hq st w ks Hg Hk; [now destruct Hq|].
  cbn [each_class queued flat_map] in *. fold (queued content mapping) in *.
  destruct (find_class_references content old_class) as [|r refs].
  - cbn [List.map app] in *. cbn [each_reference]. unfold bind at 1, ret.
    now apply IH.
  - destruct (each_reference_accept_all path content args old_class new_class
                r refs st w ks Hy Hd Hg Hk) as (e1 & Q1 & H1).
    unfold bind at 1. rewrite H1.
    match type of H1 with _ = Ok (Next ?s) ?v =>
      destruct (each_class_accepting path content args mapping s v)
        as (e2 & Q2 & H2); [apply orb_true_r|] end.
    cbn [keys files out global_yes all_changes changed] in H2. rewrite H2.
    exists (e1 ++ e2)%list. split; [now rewrite questions_app, Q1, Q2|].
    rewrite <- !app_assoc. cbn [List.map app].
    now destruct (queued content mapping).
Qed.

(** X23. Answering a at the first question of a file accepts every
    occurrence of that file: when something was found in the text as
    read and the first valid key is a, the call asks exactly one
    question, consumes the keys up to that a and no more, reports a
    change, and leaves the file holding the text as read, every line end
    a line feed, with all queued edits applied in descending order of
    start offset. *)
Theorem accept_all_in_file path mapping args w raw ks :
  all_yes args = false -> dry_run args = false ->
  lookup path (files w) = Some (Text raw) ->
  queued (universal_newlines raw) mapping <> [] ->
  await_key (keys w) = Some ("a"%char, ks) ->
  exists w' evs,
    process_file path mapping args false w = Ok true w'
    /\ keys w' = ks
    /\ out w' = (out w ++ evs)%list
    /\ questions evs = 1
    /\ lookup path (files w')
       = Some (Text (apply_changes
                       (sort_reverse (queued (universal_newlines raw) mapping))
                       (universal_newlines raw))).
Proof.
  intros Hy Hd Hl Hq Hk. unfold process_file, bind at 1, read_text. rewrite Hl.
  cbn [decoded].
  destruct (each_class_accept_all path (universal_newlines raw) args mapping Hy Hd Hq
              {| global_yes := false; all_changes := []; changed := false |}
              {| keys := keys w; files := files w; out := (out w ++ [Read path])%list |}
              ks eq_refl Hk) as (evs & Q & H).
  cbn [keys files out global_yes all_changes changed app] in H.
  unfold bind at 1. rewrite H. unfold bind. cbn [changed andb]. rewrite Hd. cbn [negb].
  destruct (no_backup args); cbn.
  - exists {| keys := ks;
              files := store path
                         (Text (apply_changes
                                  (sort_reverse (queued (universal_newlines raw) mapping))
                                  (universal_newlines raw))) (files w);
              out := ((out w ++ [Read path]) ++ evs) ++ [Written path; Wrote path] |},
           (Read path :: evs ++ [Written path; Wrote path])%list.
    split; [now rewrite <- !app_assoc|]. split; [reflexivity|].
    split; [cbn; now rewrite <- !app_assoc|].
    split; [change (questions (evs ++ [Written path; Wrote path]) = 1);
            now rewrite questions_app, Q|].
    cbn. now rewrite lookup_store, String.eqb_refl.
  - unfold copy2. cbn [files]. rewrite Hl. cbn.
    eexists _, (Read path :: evs ++ [Copied path (path ++ ".bak"); Written path; Wrote path])%list.
    split; [reflexivity|]. split; [reflexivity|].
    split; [cbn; now rewrite <- !app_assoc|].
    split; [change (questions (evs ++ [Copied path (path ++ ".bak"); Written path;
                                       Wrote path]) = 1);
            now rewrite questions_app, Q|].
    cbn. now rewrite lookup_store, String.eqb_refl.
Qed.

(** The theorem at work on a file with line ends of two characters: an
    invalid key and then a. *)
Lemma accept_all_in_file_witness :
  exists w' evs,
    process_file "src/a.js" [("btn", "button")] args_interactive false
      (start ["x"; "A"; "n"]%char [("src/a.js", Text dos_text)]) = Ok true w'
    /\ keys w' = ["n"%char]
    /\ out w' = (out (start ["x"; "A"; "n"]%char [("src/a.js", Text dos_text)])
                 ++ evs)%list
    /\ questions evs = 1
    /\ lookup "src/a.js" (files w')
       = Some (Text (apply_changes
                       (sort_reverse (queued (universal_newlines dos_text)
                                        [("btn", "button")]))
                       (universal_newlines dos_text))).
Proof.
  apply (accept_all_in_file "src/a.js" [("btn", "button")] args_interactive
           (start ["x"; "A"; "n"]%char [("src/a.js", Text dos_text)]) dos_text).
  - reflexivity.
  - reflexivity.
  - reflexivity.
  - vm_compute. discriminate.
  - reflexivity.
Defined.

End DialogueFacts.

(** ** Where the content of a record comes from *)

Section OriginFacts.
Import Audit AuditLaws OriginLaws.

Variable U : string -> Prop.
Variable M : string -> string -> string -> Prop.

Lemma fold_keeps {S X} (f : S -> X -> S) (Inv : S -> Prop) (l : list X) :
  (forall st x, In x l -> Inv st -> Inv (f st x)) ->
  forall st, Inv st -> Inv (fold_left f l st).
Proof.
  induction l as [|y l IH]; intros Step st I; cbn [fold_left]; [exact I|].
  apply IH; [intros st' x H; apply Step; now right|].
  apply Step; [now left | exact I].
Qed.

Lemma deref_nil l : deref l [] = [].
Proof. unfold deref. now destruct l. Qed.

Lemma deref_heap_update_from l t h l' x :
  In x (deref l' (heap_update l t h)) -> In x (deref l' h) \/ In x t.
Proof.
  revert l l'. induction h as [|s h IH]; intros l l' H.
  - destruct l; cbn [heap_update] in H; rewrite deref_nil in H; destruct H.
  - destruct l as [|l]; cbn [heap_update] in H.
    + destruct l' as [|l']; unfold deref in *; cbn [nth] in *; [|now left].
      apply in_set_update in H. exact H.
    + destruct l' as [|l']; unfold deref in *; cbn [nth] in *; [now left|].
      exact (IH l l' H).
Qed.

Lemma deref_alloc_from l s h x :
  In x (deref l (h ++ [s])%list) -> In x (deref l h) \/ In x s.
Proof.
  unfold deref. destruct (Nat.lt_ge_cases l (length h)) as [L | L].
  - rewrite app_nth1 by exact L. now left.
  - rewrite app_nth2 by exact L. destruct (l - length h) as [|[|k]]; cbn.
    + now right.
    + intros [].
    + intros [].
Qed.

Lemma heap_update_ok l l0 h :
  heap_ok U h -> heap_ok U (heap_update l (deref l0 h) h).
Proof.
  intros H l' x I. apply deref_heap_update_from in I.
  destruct I as [I | I]; eapply H; exact I.
Qed.

Lemma record_class_origin source_file sel decls st n :
  M n source_file sel ->
  origin_ok U M st -> origin_ok U M (record_class source_file sel decls st n).
Proof.
  intros Hm [Hh He]. destruct st as [h cm]. cbn [fst snd] in *.
  unfold record_class. destruct (get n cm) as [d|] eqn:G.
  - split; cbn [fst snd]; [now apply heap_update_ok|].
    intros n' d' I. apply in_put in I. destruct I as [E | I]; [|now apply He].
    injection E as -> ->. destruct (He _ _ (get_in _ _ _ G)) as (Hs & Hf & Hx & Hc).
    split; [|split; [|split]]; cbn [selectors files count].
    + intros s I. apply in_set_add in I. destruct I as [-> | I]; eauto.
    + intros f I. apply in_set_add in I. destruct I as [-> | I]; eauto.
    + exact Hx.
    + exact Hc.
  - split; cbn [fst snd]; [exact Hh|].
    intros n' d' I. apply in_put in I. destruct I as [E | I]; [|now apply He].
    injection E as -> ->.
    split; [|split; [|split]]; cbn [selectors files count].
    + intros s [<- | []]. eauto.
    + intros f [<- | []]. eauto.
    + eauto.
    + reflexivity.
Qed.

Lemma visit_selector_origin source_file style st sel :
  (forall x, In x (serialize style) -> U x) ->
  (forall n, In n (class_matches sel) -> M n source_file sel) ->
  origin_ok U M st -> origin_ok U M (visit_selector source_file style st sel).
Proof.
  intros Hu Hm I. unfold visit_selector.
  destruct (class_matches sel) as [|n0 names] eqn:E; [exact I|].
  unfold alloc. apply fold_keeps.
  - intros st' n Hn. now apply record_class_origin, Hm.
  - destruct I as [Hh He]. split; cbn [fst snd]; [|exact He].
    intros l x Hx. apply deref_alloc_from in Hx. destruct Hx as [Hx | Hx];
      [eapply Hh; exact Hx | now apply Hu].
Qed.

Lemma visit_rule_origin source_file st r :
  (forall selectorList style, r = STYLE_RULE selectorList style ->
     (forall x, In x (serialize style) -> U x)
     /\ (forall sel n, In sel selectorList -> In n (class_matches sel) ->
                       M n source_file sel)) ->
  origin_ok U M st -> origin_ok U M (visit_rule source_file st r).
Proof.
  intros H I. destruct r as [selectorList style|]; [|exact I].
  destruct (H _ _ eq_refl) as [Hu Hm]. cbn [visit_rule].
  apply fold_keeps; [|exact I].
  intros st' sel Hs. apply visit_selector_origin; [exact Hu|].
  intros n. now apply Hm.
Qed.

Lemma merge_class_origin st e :
  entry_ok M (fst e) (snd e) ->
  origin_ok U M st -> origin_ok U M (merge_class st e).
Proof.
  destruct e as [n d]. destruct st as [h cm]. cbn [fst snd].
  intros (Ds & Df & Dx & Dc) [Hh He]. cbn [fst snd] in *.
  unfold merge_class. destruct (get n cm) as [d0|] eqn:G.
  - split; cbn [fst snd]; [now apply heap_update_ok|].
    intros n' d' I. apply in_put in I. destruct I as [E | I]; [|now apply He].
    injection E as -> ->. destruct (He _ _ (get_in _ _ _ G)) as (Hs & Hf & Hx & Hc).
    split; [|split; [|split]]; cbn [selectors files count].
    + intros s I. apply in_set_update in I. destruct I as [I | I]; eauto.
    + intros f I. apply in_set_update in I. destruct I as [I | I]; eauto.
    + exact Hx.
    + exact Hc.
  - split; cbn [fst snd]; [exact Hh|].
    intros n' d' I. apply in_put in I. destruct I as [E | I]; [|now apply He].
    injection E as -> ->. repeat split; assumption.
Qed.

End OriginFacts.

Section OriginLaw.
Import Audit AuditLaws OriginLaws.

Lemma collect_file_origin css st f :
  In f css ->
  origin_ok (declared css) (mentions css) st ->
  origin_ok (declared css) (mentions css) (collect_file st f).
Proof.
  intros Hf I. destruct f as [css_file stylesheet]. unfold collect_file.
  assert (X : origin_ok (declared css) (mentions css)
                (extract_classes_from_css css_file stylesheet (fst st))).
  { unfold extract_classes_from_css. destruct I as [Hh _].
    destruct stylesheet as [rules|]; [|split; [exact Hh | intros n d []]].
    apply fold_keeps; [|split; [exact Hh | intros n d []]].
    intros st' r Hr. apply visit_rule_origin.
    intros selectorList style ->. split.
    - intros x Hx. apply in_serialize in Hx. destruct Hx as (name & value & Hp & ->).
      exists css_file, rules, selectorList, style, name, value. auto.
    - intros sel n Hs Hn. exists css_file, rules, selectorList, style. auto. }
  destruct (extract_classes_from_css css_file stylesheet (fst st))
    as [h file_class_map].
  destruct X as [Xh Xe]. cbn [fst snd] in Xh, Xe.
  apply fold_keeps.
  - intros st' [n d] He. apply merge_class_origin. cbn [fst snd]. now apply Xe.
  - split; [exact Xh | apply I].
Qed.

(** X24. The records invent nothing: in the class map that [main]
    builds, every text of a class's declaration set is a declaration of
    some style rule of some parsed file, every listed selector belongs to
    a rule of a parsed file and has the class among its tokens, every
    listed file is the base name of a parsed file with such a selector,
    and the usage count is still zero. *)
Theorem collect_invents_nothing css class_name d :
  get class_name (snd (collect css)) = Some d ->
  (forall x, In x (deref (declarations d) (fst (collect css))) -> declared css x)
  /\ (forall sel, In sel (selectors d) -> exists f, mentions css class_name f sel)
  /\ (forall f, In f (files d) -> exists sel, mentions css class_name f sel)
  /\ (exists f sel, mentions css class_name f sel)
  /\ count d = 0.
Proof.
  intros G.
  assert (E : collect css = fold_left collect_file css ([], [])) by reflexivity.
  assert (I : origin_ok (declared css) (mentions css) (collect css)).
  { rewrite E. apply (fold_keeps collect_file).
    - intros st f Hf. now apply collect_file_origin.
    - split; [|intros n d' []]. intros l x. cbn [fst]. rewrite deref_nil. intros []. }
  destruct I as [Hh He]. split; [intros x; apply Hh|].
  exact (He _ _ (get_in _ _ _ G)).
Qed.

(** The theorem at work on the two rules of the shared-set example. *)
Lemma collect_invents_nothing_witness :
  (forall x, In x (deref (declarations record_a) (fst (collect two_rules))) ->
             declared two_rules x)
  /\ (forall sel, In sel (selectors record_a) -> exists f, mentions two_rules "a" f sel)
  /\ (forall f, In f (files record_a) -> exists sel, mentions two_rules "a" f sel)
  /\ (exists f sel, mentions two_rules "a" f sel)
  /\ count record_a = 0.
Proof.
  apply (collect_invents_nothing two_rules "a" record_a).
  vm_compute. reflexivity.
Defined.

End OriginLaw.
